(** * qt-async: the asynchronous value cell

    A shallow embedding of [AsyncValueTemplate] (values/AsyncValueTemplate.h)
    and of the fields it inherits from [AsyncValueBase]
    (values/AsyncValueBase.h), followed by the properties of its mutators,
    accessors and blocking [wait].

    The file has two layers.
    - The cell layer gives every member function as a function on the
      fields of one cell, the way a single caller sees it.
    - The thread layer runs the same functions statement by statement in a
      pool of threads that share the cell, [m_writeLock] and the two wait
      conditions of the [Waiter].
    The lemmas [solo_moveValue], [solo_moveError], [solo_startProgressMove]
    and [solo_stopProgress] show that a thread running alone does what the
    cell layer says.

    Build conventions followed by the model: [Q_ASSERT] compiles to nothing
    (QT_NO_DEBUG), which is the build in which the [return false] and
    [return nullptr] that follow an assertion are reached; a failed
    assertion is still recorded as an event so that it can be talked about. *)

From stdpp Require Import base option list strings relations.
From Stdlib Require Import ZArith Lia.

(** ** Data model *)

(** [enum class ASYNC_VALUE_STATE] (AsyncValueBase.h). *)
Inductive ASYNC_VALUE_STATE : Set := VALUE | ERROR | PROGRESS.

#[global] Instance ASYNC_VALUE_STATE_eq_dec : EqDecision ASYNC_VALUE_STATE.
Proof. solve_decision. Defined.

(** A raw pointer: [None] is [nullptr], [Some a] the address [a]. *)
Definition pointer : Set := option nat.

(** What the cell reports to the outside besides return values: the
    [stateChanged] signal and the assertions whose condition was false. *)
Inductive event : Set :=
| StateChanged (state : ASYNC_VALUE_STATE)
| AssertFailed (message : string).

(** [struct Waiter] (AsyncValueBase.h).  The object lives on the stack of the
    thread that registered it, and [m_waiter] points to it exactly while it
    is registered; [owner] is that thread and stands for the object's
    address.  [subWaiters] is a [quint16].  The sleepers of the two
    [QWaitCondition] members are the threads whose program counter says so
    (see [pc] below). *)
Record Waiter : Set := { owner : nat; subWaiters : Z }.

(** Conversion of an [int] result back to [quint16]. *)
Definition quint16 (z : Z) : Z := (z mod 65536)%Z.

Section Model.

Context {ValueType ErrorType ProgressType : Type}.

(** A heap object together with its address.  Only progress objects need
    one: [stopProgress] compares raw progress pointers. *)
Record instance : Type := Object { address : nat; object : ProgressType }.

(** [std::unique_ptr<ProgressType>::get]. *)
Definition get (p : option instance) : pointer := address <$> p.

(** [struct Content]: two owning pointers, each null or holding a payload. *)
Record Content : Type := { value : option ValueType; error : option ErrorType }.

(** A [Content] after [std::move] took it, and a default-constructed one. *)
Definition moved_from : Content := {| value := None; error := None |}.

(** The fields of [AsyncValueBase] and [AsyncValueTemplate] other than the
    two locks, which belong to the thread layer. *)
Record AsyncValueTemplate : Type := {
  m_state : ASYNC_VALUE_STATE;
  m_content : Content;
  m_progress : option instance;
  m_waiter : option Waiter
}.

Definition set_state (s : ASYNC_VALUE_STATE) (c : AsyncValueTemplate) :=
  {| m_state := s; m_content := m_content c;
     m_progress := m_progress c; m_waiter := m_waiter c |}.

Definition set_content (k : Content) (c : AsyncValueTemplate) :=
  {| m_state := m_state c; m_content := k;
     m_progress := m_progress c; m_waiter := m_waiter c |}.

Definition set_progress (p : option instance) (c : AsyncValueTemplate) :=
  {| m_state := m_state c; m_content := m_content c;
     m_progress := p; m_waiter := m_waiter c |}.

Definition set_waiter (w : option Waiter) (c : AsyncValueTemplate) :=
  {| m_state := m_state c; m_content := m_content c;
     m_progress := m_progress c; m_waiter := w |}.

(** ** Mutators, as one caller sees them *)

(** Modelled from the spec: [emitStateChanged] is declared outside the
    sources at hand; it delivers one event carrying the new state tag,
    synchronously, on the mutating thread. *)
Definition emitStateChanged (c : AsyncValueTemplate) : event :=
  StateChanged (m_state c).

(** The block of [moveValue] under [QWriteLocker locker(&m_contentLock)]. *)
Definition moveValue_assign (value' : option ValueType) (c : AsyncValueTemplate)
  : AsyncValueTemplate :=
  (* oldContent = std::move(m_content); *)
  let c := set_content moved_from c in
  (* m_content.value = std::move(value); *)
  let c := set_content {| value := value'; error := error (m_content c) |} c in
  (* m_state = ASYNC_VALUE_STATE::VALUE; *)
  set_state VALUE c.

(** [void moveValue(std::unique_ptr<ValueType> value)].  The final
    [wakeAll] acts on sleeping threads only and is part of the thread
    layer; it leaves every field as it is. *)
Definition moveValue (value' : option ValueType) (c : AsyncValueTemplate)
  : AsyncValueTemplate * list event :=
  let c := moveValue_assign value' c in
  (c, [emitStateChanged c]).

(** [emplaceValue]: [std::make_unique] never yields null. *)
Definition emplaceValue (v : ValueType) := moveValue (Some v).

(** The block of [moveError] under the content write lock. *)
Definition moveError_assign (error' : option ErrorType) (c : AsyncValueTemplate)
  : AsyncValueTemplate :=
  let c := set_content moved_from c in
  let c := set_content {| value := value (m_content c); error := error' |} c in
  set_state ERROR c.

(** [void moveError(std::unique_ptr<ErrorType> error)]. *)
Definition moveError (error' : option ErrorType) (c : AsyncValueTemplate)
  : AsyncValueTemplate * list event :=
  let c := moveError_assign error' c in
  (c, [emitStateChanged c]).

Definition emplaceError (e : ErrorType) := moveError (Some e).

(** The constructors tagged [AsyncInitByValue] and [AsyncInitByError]: the
    base class stores the state, every other member is default-initialised,
    then the payload is emplaced. *)
Definition fresh (s : ASYNC_VALUE_STATE) : AsyncValueTemplate :=
  {| m_state := s; m_content := moved_from; m_progress := None; m_waiter := None |}.

Definition initByValue (v : ValueType) : AsyncValueTemplate :=
  (emplaceValue v (fresh VALUE)).1.

Definition initByError (e : ErrorType) : AsyncValueTemplate :=
  (emplaceError e (fresh ERROR)).1.

(** The block of [startProgressMove] under the content write lock. *)
Definition startProgress_assign (progress : option instance) (c : AsyncValueTemplate)
  : AsyncValueTemplate :=
  (* oldContent = std::move(m_content); *)
  let c := set_content moved_from c in
  (* m_progress = std::move(progress); *)
  let c := set_progress progress c in
  (* m_state = ASYNC_VALUE_STATE::PROGRESS; *)
  set_state PROGRESS c.

(** [ProgressType* startProgressMove(std::unique_ptr<ProgressType> progress)]:
    the returned pointer, the cell afterwards and the events. *)
Definition startProgressMove (progress : option instance) (c : AsyncValueTemplate)
  : pointer * AsyncValueTemplate * list event :=
  if decide (m_state c = PROGRESS) then
    (None, c, [AssertFailed "Cannot start progress while in progress"])
  else
    let c := startProgress_assign progress c in
    (get (m_progress c), c, [emitStateChanged c]).

(** [bool stopProgress(ProgressType* progress = nullptr)]. *)
Definition stopProgress (progress : pointer) (c : AsyncValueTemplate)
  : bool * AsyncValueTemplate * list event :=
  if bool_decide (progress ≠ None) && bool_decide (progress ≠ get (m_progress c)) then
    (false, c, [AssertFailed "Progress was started with different progress instance"])
  else if decide (m_state c = PROGRESS) then
    (false, c, [AssertFailed "No value or error assigned"])
  else
    (* m_progress = nullptr; *)
    (true, set_progress None c, []).

(** ** Accessors *)

(** A callable receives the payload by reference and may also touch state
    of its own ([S]): it returns the payload as it leaves it and its state
    afterwards. *)
Definition Pred (T S : Type) : Type := T → S → T * S.

(** [struct AsyncNoOp]. *)
Definition AsyncNoOp {T S : Type} : Pred T S := λ x s, (x, s).

Definition put_value (v : ValueType) (c : AsyncValueTemplate) :=
  set_content {| value := Some v; error := error (m_content c) |} c.

Definition put_error (e : ErrorType) (c : AsyncValueTemplate) :=
  set_content {| value := value (m_content c); error := Some e |} c.

Definition put_progress (a : nat) (p : ProgressType) (c : AsyncValueTemplate) :=
  set_progress (Some (Object a p)) c.

(** The three calls [valuePred( *m_content.value )], [errorPred( *m_content.error )]
    and [progressPred( *m_progress )].  Dereferencing a null pointer has no
    defined result: [None]. *)
Definition call_value {S} (valuePred : Pred ValueType S) (c : AsyncValueTemplate) (s : S)
  : option (AsyncValueTemplate * S) :=
  v ← value (m_content c);
  let '(v', s') := valuePred v s in Some (put_value v' c, s').

Definition call_error {S} (errorPred : Pred ErrorType S) (c : AsyncValueTemplate) (s : S)
  : option (AsyncValueTemplate * S) :=
  e ← error (m_content c);
  let '(e', s') := errorPred e s in Some (put_error e' c, s').

Definition call_progress {S} (progressPred : Pred ProgressType S) (c : AsyncValueTemplate) (s : S)
  : option (AsyncValueTemplate * S) :=
  p ← m_progress c;
  let '(p', s') := progressPred (object p) s in Some (put_progress (address p) p' c, s').

(** [void access(ValuePred, ErrorPred, ProgressPred)]. *)
Definition access3 {S} (valuePred : Pred ValueType S) (errorPred : Pred ErrorType S)
    (progressPred : Pred ProgressType S) (c : AsyncValueTemplate) (s : S)
  : option (AsyncValueTemplate * S) :=
  match m_state c with
  | VALUE => call_value valuePred c s
  | ERROR => call_error errorPred c s
  | PROGRESS => call_progress progressPred c s
  end.

(** [bool access(ValuePred, ErrorPred)]. *)
Definition access2 {S} (valuePred : Pred ValueType S) (errorPred : Pred ErrorType S)
    (c : AsyncValueTemplate) (s : S)
  : option (bool * (AsyncValueTemplate * S)) :=
  match m_state c with
  | VALUE => (true ,.) <$> call_value valuePred c s
  | ERROR => (true ,.) <$> call_error errorPred c s
  | _ => Some (false, (c, s))
  end.

(** [bool access(Pred valuePred)]. *)
Definition access1 {S} (valuePred : Pred ValueType S) (c : AsyncValueTemplate) (s : S)
  : option (bool * (AsyncValueTemplate * S)) :=
  if decide (m_state c ≠ VALUE) then Some (false, (c, s))
  else (true ,.) <$> call_value valuePred c s.

(** [bool accessError(Pred errorPred)]. *)
Definition accessError {S} (errorPred : Pred ErrorType S) (c : AsyncValueTemplate) (s : S)
  : option (bool * (AsyncValueTemplate * S)) :=
  if decide (m_state c ≠ ERROR) then Some (false, (c, s))
  else (true ,.) <$> call_error errorPred c s.

(** [bool accessProgress(Pred progressPred)]. *)
Definition accessProgress {S} (progressPred : Pred ProgressType S) (c : AsyncValueTemplate) (s : S)
  : option (bool * (AsyncValueTemplate * S)) :=
  if decide (m_state c ≠ PROGRESS) then Some (false, (c, s))
  else (true ,.) <$> call_progress progressPred c s.

End Model.

Arguments instance : clear implicits.
Arguments Content : clear implicits.
Arguments AsyncValueTemplate : clear implicits.

(** ** The thread layer

    The threads share one cell.  [m_writeLock] is a mutex.  A call of an
    accessor, and the block of a mutator under the write side of
    [m_contentLock], each count as one step: the read/write lock makes
    them atomic with respect to one another.  The wait conditions behave
    as Qt documents [QWaitCondition]: [wait] releases the mutex and puts
    the caller to sleep in one step, the sleeper leaves only after a
    [wakeAll] on that condition and then takes the mutex again before it
    goes on.  The callables passed by the threads only record what they
    are given. *)

Section Threads.

Context {ValueType ErrorType ProgressType : Type}.

#[local] Abbreviation Cell := (AsyncValueTemplate ValueType ErrorType ProgressType).

(** One invocation of a callable, with the payload it was given. *)
Inductive call : Type :=
| CallValue (v : ValueType)
| CallError (e : ErrorType)
| CallProgress (p : ProgressType).

(** The callables the threads pass: they record the invocation and leave
    the payload alone. *)
Definition logValue : Pred ValueType (list call) := λ v log, (v, log ++ [CallValue v]).
Definition logError : Pred ErrorType (list call) := λ e log, (e, log ++ [CallError e]).
Definition logProgress : Pred ProgressType (list call) := λ p log, (p, log ++ [CallProgress p]).

(** The member functions a thread may call. *)
Inductive op : Type :=
| Wait
| MoveValue (value' : option ValueType)
| MoveError (error' : option ErrorType)
| StartProgressMove (progress : option (instance ProgressType))
| StopProgress (progress : pointer).

(** Where a thread stands: [Idle] between two calls, otherwise at a
    statement of the member function it is in.  A thread asleep on a wait
    condition records whose [Waiter] the condition belongs to. *)
Inductive pc : Type :=
| Idle
(* wait: lines 242-249, then the branch on m_waiter *)
| WaitFast | WaitLock | WaitRecheck | WaitRegister
(* wait, first waiter: lines 274-277 and the scope guard of lines 258-268 *)
| PrimWait | PrimBlocked (w : nat) | PrimRelock | PrimAccess | PrimAtExit
| PrimDrainBlocked (w : nat) | PrimDrainRelock | PrimUnregister
(* wait, later waiter: lines 293-296 and the scope guard of lines 281-287 *)
| SubWait | SubBlocked (w : nat) | SubRelock | SubAccess | SubAtExit
(* moveValue and moveError; the last three statements are the same text *)
| MvLock (value' : option ValueType) | MvAssign (value' : option ValueType)
| MeLock (error' : option ErrorType) | MeAssign (error' : option ErrorType)
| MoveEmit | MoveWake | MoveUnlock
(* startProgressMove *)
| SpLock (progress : option (instance ProgressType))
| SpCheck (progress : option (instance ProgressType))
| SpAssign (progress : option (instance ProgressType))
| SpEmit | SpReturn
(* stopProgress *)
| StLock (progress : pointer) | StBody (progress : pointer).

Inductive returned : Set := RetPointer (p : pointer) | RetBool (b : bool).

Record thread : Type := {
  t_pc : pc;
  t_todo : list op;            (* the calls still to make *)
  t_calls : list call;         (* invocations of this thread's callables *)
  t_returned : list returned   (* values returned to this thread *)
}.

Definition set_pc (p : pc) (th : thread) : thread :=
  {| t_pc := p; t_todo := t_todo th; t_calls := t_calls th; t_returned := t_returned th |}.

Definition set_todo (l : list op) (th : thread) : thread :=
  {| t_pc := t_pc th; t_todo := l; t_calls := t_calls th; t_returned := t_returned th |}.

Definition set_calls (l : list call) (th : thread) : thread :=
  {| t_pc := t_pc th; t_todo := t_todo th; t_calls := l; t_returned := t_returned th |}.

Definition push_returned (r : returned) (th : thread) : thread :=
  {| t_pc := t_pc th; t_todo := t_todo th; t_calls := t_calls th;
     t_returned := t_returned th ++ [r] |}.

(** A thread that is about to make the calls [l]. *)
Definition spawn (l : list op) : thread :=
  {| t_pc := Idle; t_todo := l; t_calls := []; t_returned := [] |}.

(** The cell, its write mutex (held by nobody or by one thread), the
    threads, and the events so far. *)
Record config : Type := {
  cell : Cell;
  m_writeLock : option nat;
  threads : list thread;
  trace : list event
}.

Definition set_cell (c : Cell) (σ : config) : config :=
  {| cell := c; m_writeLock := m_writeLock σ; threads := threads σ; trace := trace σ |}.

Definition set_lock (l : option nat) (σ : config) : config :=
  {| cell := cell σ; m_writeLock := l; threads := threads σ; trace := trace σ |}.

Definition set_threads (l : list thread) (σ : config) : config :=
  {| cell := cell σ; m_writeLock := m_writeLock σ; threads := l; trace := trace σ |}.

Definition emit (e : event) (σ : config) : config :=
  {| cell := cell σ; m_writeLock := m_writeLock σ; threads := threads σ;
     trace := trace σ ++ [e] |}.

Definition set_thread (t : nat) (th : thread) (σ : config) : config :=
  set_threads (<[t := th]> (threads σ)) σ.

(** [QMutexLocker writeLocker(&m_writeLock)]: possible only while nobody
    holds the mutex. *)
Definition acquire (t : nat) (σ : config) : option config :=
  match m_writeLock σ with
  | None => Some (set_lock (Some t) σ)
  | Some _ => None
  end.

Definition release (σ : config) : config := set_lock None σ.

(** [Q_ASSERT(cond)]. *)
Definition Q_ASSERT (cond : bool) (message : string) (σ : config) : config :=
  if cond then σ else emit (AssertFailed message) σ.

(** [waitValue.wakeAll()] of the [Waiter] of thread [w]: every sleeper of
    that condition goes on to re-acquire the mutex. *)
Definition wake_value (w : nat) (th : thread) : thread :=
  match t_pc th with
  | PrimBlocked w' => if decide (w' = w) then set_pc PrimRelock th else th
  | SubBlocked w' => if decide (w' = w) then set_pc SubRelock th else th
  | _ => th
  end.

(** [waitSubWaiters.wakeAll()] of the [Waiter] of thread [w]. *)
Definition wake_drained (w : nat) (th : thread) : thread :=
  match t_pc th with
  | PrimDrainBlocked w' => if decide (w' = w) then set_pc PrimDrainRelock th else th
  | _ => th
  end.

Definition wakeAll (wake : thread → thread) (σ : config) : config :=
  set_threads (wake <$> threads σ) σ.

(** [access(valuePred, errorPred)] as called from [wait]. *)
Definition wait_access (th : thread) (σ : config) : option (bool * thread * config) :=
  '(matched, (c, log)) ← access2 logValue logError (cell σ) (t_calls th);
  Some (matched, set_calls log th, set_cell c σ).

Definition entry (o : op) : pc :=
  match o with
  | Wait => WaitFast
  | MoveValue v => MvLock v
  | MoveError e => MeLock e
  | StartProgressMove p => SpLock p
  | StopProgress h => StLock h
  end.

(** The statement at which thread [t], whose record is [th], stands.
    [None]: the thread cannot move now (it has nothing left to do, it
    sleeps, the mutex is taken) or the statement dereferences a null
    pointer. *)
Definition statement (t : nat) (th : thread) (σ : config) : option config :=
  let goto (p : pc) (th : thread) (σ : config) := Some (set_thread t (set_pc p th) σ) in
  match t_pc th with
  | Idle =>
      match t_todo th with
      | [] => None
      | o :: rest => goto (entry o) (set_todo rest th) σ
      end
  (* if (access(valuePred, errorPred)) return; *)
  | WaitFast =>
      '(matched, th, σ) ← wait_access th σ;
      goto (if matched : bool then Idle else WaitLock) th σ
  (* QMutexLocker writeLocker(&m_writeLock); *)
  | WaitLock => σ ← acquire t σ; goto WaitRecheck th σ
  (* if (access(valuePred, errorPred)) return; *)
  | WaitRecheck =>
      '(matched, th, σ) ← wait_access th σ;
      if matched : bool then goto Idle th (release σ) else goto WaitRegister th σ
  (* if (!m_waiter) { Waiter theWaiter; ... m_waiter = &theWaiter;
     else { ... m_waiter->subWaiters += 1; *)
  | WaitRegister =>
      match m_waiter (cell σ) with
      | None =>
          let w := {| owner := t; subWaiters := 0 |} in
          goto PrimWait th (set_cell (set_waiter (Some w) (cell σ)) σ)
      | Some w =>
          let w := {| owner := owner w; subWaiters := quint16 (subWaiters w + 1) |} in
          goto SubWait th (set_cell (set_waiter (Some w) (cell σ)) σ)
      end
  (* m_waiter->waitValue.wait(&m_writeLock); releases the mutex and sleeps *)
  | PrimWait => w ← m_waiter (cell σ); goto (PrimBlocked (owner w)) th (release σ)
  | PrimBlocked _ => None
  (* ... and takes the mutex again once woken *)
  | PrimRelock => σ ← acquire t σ; goto PrimAccess th σ
  (* auto res = access(valuePred, errorPred); Q_ASSERT(res && ...); *)
  | PrimAccess =>
      '(matched, th, σ) ← wait_access th σ;
      goto PrimAtExit th (Q_ASSERT matched "access should succeed" σ)
  (* if (m_waiter->subWaiters > 0) m_waiter->waitSubWaiters.wait(&m_writeLock); *)
  | PrimAtExit =>
      w ← m_waiter (cell σ);
      if decide (0 < subWaiters w)%Z
      then goto (PrimDrainBlocked (owner w)) th (release σ)
      else goto PrimUnregister th σ
  | PrimDrainBlocked _ => None
  (* back from waitSubWaiters.wait; Q_ASSERT(m_waiter->subWaiters == 0); *)
  | PrimDrainRelock =>
      σ ← acquire t σ;
      goto PrimUnregister th
        (Q_ASSERT (bool_decide (subWaiters <$> m_waiter (cell σ) = Some 0%Z))
                  "m_waiter->subWaiters == 0" σ)
  (* m_waiter = nullptr; then theWaiter and writeLocker leave scope *)
  | PrimUnregister => goto Idle th (release (set_cell (set_waiter None (cell σ)) σ))
  (* m_waiter->waitValue.wait(&m_writeLock); *)
  | SubWait => w ← m_waiter (cell σ); goto (SubBlocked (owner w)) th (release σ)
  | SubBlocked _ => None
  | SubRelock => σ ← acquire t σ; goto SubAccess th σ
  | SubAccess =>
      '(matched, th, σ) ← wait_access th σ;
      goto SubAtExit th (Q_ASSERT matched "access should succeed" σ)
  (* m_waiter->subWaiters -= 1;
     if (m_waiter->subWaiters == 0) m_waiter->waitSubWaiters.wakeAll();
     then writeLocker leaves scope *)
  | SubAtExit =>
      w ← m_waiter (cell σ);
      let w := {| owner := owner w; subWaiters := quint16 (subWaiters w - 1) |} in
      let σ := set_cell (set_waiter (Some w) (cell σ)) σ in
      let σ := if decide (subWaiters w = 0%Z) then wakeAll (wake_drained (owner w)) σ else σ in
      goto Idle th (release σ)
  (* moveValue *)
  | MvLock v => σ ← acquire t σ; goto (MvAssign v) th σ
  | MvAssign v => goto MoveEmit th (set_cell (moveValue_assign v (cell σ)) σ)
  (* moveError *)
  | MeLock e => σ ← acquire t σ; goto (MeAssign e) th σ
  | MeAssign e => goto MoveEmit th (set_cell (moveError_assign e (cell σ)) σ)
  (* emitStateChanged(); *)
  | MoveEmit => goto MoveWake th (emit (emitStateChanged (cell σ)) σ)
  (* if (m_waiter) m_waiter->waitValue.wakeAll(); *)
  | MoveWake =>
      match m_waiter (cell σ) with
      | Some w => goto MoveUnlock th (wakeAll (wake_value (owner w)) σ)
      | None => goto MoveUnlock th σ
      end
  | MoveUnlock => goto Idle th (release σ)
  (* startProgressMove *)
  | SpLock p => σ ← acquire t σ; goto (SpCheck p) th σ
  | SpCheck p =>
      if decide (m_state (cell σ) = PROGRESS) then
        goto Idle (push_returned (RetPointer None) th)
          (release (Q_ASSERT false "Cannot start progress while in progress" σ))
      else goto (SpAssign p) th σ
  | SpAssign p => goto SpEmit th (set_cell (startProgress_assign p (cell σ)) σ)
  | SpEmit => goto SpReturn th (emit (emitStateChanged (cell σ)) σ)
  (* return m_progress.get(); *)
  | SpReturn =>
      goto Idle (push_returned (RetPointer (get (m_progress (cell σ)))) th) (release σ)
  (* stopProgress: the whole body runs under the mutex *)
  | StLock h => σ ← acquire t σ; goto (StBody h) th σ
  | StBody h =>
      let '(r, c, es) := stopProgress h (cell σ) in
      goto Idle (push_returned (RetBool r) th)
        (release (foldl (λ σ e, emit e σ) (set_cell c σ) es))
  end.

(** One statement of thread [t]. *)
Definition step (t : nat) (σ : config) : option config :=
  th ← threads σ !! t; statement t th σ.

(** Running a schedule: the threads named in [sched] take one statement
    each, in that order. *)
Fixpoint run (sched : list nat) (σ : config) : option config :=
  match sched with
  | [] => Some σ
  | t :: sched => σ' ← step t σ; run sched σ'
  end.

(** The interleaving semantics: some thread takes a statement. *)
Definition steps_to (σ σ' : config) : Prop := ∃ t, step t σ = Some σ'.

(** No thread can move. *)
Definition halted (σ : config) : Prop := ∀ t, step t σ = None.

(** Whatever the scheduler does, the pool comes to rest after finitely
    many statements, and in a configuration satisfying [Q]. *)
Inductive inevitably (Q : config → Prop) (σ : config) : Prop :=
| inevitably_halted : halted σ → Q σ → inevitably Q σ
| inevitably_step :
    (∃ σ', steps_to σ σ') →
    (∀ σ', steps_to σ σ' → inevitably Q σ') →
    inevitably Q σ.

(** Everything reachable satisfies [Q]. *)
Definition always (Q : config → Prop) (σ : config) : Prop :=
  ∀ σ', rtc steps_to σ σ' → Q σ'.

End Threads.

Arguments call : clear implicits.
Arguments op : clear implicits.
Arguments pc : clear implicits.
Arguments thread : clear implicits.
Arguments config : clear implicits.

(** ** Vocabulary of the properties *)

Section Vocabulary.

Context {ValueType ErrorType ProgressType : Type}.

#[local] Abbreviation Cell := (AsyncValueTemplate ValueType ErrorType ProgressType).

(** The mutating calls a client makes, with the payload it hands over:
    [emplaceValue], [emplaceError], [startProgressMove] of an existing
    object, [stopProgress]. *)
Inductive mutation : Type :=
| SetValue (v : ValueType)
| SetError (e : ErrorType)
| StartProgress (p : instance ProgressType)
| StopProgressOf (handle : pointer).

Definition mutate (m : mutation) (c : Cell) : Cell :=
  match m with
  | SetValue v => (emplaceValue v c).1
  | SetError e => (emplaceError e c).1
  | StartProgress p => (startProgressMove (Some p) c).1.2
  | StopProgressOf h => (stopProgress h c).1.2
  end.

(** The cells a program can get: built by a constructor, then mutated. *)
Inductive reachable : Cell → Prop :=
| reachable_value v : reachable (initByValue v)
| reachable_error e : reachable (initByError e)
| reachable_mutate m c : reachable c → reachable (mutate m c).

(** What a reachable cell always has: the payload its tag announces, and
    nothing in the other content slot. *)
Definition well_formed (c : Cell) : Prop :=
  match m_state c with
  | VALUE => is_Some (value (m_content c)) ∧ error (m_content c) = None
  | ERROR => is_Some (error (m_content c)) ∧ value (m_content c) = None
  | PROGRESS => is_Some (m_progress c) ∧ m_content c = moved_from
  end.

(** The invocation a settled cell answers an access with. *)
Definition settled_call (c : Cell) : option (call ValueType ErrorType ProgressType) :=
  match m_state c with
  | VALUE => CallValue <$> value (m_content c)
  | ERROR => CallError <$> error (m_content c)
  | PROGRESS => None
  end.

End Vocabulary.

Arguments mutation : clear implicits.

(** ** Sample cells, with [nat] values, [string] errors and [nat] progress *)

Definition sample_progress : instance nat := Object 100 0.

(** [startProgressMove] on a cell constructed with value 7. *)
Definition sample_running : AsyncValueTemplate nat string nat :=
  mutate (StartProgress sample_progress) (initByValue 7).

(** ... and then [emplaceValue(42)]. *)
Definition sample_settled : AsyncValueTemplate nat string nat :=
  mutate (SetValue 42) sample_running.

(** A pool on the running cell: thread 0 calls [wait], thread 1
    [emplaceValue(42)], thread 2 [startProgressMove] with a new object. *)
Definition race_start : config nat string nat :=
  {| cell := sample_running;
     m_writeLock := None;
     threads := [spawn [Wait]; spawn [MoveValue (Some 42)];
                 spawn [StartProgressMove (Some (Object 200 1))]];
     trace := [] |}.

(** A pool on the running cell with three waiters (threads 0, 1, 2) and
    the setter (thread 3), and the schedule that puts the three to sleep. *)
Definition pool_start : config nat string nat :=
  {| cell := sample_running;
     m_writeLock := None;
     threads := [spawn [Wait]; spawn [Wait]; spawn [Wait]; spawn [MoveValue (Some 42)]];
     trace := [] |}.

Definition pool_blocked : config nat string nat :=
  default pool_start (run (replicate 6 0 ++ replicate 6 1 ++ replicate 6 2) pool_start).

(** A pool on the settled cell whose thread 0 calls [wait] three times
    while thread 1 is inside [emplaceValue] and holds the mutex. *)
Definition settled_pool : config nat string nat :=
  {| cell := sample_settled;
     m_writeLock := Some 1;
     threads := [spawn [Wait; Wait; Wait]; set_pc MoveEmit (spawn [])];
     trace := [] |}.

(** ** The wait protocol: measures and invariants *)

Section Protocol.

Context {ValueType ErrorType ProgressType : Type}.

#[local] Abbreviation Thread := (thread ValueType ErrorType ProgressType).
#[local] Abbreviation Config := (config ValueType ErrorType ProgressType).
#[local] Abbreviation Pc := (pc ValueType ErrorType ProgressType).

(** The sum of [g] over a list. *)
Fixpoint total {A : Type} (g : A → nat) (l : list A) : nat :=
  match l with
  | [] => 0
  | a :: l => g a + total g l
  end.

(** The statements a thread has left in the member function it is in, at
    most; a sleeper counts the statements after its wake-up. *)
Definition pc_rank (p : Pc) : nat :=
  match p with
  | Idle => 0
  | WaitFast => 12 | WaitLock => 11 | WaitRecheck => 10 | WaitRegister => 9
  | PrimWait => 8 | PrimBlocked _ => 7 | PrimRelock => 6 | PrimAccess => 5
  | PrimAtExit => 4 | PrimDrainBlocked _ => 3 | PrimDrainRelock => 2
  | PrimUnregister => 1
  | SubWait => 5 | SubBlocked _ => 4 | SubRelock => 3 | SubAccess => 2
  | SubAtExit => 1
  | MvLock _ => 5 | MvAssign _ => 4 | MeLock _ => 5 | MeAssign _ => 4
  | MoveEmit => 3 | MoveWake => 2 | MoveUnlock => 1
  | SpLock _ => 5 | SpCheck _ => 4 | SpAssign _ => 3 | SpEmit => 2 | SpReturn => 1
  | StLock _ => 2 | StBody _ => 1
  end.

Definition todo_rank (l : list (op ValueType ErrorType ProgressType)) : nat :=
  total (λ o, S (pc_rank (entry o))) l.

Definition rank (th : Thread) : nat := pc_rank (t_pc th) + todo_rank (t_todo th).

(** A bound on the statements the whole pool can still execute. *)
Definition measure (σ : Config) : nat := total rank (threads σ).

(** The statements at which the thread holds [m_writeLock]. *)
Definition holds_lock (p : Pc) : bool :=
  match p with
  | WaitRecheck | WaitRegister
  | PrimWait | PrimAccess | PrimAtExit | PrimUnregister
  | SubWait | SubAccess | SubAtExit
  | MvAssign _ | MeAssign _ | MoveEmit | MoveWake | MoveUnlock
  | SpCheck _ | SpAssign _ | SpEmit | SpReturn
  | StBody _ => true
  | _ => false
  end.

(** The thread registered its own [Waiter] and has not unregistered it. *)
Definition is_prim (p : Pc) : bool :=
  match p with
  | PrimWait | PrimBlocked _ | PrimRelock | PrimAccess | PrimAtExit
  | PrimDrainBlocked _ | PrimDrainRelock | PrimUnregister => true
  | _ => false
  end.

(** The thread counted itself in [subWaiters] and has not yet left. *)
Definition is_sub (p : Pc) : bool :=
  match p with
  | SubWait | SubBlocked _ | SubRelock | SubAccess | SubAtExit => true
  | _ => false
  end.

Definition sub_count (l : list Thread) : nat :=
  total (λ th, if is_sub (t_pc th) then 1 else 0) l.

(** A wake-up changes neither who holds the mutex nor who is registered. *)
Definition keeps_roles (f : Thread → Thread) : Prop :=
  ∀ a, holds_lock (t_pc (f a)) = holds_lock (t_pc a) ∧
       is_prim (t_pc (f a)) = is_prim (t_pc a) ∧
       is_sub (t_pc (f a)) = is_sub (t_pc a).

(** The thread has returned from its last call. *)
Definition finished (th : Thread) : bool :=
  match t_pc th, t_todo th with
  | Idle, [] => true
  | _, _ => false
  end.

(** *** One [moveValue(x)] against a pool of waiters

    Thread [s] makes the single call [moveValue(x)], every other thread the
    single call [wait]; [tr] is the trace at the outset. *)

(** The setter has not yet executed its [wakeAll]. *)
Definition wake_pending (ths : Thread) : bool :=
  match t_pc ths, t_todo ths with
  | Idle, _ :: _ => true
  | MvLock _, _ | MvAssign _, _ | MoveEmit, _ | MoveWake, _ => true
  | _, _ => false
  end.

Definition setter_ok (x : ValueType) (tr : list event)
    (state : ASYNC_VALUE_STATE) (trace' : list event) (ths : Thread) : Prop :=
  t_calls ths = [] ∧
  match t_pc ths with
  | Idle =>
      (t_todo ths = [MoveValue (Some x)] ∧ state = PROGRESS ∧ trace' = tr) ∨
      (t_todo ths = [] ∧ state = VALUE ∧ trace' = tr ++ [StateChanged VALUE])
  | MvLock v | MvAssign v =>
      v = Some x ∧ t_todo ths = [] ∧ state = PROGRESS ∧ trace' = tr
  | MoveEmit => t_todo ths = [] ∧ state = VALUE ∧ trace' = tr
  | MoveWake | MoveUnlock =>
      t_todo ths = [] ∧ state = VALUE ∧ trace' = tr ++ [StateChanged VALUE]
  | _ => False
  end.

Definition waiter_ok (x : ValueType)
    (c : AsyncValueTemplate ValueType ErrorType ProgressType)
    (pending : bool) (i : nat) (th : Thread) : Prop :=
  match t_pc th with
  | Idle =>
      (t_todo th = [Wait] ∧ t_calls th = []) ∨
      (t_todo th = [] ∧ t_calls th = [CallValue x])
  | WaitFast | WaitLock | WaitRecheck => t_todo th = [] ∧ t_calls th = []
  | WaitRegister | SubWait =>
      t_todo th = [] ∧ t_calls th = [] ∧ m_state c = PROGRESS
  | PrimWait =>
      t_todo th = [] ∧ t_calls th = [] ∧ m_state c = PROGRESS ∧
      owner <$> m_waiter c = Some i
  | PrimBlocked w =>
      t_todo th = [] ∧ t_calls th = [] ∧ pending = true ∧ w = i ∧
      owner <$> m_waiter c = Some i
  | SubBlocked w =>
      t_todo th = [] ∧ t_calls th = [] ∧ pending = true ∧
      owner <$> m_waiter c = Some w
  | PrimRelock | PrimAccess =>
      t_todo th = [] ∧ t_calls th = [] ∧ m_state c = VALUE ∧
      owner <$> m_waiter c = Some i
  | SubRelock | SubAccess =>
      t_todo th = [] ∧ t_calls th = [] ∧ m_state c = VALUE
  | PrimAtExit =>
      t_todo th = [] ∧ t_calls th = [CallValue x] ∧ m_state c = VALUE ∧
      owner <$> m_waiter c = Some i
  | PrimDrainBlocked w =>
      t_todo th = [] ∧ t_calls th = [CallValue x] ∧ m_state c = VALUE ∧ w = i ∧
      ∃ wt, m_waiter c = Some wt ∧ owner wt = i ∧ (0 < subWaiters wt)%Z
  | PrimDrainRelock | PrimUnregister =>
      t_todo th = [] ∧ t_calls th = [CallValue x] ∧ m_state c = VALUE ∧
      m_waiter c = Some {| owner := i; subWaiters := 0 |}
  | SubAtExit => t_todo th = [] ∧ t_calls th = [CallValue x] ∧ m_state c = VALUE
  | _ => False
  end.

Record wait_invariant (s : nat) (x : ValueType) (tr : list event) (σ : Config) : Prop := {
  (* the counter cannot wrap: it counts neither the setter nor the first
     waiter *)
  inv_bound : (Z.of_nat (length (threads σ)) ≤ 65537)%Z;
  (* the mutex is held by the thread that is inside a locked region *)
  inv_lock : ∀ t, m_writeLock σ = Some t ↔
               ∃ th, threads σ !! t = Some th ∧ holds_lock (t_pc th) = true;
  (* the cell is in Progress until the assignment, then holds x *)
  inv_cell : m_state (cell σ) = PROGRESS ∨
             (m_state (cell σ) = VALUE ∧ value (m_content (cell σ)) = Some x);
  (* the registered Waiter belongs to a first waiter and counts the others *)
  inv_waiter :
    match m_waiter (cell σ) with
    | None => ∀ i th, threads σ !! i = Some th →
                is_prim (t_pc th) = false ∧ is_sub (t_pc th) = false
    | Some w => subWaiters w = Z.of_nat (sub_count (threads σ)) ∧
                ∃ th, threads σ !! owner w = Some th ∧ is_prim (t_pc th) = true
    end;
  (* where the setter and the waiters stand *)
  inv_threads :
    ∃ ths, threads σ !! s = Some ths ∧
      setter_ok x tr (m_state (cell σ)) (trace σ) ths ∧
      ∀ i th, threads σ !! i = Some th → i ≠ s →
        waiter_ok x (cell σ) (wake_pending ths) i th
}.

(** The situation of the concurrency property: [n] threads sleep in [wait]
    on a cell in Progress, [w] as the first waiter and the others counted
    in its [subWaiters], as far as a [quint16] counts; thread [s] is about
    to call [moveValue(x)]; the mutex is free. *)
Definition blocked_in_wait (n s : nat) (x : ValueType) (σ : Config) : Prop :=
  1 ≤ n ∧ length (threads σ) = S n ∧
  m_state (cell σ) = PROGRESS ∧
  m_writeLock σ = None ∧
  threads σ !! s = Some (spawn [MoveValue (Some x)]) ∧
  ∃ w, w ≠ s ∧ w < S n ∧
    m_waiter (cell σ) =
      Some {| owner := w; subWaiters := quint16 (Z.of_nat n - 1) |} ∧
    ∀ i th, threads σ !! i = Some th → i ≠ s →
      th = set_pc (if decide (i = w) then PrimBlocked w else SubBlocked w) (spawn []).

(** The same pool before anybody has moved: every thread but [s] is about
    to call [wait], nobody is registered. *)
Definition about_to_wait (n s : nat) (x : ValueType) (σ : Config) : Prop :=
  length (threads σ) = S n ∧
  m_state (cell σ) = PROGRESS ∧
  m_waiter (cell σ) = None ∧
  m_writeLock σ = None ∧
  threads σ !! s = Some (spawn [MoveValue (Some x)]) ∧
  ∀ i th, threads σ !! i = Some th → i ≠ s → th = spawn [Wait].

(** The pool of [n] callers of [wait] (threads [0] to [n - 1]) and one
    caller of [moveValue(x)] (thread [n]) on the cell [c]; the schedule
    that lets the waiters go to sleep one after the other, six statements
    each; and the pool they are then in. *)
Definition start_pool (n : nat) (c : AsyncValueTemplate ValueType ErrorType ProgressType)
    (x : ValueType) : Config :=
  {| cell := c;
     m_writeLock := None;
     threads := replicate n (spawn [Wait]) ++ [spawn [MoveValue (Some x)]];
     trace := [] |}.

Definition sleep_schedule (first n : nat) : list nat :=
  flat_map (replicate 6) (seq first n).

Definition asleep (p : Pc) : Thread := set_pc p (spawn []).

Definition sleeping_pool (k n : nat)
    (c : AsyncValueTemplate ValueType ErrorType ProgressType) (x : ValueType) : Config :=
  {| cell := set_waiter (Some {| owner := 0; subWaiters := Z.of_nat k |}) c;
     m_writeLock := None;
     threads := asleep (PrimBlocked 0) :: replicate k (asleep (SubBlocked 0)) ++
                replicate n (spawn [Wait]) ++ [spawn [MoveValue (Some x)]];
     trace := [] |}.

(** The outcome: everybody has returned, each waiter's value callable ran
    once, on [x], and no other callable of its ran; the waiter slot is
    empty and the mutex free; the only event was the state change. *)
Definition all_served (s : nat) (x : ValueType) (tr : list event) (σ : Config) : Prop :=
  m_state (cell σ) = VALUE ∧ value (m_content (cell σ)) = Some x ∧
  m_waiter (cell σ) = None ∧ m_writeLock σ = None ∧
  trace σ = tr ++ [StateChanged VALUE] ∧
  ∀ i th, threads σ !! i = Some th →
    finished th = true ∧ (i ≠ s → t_calls th = [CallValue x]).

(** The first waiter unregisters its [Waiter], and the slot is empty, only
    when no thread is counted in [subWaiters] any more. *)
Definition drained_before_unregistered (σ : Config) : Prop :=
  (m_waiter (cell σ) = None ∨
   ∃ i th, threads σ !! i = Some th ∧ t_pc th = PrimUnregister) →
  sub_count (threads σ) = 0.

End Protocol.

(** ** The rest of the class: construction, destruction, notifications *)

Section Lifecycle.

Context {ValueType ErrorType ProgressType : Type}.

#[local] Abbreviation Cell := (AsyncValueTemplate ValueType ErrorType ProgressType).

(** [~AsyncValueTemplate()]: its only statement is
    [Q_ASSERT(m_state != ASYNC_VALUE_STATE::PROGRESS)]. *)
Definition destroy (c : Cell) : list event :=
  if decide (m_state c ≠ PROGRESS) then []
  else [AssertFailed "m_state != ASYNC_VALUE_STATE::PROGRESS"].

(** [startProgressEmplace]: [std::make_unique] builds the object at a new
    address, here [a], and [startProgressMove] takes it. *)
Definition startProgressEmplace (a : nat) (object' : ProgressType) (c : Cell)
  : pointer * Cell * list event :=
  startProgressMove (Some (Object a object')) c.

(** The events of a mutating call, beside the cell that [mutate] gives. *)
Definition events_of (m : mutation ValueType ErrorType ProgressType) (c : Cell)
  : list event :=
  match m with
  | SetValue v => (emplaceValue v c).2
  | SetError e => (emplaceError e c).2
  | StartProgress p => (startProgressMove (Some p) c).2
  | StopProgressOf h => (stopProgress h c).2
  end.

(** [stopAndWait] as far as the first statement of the [wait] it ends
    with: [accessProgress] with the callable that asks the progress object
    to stop ([requestStop] is declared with the progress type, outside
    this class), then [wait(AsyncNoOp(), AsyncNoOp())], whose first
    [access] either matches, and [stopAndWait] has returned ([true]), or
    does not, and [wait] goes on to take the mutex ([false]). *)
Definition stopAndWait_fast (requestStop : ProgressType → ProgressType) (c : Cell)
  : option (bool * Cell) :=
  '(_, (c, _)) ← accessProgress (λ progress (s : unit), (requestStop progress, s)) c tt;
  '(matched, (c, _)) ← access2 AsyncNoOp AsyncNoOp c tt;
  Some (matched, c).

End Lifecycle.

(** The cell a constructor call with value 7 builds. *)
Definition sample_constructed : AsyncValueTemplate nat string nat := initByValue 7.

(** ** Any pool of threads, whatever they call *)

Section Pools.

Context {ValueType ErrorType ProgressType : Type}.

#[local] Abbreviation Thread := (thread ValueType ErrorType ProgressType).
#[local] Abbreviation Config := (config ValueType ErrorType ProgressType).
#[local] Abbreviation Pc := (pc ValueType ErrorType ProgressType).

(** [m_writeLock] is held by [t] exactly when thread [t] stands inside a
    region that a [QMutexLocker] guards. *)
Definition lock_discipline (σ : Config) : Prop :=
  ∀ t, m_writeLock σ = Some t ↔
       ∃ th, threads σ !! t = Some th ∧ holds_lock (t_pc th) = true.

(** At most one thread stands inside a guarded region. *)
Definition exclusive (σ : Config) : Prop :=
  ∀ i j a b, threads σ !! i = Some a → threads σ !! j = Some b →
    holds_lock (t_pc a) = true → holds_lock (t_pc b) = true → i = j.

(** Every thread is outside the guarded regions and the mutex is free: so
    it is, in particular, before any thread has made a call. *)
Definition unlocked (σ : Config) : Prop :=
  m_writeLock σ = None ∧
  ∀ t th, threads σ !! t = Some th → holds_lock (t_pc th) = false.

(** The thread is inside a call of [wait] and the [access] that ends the
    call is still to come. *)
Definition access_ahead (p : Pc) : bool :=
  match p with
  | WaitFast | WaitLock | WaitRecheck | WaitRegister
  | PrimWait | PrimBlocked _ | PrimRelock | PrimAccess
  | SubWait | SubBlocked _ | SubRelock | SubAccess => true
  | _ => false
  end.

Definition is_wait (o : op ValueType ErrorType ProgressType) : bool :=
  match o with Wait => true | _ => false end.

(** The calls of [wait] that the thread has not completed: the one it may
    be in, and those it has still to make. *)
Definition waits_ahead (th : Thread) : nat :=
  (if access_ahead (t_pc th) then 1 else 0) + length (filter is_wait (t_todo th)).

(** What a statement may do to the log of a thread: [b] is the thread
    [a] after it, [fresh_calls] the invocations made meanwhile, each with
    the payload that the cell [c] holds, each ending a call of [wait]. *)
Definition log_grows (c : AsyncValueTemplate ValueType ErrorType ProgressType)
    (a b : Thread) (fresh_calls : list (call ValueType ErrorType ProgressType)) : Prop :=
  t_calls b = t_calls a ++ fresh_calls ∧
  length fresh_calls + waits_ahead b ≤ waits_ahead a ∧
  ∀ k, k ∈ fresh_calls → settled_call c = Some k.

(** *** More waiters than a [quint16] counts *)

(** The pool of [start_pool] once [k] later waiters sleep behind the
    first, [n] callers of [wait] have not started, and [subWaiters] holds
    what a [quint16] keeps of [k]. *)
Definition crowded_pool (k n : nat)
    (c : AsyncValueTemplate ValueType ErrorType ProgressType) (x : ValueType) : Config :=
  {| cell := set_waiter (Some {| owner := 0; subWaiters := quint16 (Z.of_nat k) |}) c;
     m_writeLock := None;
     threads := asleep (PrimBlocked 0) :: replicate k (asleep (SubBlocked 0)) ++
                replicate n (spawn [Wait]) ++ [spawn [MoveValue (Some x)]];
     trace := [] |}.



End Pools.

(** The sample pool once the schedule of [pool_blocked_sample_run] has
    run: everybody is served. *)
Definition pool_served : config nat string nat :=
  default pool_blocked
    (run (replicate 6 3 ++ [0; 0; 0] ++ [1; 1; 1] ++ [2; 2; 2] ++ [0; 0]) pool_blocked).

(** ** The demo window

    [MainWindow] owns [m_value], an asynchronous [QString], and three
    buttons that the slot [OnAsyncValueChanged] enables and disables.  The
    signal [stateChanged] is connected to the slot in the constructor;
    emitted by the window's own thread, it runs the slot at once. *)

Section Demo.

Context {ErrorType ProgressType : Type}.

(** The error type is built from a string literal by [make_unique]. *)
Variable makeError : string → ErrorType.

#[local] Abbreviation Cell := (AsyncValueTemplate string ErrorType ProgressType).

(** Which of the buttons are enabled. *)
Record Buttons : Set := {
  errorBttn : bool;
  valueBttn : bool;
  stopBttn : bool
}.

Record MainWindow : Type := {
  m_value : Cell;
  ui : Buttons
}.

(** [void MainWindow::OnAsyncValueChanged(ASYNC_VALUE_STATE state)]. *)
Definition OnAsyncValueChanged (state : ASYNC_VALUE_STATE) (b : Buttons) : Buttons :=
  {| errorBttn := bool_decide (state ≠ PROGRESS);
     valueBttn := bool_decide (state ≠ PROGRESS);
     stopBttn := bool_decide (state = PROGRESS) |}.

(** The connection of line 24: every [stateChanged] runs the slot. *)
Definition deliver (es : list event) (b : Buttons) : Buttons :=
  foldl (λ b e, match e with
                | StateChanged state => OnAsyncValueChanged state b
                | AssertFailed _ => b
                end) b es.

(** [void MainWindow::on_errorBttn_clicked()]. *)
Definition on_errorBttn_clicked (w : MainWindow) : MainWindow :=
  let '(c, es) := emplaceError (makeError "Error happened!") (m_value w) in
  {| m_value := c; ui := deliver es (ui w) |}.

(** [void MainWindow::on_valueBttn_clicked()]. *)
Definition on_valueBttn_clicked (w : MainWindow) : MainWindow :=
  let '(c, es) := emplaceValue "A new value assigned!" (m_value w) in
  {| m_value := c; ui := deliver es (ui w) |}.

(** [void MainWindow::on_stopBttn_clicked()]; [requestStop] belongs to
    the progress type. *)
Definition on_stopBttn_clicked (requestStop : ProgressType → ProgressType)
    (w : MainWindow) : option MainWindow :=
  '(_, (c, _)) ← accessProgress (λ progress (s : unit), (requestStop progress, s))
                   (m_value w) tt;
  Some {| m_value := c; ui := ui w |}.

(** The buttons are as the slot leaves them for the state of the cell. *)
Definition buttons_agree (b : Buttons) (c : Cell) : Prop :=
  b = OnAsyncValueChanged (m_state c) b.

(** [MainWindow::MainWindow]: [m_value] is built by the value constructor;
    the buttons are as [setupUi] makes them. *)
Definition MainWindow_new (setupUi : Buttons) : MainWindow :=
  {| m_value := initByValue "Hello World!"; ui := setupUi |}.

(** What the callable of [on_startBttn_clicked] does, in order: its calls
    on the progress object, with the answer of [isStopRequested], and its
    sleeps.  [SetProgress i] stands for [setProgress((float)i/5.f)], and
    [SetProgress 5] for [setProgress(1.f)]. *)
Inductive worker_call : Set :=
| SetProgress (fifths : nat)
| IsStopRequested (answer : bool)
| SetMessage (message : string)
| SleepFor1s.

(** The [for] loop of lines 55-65 over the list [rounds]; [stop i] is the
    answer of [progress.isStopRequested()] in the round of [i].  [Some]:
    the callable returned from inside the loop. *)
Fixpoint obtain_loop (stop : nat → bool) (rounds : list nat) (value' : Cell)
  : list worker_call * option (Cell * list event) :=
  match rounds with
  | [] => ([], None)
  | i :: rounds =>
      if stop i then
        ([SetProgress i; IsStopRequested true],
         Some (emplaceError (makeError "Stopped") value'))
      else
        let '(calls, r) := obtain_loop stop rounds value' in
        (SetProgress i :: IsStopRequested false :: SleepFor1s :: calls, r)
  end.

(** The callable of lines 52-73. *)
Definition obtain (stop : nat → bool) (value' : Cell)
  : list worker_call * (Cell * list event) :=
  match obtain_loop stop [0; 1; 2; 3; 4] value' with
  | (calls, Some r) => (calls, r)
  | (calls, None) =>
      (calls ++ [SetProgress 5; SetMessage "Processing..."; SleepFor1s],
       emplaceValue "Loaded value is 42" value')
  end.

(** The calls of a round that was not stopped. *)
Definition round (i : nat) : list worker_call :=
  [SetProgress i; IsStopRequested false; SleepFor1s].

End Demo.

Arguments MainWindow : clear implicits.

(** The window of the demo with [string] errors and [nat] progress, as
    its constructor leaves it when [setupUi] enables every button. *)
Definition sample_window : MainWindow string nat :=
  MainWindow_new {| errorBttn := true; valueBttn := true; stopBttn := true |}.

(** A stop request that the third poll sees. *)
Definition stop_in_third_round (i : nat) : bool := i =? 2.

(** * Properties *)

Section CellProperties.

Context {ValueType ErrorType ProgressType : Type}.

#[local] Abbreviation Cell := (AsyncValueTemplate ValueType ErrorType ProgressType).

Implicit Types (c : Cell) (h : pointer) (v : ValueType) (e : ErrorType)
  (p : instance ProgressType).

(** *** Record bookkeeping *)

Lemma put_value_same c v : value (m_content c) = Some v → put_value v c = c.
Proof. destruct c as [s [cv ce] pr w]; simpl; intros ->; reflexivity. Qed.

Lemma put_error_same c e : error (m_content c) = Some e → put_error e c = c.
Proof. destruct c as [s [cv ce] pr w]; simpl; intros ->; reflexivity. Qed.

Lemma put_progress_same c p : m_progress c = Some p → put_progress (address p) (object p) c = c.
Proof. destruct c as [s k pr w], p; simpl; intros ->; reflexivity. Qed.

(** *** stopProgress *)

(** When [stopProgress] fails, and that a failure changes nothing. *)
Lemma stopProgress_false_iff h c :
  (stopProgress h c).1.1 = false ↔
  (h ≠ None ∧ h ≠ get (m_progress c)) ∨ m_state c = PROGRESS.
Proof.
  unfold stopProgress.
  destruct (bool_decide (h ≠ None)) eqn:Hn, (bool_decide (h ≠ get (m_progress c))) eqn:Hm;
    simpl; try (apply bool_decide_eq_true in Hn); try (apply bool_decide_eq_true in Hm);
    try (apply bool_decide_eq_false in Hn); try (apply bool_decide_eq_false in Hm);
    destruct (decide (m_state c = PROGRESS)); simpl; intuition congruence.
Qed.

Lemma stopProgress_false_same h c :
  (stopProgress h c).1.1 = false → (stopProgress h c).1.2 = c.
Proof.
  unfold stopProgress.
  destruct (_ && _); [reflexivity|].
  destruct (decide _); [reflexivity|]. simpl. discriminate.
Qed.

(** C1 (as amended).  It is in state Progress, not outside it, that
    [stopProgress] is refused whatever the handle: it returns [false],
    records the failed assertion and leaves every field of the cell as it
    was.  Outside Progress the only refusal is that of a handle which is
    supplied and differs from the retained progress object, and it too
    leaves the cell untouched. *)
Theorem stopProgress_refusal h c :
  (m_state c = PROGRESS →
     ∃ message, stopProgress h c = (false, c, [AssertFailed message])) ∧
  (m_state c ≠ PROGRESS →
     ((stopProgress h c).1.1 = false ↔ h ≠ None ∧ h ≠ get (m_progress c))) ∧
  ((stopProgress h c).1.1 = false → (stopProgress h c).1.2 = c).
Proof.
  split; [|split].
  - intros Hs. unfold stopProgress.
    destruct (_ && _); [eauto|].
    destruct (decide _); [eauto|contradiction].
  - intros Hs. rewrite stopProgress_false_iff. tauto.
  - apply stopProgress_false_same.
Qed.

(** C10.  In a settled state, [stopProgress] without a handle or with the
    handle of the retained progress object returns [true], drops that
    object and nothing else: state tag, content and waiter stay, and no
    event is produced. *)
Theorem stopProgress_settled_releases h c :
  m_state c = VALUE ∨ m_state c = ERROR →
  h = None ∨ h = get (m_progress c) →
  ∃ c', stopProgress h c = (true, c', []) ∧
        m_progress c' = None ∧
        m_state c' = m_state c ∧ m_content c' = m_content c ∧
        m_waiter c' = m_waiter c.
Proof.
  intros Hs Hh. exists (set_progress None c). split; [|done].
  unfold stopProgress.
  replace (bool_decide (h ≠ None) && bool_decide (h ≠ get (m_progress c))) with false.
  - destruct (decide _) as [Hp|]; [|reflexivity].
    destruct Hs as [Hs|Hs]; rewrite Hs in Hp; discriminate.
  - symmetry. apply andb_false_iff.
    destruct Hh as [->| ->]; [left|right]; apply bool_decide_eq_false; tauto.
Qed.

(** C6.  A cell in Progress that holds [p1] refuses a handle to any other
    object: [false] is returned, the mismatch assertion is recorded, and the
    cell is exactly as before, so it is still in Progress and still holds
    [p1]. *)
Theorem stopProgress_mismatched_handle c p1 (a : nat) :
  m_state c = PROGRESS →
  m_progress c = Some p1 →
  a ≠ address p1 →
  stopProgress (Some a) c =
    (false, c, [AssertFailed "Progress was started with different progress instance"]) ∧
  m_state (stopProgress (Some a) c).1.2 = PROGRESS ∧
  m_progress (stopProgress (Some a) c).1.2 = Some p1.
Proof.
  intros Hs Hp Ha.
  assert (stopProgress (Some a) c =
    (false, c, [AssertFailed "Progress was started with different progress instance"])) as ->.
  { unfold stopProgress. rewrite Hp. simpl.
    case_bool_decide as Hn; [reflexivity|]. congruence. }
  done.
Qed.

(** *** startProgressMove *)

(** C5.  In state Progress [startProgressMove] returns [nullptr], records
    the failed assertion and leaves the cell exactly as it was: no swap of
    the content, state still Progress, the first progress object still
    held.  The object handed in is dropped. *)
Theorem startProgressMove_while_in_progress c (progress : option (instance ProgressType)) :
  m_state c = PROGRESS →
  startProgressMove progress c =
    (None, c, [AssertFailed "Cannot start progress while in progress"]) ∧
  m_state (startProgressMove progress c).1.2 = PROGRESS ∧
  m_progress (startProgressMove progress c).1.2 = m_progress c ∧
  m_content (startProgressMove progress c).1.2 = m_content c.
Proof.
  intros Hs. unfold startProgressMove.
  destruct (decide _); [done|contradiction].
Qed.

(** *** Ownership of the progress object *)

Lemma mutate_well_formed m c : well_formed c → well_formed (mutate m c).
Proof.
  intros Hwf. destruct m as [v|e|p|h]; simpl.
  - split; [by eexists|done].
  - split; [by eexists|done].
  - unfold startProgressMove. destruct (decide _); simpl; [done|].
    split; [by eexists|done].
  - unfold stopProgress. destruct (_ && _); [done|].
    destruct (decide _) as [|Hs]; [done|]. simpl.
    unfold well_formed in *. simpl. destruct (m_state c); done.
Qed.

Lemma reachable_well_formed c : reachable c → well_formed c.
Proof.
  induction 1 as [v|e|m c _ IH].
  - split; [by eexists|done].
  - split; [by eexists|done].
  - by apply mutate_well_formed.
Qed.

(** C2 (as amended).  Through every operation a cell in state Progress
    holds a progress object.  [emplaceValue] and [emplaceError] leave the
    state settled and keep whatever progress object the cell held, so a
    settled cell may still own one; a [stopProgress] that succeeds is what
    releases it, and a [startProgressMove] that succeeds replaces it by the
    new object.  There is one slot, hence never more than one object. *)
Theorem progress_ownership c m :
  reachable c →
  (m_state c = PROGRESS → is_Some (m_progress c)) ∧
  (m_state (mutate m c) = PROGRESS → is_Some (m_progress (mutate m c))) ∧
  match m with
  | SetValue _ | SetError _ =>
      m_state (mutate m c) ≠ PROGRESS ∧ m_progress (mutate m c) = m_progress c
  | StartProgress p =>
      m_state (mutate m c) = PROGRESS ∧
      if decide (m_state c = PROGRESS) then mutate m c = c
      else m_progress (mutate m c) = Some p
  | StopProgressOf h =>
      if (stopProgress h c).1.1
      then m_state (mutate m c) = m_state c ∧ m_state c ≠ PROGRESS ∧
           m_progress (mutate m c) = None
      else mutate m c = c
  end.
Proof.
  intros Hr.
  assert (Hinv : ∀ c', well_formed c' → m_state c' = PROGRESS → is_Some (m_progress c')).
  { intros c' Hwf Hs. unfold well_formed in Hwf. rewrite Hs in Hwf. tauto. }
  split; [|split].
  - apply Hinv, reachable_well_formed, Hr.
  - apply Hinv, mutate_well_formed, reachable_well_formed, Hr.
  - destruct m as [v|e|p|h]; simpl.
    + done.
    + done.
    + unfold startProgressMove. destruct (decide _); done.
    + unfold stopProgress. destruct (_ && _); [done|].
      destruct (decide _); done.
Qed.

(** *** Accessors *)

Section Dispatch.

Context {S : Type} (valuePred : Pred ValueType S) (errorPred : Pred ErrorType S)
  (progressPred : Pred ProgressType S).

Lemma access_on_value c (s : S) v :
  m_state c = VALUE → value (m_content c) = Some v →
  let after := (put_value (valuePred v s).1 c, (valuePred v s).2) in
  access3 valuePred errorPred progressPred c s = Some after ∧
  access2 valuePred errorPred c s = Some (true, after) ∧
  access1 valuePred c s = Some (true, after) ∧
  accessError errorPred c s = Some (false, (c, s)) ∧
  accessProgress progressPred c s = Some (false, (c, s)).
Proof.
  unfold access3, access2, access1, accessError, accessProgress, call_value.
  intros Hs Hp; rewrite Hs, Hp; simpl. destruct (valuePred v s). repeat split.
Qed.

Lemma access_on_error c (s : S) e :
  m_state c = ERROR → error (m_content c) = Some e →
  let after := (put_error (errorPred e s).1 c, (errorPred e s).2) in
  access3 valuePred errorPred progressPred c s = Some after ∧
  access2 valuePred errorPred c s = Some (true, after) ∧
  access1 valuePred c s = Some (false, (c, s)) ∧
  accessError errorPred c s = Some (true, after) ∧
  accessProgress progressPred c s = Some (false, (c, s)).
Proof.
  unfold access3, access2, access1, accessError, accessProgress, call_error.
  intros Hs Hp; rewrite Hs, Hp; simpl. destruct (errorPred e s). repeat split.
Qed.

Lemma access_on_progress c (s : S) p :
  m_state c = PROGRESS → m_progress c = Some p →
  let after := (put_progress (address p) (progressPred (object p) s).1 c,
                (progressPred (object p) s).2) in
  access3 valuePred errorPred progressPred c s = Some after ∧
  access2 valuePred errorPred c s = Some (false, (c, s)) ∧
  access1 valuePred c s = Some (false, (c, s)) ∧
  accessError errorPred c s = Some (false, (c, s)) ∧
  accessProgress progressPred c s = Some (true, after).
Proof.
  unfold access3, access2, access1, accessError, accessProgress, call_progress.
  intros Hs Hp; rewrite Hs, Hp; simpl. destruct (progressPred (object p) s).
  repeat split.
Qed.

(** C7.  [access] with three callables runs the one callable of the
    current tag on the current payload: the result is that callable's own
    result, whatever the other two are.  The overloads with fewer callables
    run theirs under the same rule and return [true] when the tag is one of
    theirs; otherwise they return [false] and run nothing, leaving the cell
    and the caller's state as they were. *)
Theorem access_dispatch c (s : S) v e p :
  (m_state c = VALUE → value (m_content c) = Some v →
     let after := (put_value (valuePred v s).1 c, (valuePred v s).2) in
     access3 valuePred errorPred progressPred c s = Some after ∧
     access2 valuePred errorPred c s = Some (true, after) ∧
     access1 valuePred c s = Some (true, after) ∧
     accessError errorPred c s = Some (false, (c, s)) ∧
     accessProgress progressPred c s = Some (false, (c, s))) ∧
  (m_state c = ERROR → error (m_content c) = Some e →
     let after := (put_error (errorPred e s).1 c, (errorPred e s).2) in
     access3 valuePred errorPred progressPred c s = Some after ∧
     access2 valuePred errorPred c s = Some (true, after) ∧
     access1 valuePred c s = Some (false, (c, s)) ∧
     accessError errorPred c s = Some (true, after) ∧
     accessProgress progressPred c s = Some (false, (c, s))) ∧
  (m_state c = PROGRESS → m_progress c = Some p →
     let after := (put_progress (address p) (progressPred (object p) s).1 c,
                   (progressPred (object p) s).2) in
     access3 valuePred errorPred progressPred c s = Some after ∧
     access2 valuePred errorPred c s = Some (false, (c, s)) ∧
     access1 valuePred c s = Some (false, (c, s)) ∧
     accessError errorPred c s = Some (false, (c, s)) ∧
     accessProgress progressPred c s = Some (true, after)).
Proof.
  split; [|split].
  - apply access_on_value.
  - apply access_on_error.
  - apply access_on_progress.
Qed.

End Dispatch.

(** With the recording callables: one access, one recorded invocation,
    that of the current tag, and the cell as before. *)
Lemma access3_records_one c (log : list (call ValueType ErrorType ProgressType)) :
  well_formed c →
  ∃ k, access3 logValue logError logProgress c log = Some (c, log ++ [k]) ∧
       match m_state c with
       | VALUE => CallValue <$> value (m_content c)
       | ERROR => CallError <$> error (m_content c)
       | PROGRESS => CallProgress ∘ object <$> m_progress c
       end = Some k.
Proof.
  unfold well_formed, access3, call_value, call_error, call_progress.
  destruct (m_state c); intros [[x Hx] _]; rewrite Hx; simpl.
  - rewrite put_value_same by done. eauto.
  - rewrite put_error_same by done. eauto.
  - rewrite put_progress_same by done. eauto.
Qed.

(** On a reachable cell the dereference in an accessor is never null. *)
Lemma reachable_access_defined {S : Type} (valuePred : Pred ValueType S)
    (errorPred : Pred ErrorType S) (progressPred : Pred ProgressType S) c (s : S) :
  reachable c → is_Some (access3 valuePred errorPred progressPred c s).
Proof.
  intros Hwf%reachable_well_formed. revert Hwf.
  unfold well_formed, access3, call_value, call_error, call_progress.
  destruct (m_state c); intros [[x Hx] _]; rewrite Hx; simpl.
  - by destruct (valuePred x s).
  - by destruct (errorPred x s).
  - by destruct (progressPred (object x) s).
Qed.

End CellProperties.

Section ThreadProperties.

Context {ValueType ErrorType ProgressType : Type}.

#[local] Abbreviation Cell := (AsyncValueTemplate ValueType ErrorType ProgressType).
#[local] Abbreviation Thread := (thread ValueType ErrorType ProgressType).
#[local] Abbreviation Config := (config ValueType ErrorType ProgressType).
#[local] Abbreviation Call := (call ValueType ErrorType ProgressType).

Implicit Types (c : Cell) (σ : Config) (th : Thread) (t i : nat) (k : Call).

(** *** Record bookkeeping *)

Lemma set_cell_same σ : set_cell (cell σ) σ = σ.
Proof. by destruct σ. Qed.

Lemma set_thread_twice t th th' σ :
  set_thread t th' (set_thread t th σ) = set_thread t th' σ.
Proof. unfold set_thread, set_threads. simpl. by rewrite list_insert_insert_eq. Qed.

Lemma set_thread_lookup t th th0 σ :
  threads σ !! t = Some th0 → threads (set_thread t th σ) !! t = Some th.
Proof. intros H%lookup_lt_Some. simpl. by apply list_lookup_insert_eq. Qed.

Lemma step_lookup t σ th : threads σ !! t = Some th → step t σ = statement t th σ.
Proof. unfold step. by intros ->. Qed.

Lemma run_app (l1 l2 : list nat) σ : run (l1 ++ l2) σ = run l1 σ ≫= run l2.
Proof.
  revert σ. induction l1 as [|a l1 IH]; intros σ; simpl; [done|].
  destruct (step a σ); simpl; [apply IH|done].
Qed.

(** *** The fast path of wait *)

Lemma settled_call_access2 c k (log : list Call) :
  settled_call c = Some k →
  access2 logValue logError c log = Some (true, (c, log ++ [k])).
Proof.
  unfold settled_call, access2, call_value, call_error.
  destruct (m_state c); [| |discriminate].
  - destruct (value (m_content c)) as [v|] eqn:Hv; [|discriminate].
    intros [= <-]. simpl. by rewrite put_value_same.
  - destruct (error (m_content c)) as [e|] eqn:He; [|discriminate].
    intros [= <-]. simpl. by rewrite put_error_same.
Qed.

Lemma wait_access_settled th σ k :
  settled_call (cell σ) = Some k →
  wait_access th σ = Some (true, set_calls (t_calls th ++ [k]) th, σ).
Proof.
  intros Hk. unfold wait_access. rewrite (settled_call_access2 _ k) by done.
  simpl. by rewrite set_cell_same.
Qed.

(** One call of [wait] on a settled cell: the call is entered, the first
    [access] matches and [wait] returns. *)
Lemma wait_settled_once σ t th k rest :
  threads σ !! t = Some th →
  t_pc th = Idle → t_todo th = Wait :: rest →
  settled_call (cell σ) = Some k →
  run [t; t] σ =
    Some (set_thread t (set_todo rest (set_calls (t_calls th ++ [k]) th)) σ).
Proof.
  intros Ht Hpc Htodo Hk. simpl.
  rewrite (step_lookup _ _ th) by done. unfold statement at 1.
  rewrite Hpc, Htodo. simpl.
  erewrite step_lookup by (by eapply set_thread_lookup).
  unfold statement. simpl.
  rewrite (wait_access_settled _ _ k) by done. simpl.
  rewrite set_thread_twice. do 2 f_equal.
  destruct th; simpl in *; by subst.
Qed.

(** C8.  On a settled cell every call of [wait] returns through the first
    [access]: [n] calls in a row by one thread take two statements each
    (entering the call, the access), whoever holds [m_writeLock] and
    whatever is in the waiter slot.  They add [n] invocations of the
    matching callable to the thread's record and change nothing else:
    the mutex, the waiter slot, the cell and the other threads are as
    before. *)
Theorem wait_settled_never_blocks σ t th k (n : nat) rest :
  threads σ !! t = Some th →
  t_pc th = Idle → t_todo th = replicate n Wait ++ rest →
  settled_call (cell σ) = Some k →
  run (replicate (2 * n) t) σ =
    Some (set_thread t (set_todo rest (set_calls (t_calls th ++ replicate n k) th)) σ).
Proof.
  revert σ th. induction n as [|n IH]; intros σ th Ht Hpc Htodo Hk.
  - simpl in *. f_equal. rewrite app_nil_r.
    destruct σ as [c l ths tr], th as [p td cs rs]; simpl in *. subst.
    unfold set_thread, set_threads; simpl. by rewrite list_insert_id.
  - replace (2 * S n) with (2 + 2 * n) by lia.
    change (replicate (2 + 2 * n) t) with ([t; t] ++ replicate (2 * n) t).
    rewrite run_app. simpl in Htodo.
    rewrite (wait_settled_once σ t th k (replicate n Wait ++ rest)) by done.
    simpl.
    rewrite (IH _ (set_todo (replicate n Wait ++ rest) (set_calls (t_calls th ++ [k]) th))).
    + rewrite set_thread_twice. do 2 f_equal.
      unfold set_todo, set_calls. simpl. by rewrite <- app_assoc.
    + by eapply set_thread_lookup.
    + done.
    + done.
    + done.
Qed.

(** *** moveValue and moveError *)

(** C4.  Whatever the cell held, [moveValue] of a payload [v] goes through
    without a failed assertion, its only event being the state change; the
    cell is then in state Value and its content is [v] alone, the previous
    value or error being gone.  Every accessor called on it finds [v]: the
    value callable runs once, on [v]; [accessError] and [accessProgress]
    return [false] and run nothing; [wait] returns through its first
    [access] with the value callable run once on [v].  The same holds for
    [moveError] and the error side. *)
Theorem moveValue_moveError_replace c (v : ValueType) (e : ErrorType) :
  (let c' := (moveValue (Some v) c).1 in
   (moveValue (Some v) c).2 = [StateChanged VALUE] ∧
   m_state c' = VALUE ∧
   m_content c' = {| value := Some v; error := None |} ∧
   (∀ (S : Type) (valuePred : Pred ValueType S) (errorPred : Pred ErrorType S)
      (progressPred : Pred ProgressType S) (s : S),
      let after := (put_value (valuePred v s).1 c', (valuePred v s).2) in
      access3 valuePred errorPred progressPred c' s = Some after ∧
      access2 valuePred errorPred c' s = Some (true, after) ∧
      access1 valuePred c' s = Some (true, after) ∧
      accessError errorPred c' s = Some (false, (c', s)) ∧
      accessProgress progressPred c' s = Some (false, (c', s))) ∧
   (∀ σ t th rest,
      cell σ = c' → threads σ !! t = Some th →
      t_pc th = Idle → t_todo th = Wait :: rest →
      run [t; t] σ =
        Some (set_thread t (set_todo rest (set_calls (t_calls th ++ [CallValue v]) th)) σ)))
  ∧
  (let c' := (moveError (Some e) c).1 in
   (moveError (Some e) c).2 = [StateChanged ERROR] ∧
   m_state c' = ERROR ∧
   m_content c' = {| value := None; error := Some e |} ∧
   (∀ (S : Type) (valuePred : Pred ValueType S) (errorPred : Pred ErrorType S)
      (progressPred : Pred ProgressType S) (s : S),
      let after := (put_error (errorPred e s).1 c', (errorPred e s).2) in
      access3 valuePred errorPred progressPred c' s = Some after ∧
      access2 valuePred errorPred c' s = Some (true, after) ∧
      access1 valuePred c' s = Some (false, (c', s)) ∧
      accessError errorPred c' s = Some (true, after) ∧
      accessProgress progressPred c' s = Some (false, (c', s))) ∧
   (∀ σ t th rest,
      cell σ = c' → threads σ !! t = Some th →
      t_pc th = Idle → t_todo th = Wait :: rest →
      run [t; t] σ =
        Some (set_thread t (set_todo rest (set_calls (t_calls th ++ [CallError e]) th)) σ))).
Proof.
  split.
  - do 3 (split; [reflexivity|]). split.
    + intros S valuePred errorPred progressPred s. by apply access_on_value.
    + intros σ t th rest Hc Ht Hpc Htodo. apply wait_settled_once; [done..|].
      by rewrite Hc.
  - do 3 (split; [reflexivity|]). split.
    + intros S valuePred errorPred progressPred s. by apply access_on_error.
    + intros σ t th rest Hc Ht Hpc Htodo. apply wait_settled_once; [done..|].
      by rewrite Hc.
Qed.

End ThreadProperties.

(** *** Sums over the pool *)

Section Sums.

Context {A : Type} (g : A → nat).

Lemma total_insert (l : list A) (t : nat) (x y : A) :
  l !! t = Some x →
  total g (<[t:=y]> l) + g x = total g l + g y.
Proof.
  revert t. induction l as [|a l IH]; intros [|t] Hx; simplify_eq/=; [lia|].
  specialize (IH _ Hx). lia.
Qed.

Lemma total_fmap_le (f : A → A) (l : list A) :
  (∀ a, g (f a) ≤ g a) → total g (f <$> l) ≤ total g l.
Proof.
  intros Hf. induction l as [|a l IH]; csimpl; [lia|]. specialize (Hf a). lia.
Qed.

Lemma total_fmap_eq (f : A → A) (l : list A) :
  (∀ a, g (f a) = g a) → total g (f <$> l) = total g l.
Proof.
  intros Hf. induction l as [|a l IH]; csimpl; [lia|]. rewrite Hf. lia.
Qed.

Lemma total_insert_fmap_le (f : A → A) (l : list A) (t : nat) (x y : A) :
  l !! t = Some x → (∀ a, g (f a) ≤ g a) →
  total g (<[t:=y]> (f <$> l)) + g x ≤ total g l + g y.
Proof.
  intros Hx Hf. revert t Hx.
  induction l as [|a l IH]; intros [|t] Hx; simplify_eq/=; csimpl.
  - pose proof (total_fmap_le f l Hf). lia.
  - specialize (IH _ Hx). specialize (Hf a). lia.
Qed.

Lemma total_pos (l : list A) :
  0 < total g l → ∃ i a, l !! i = Some a ∧ 0 < g a.
Proof.
  induction l as [|a l IH]; simpl; [lia|]. intros Hpos.
  destruct (decide (0 < g a)) as [Ha|Ha].
  - exists 0, a. done.
  - destruct IH as (i & b & Hi & Hb); [lia|]. exists (S i), b. done.
Qed.

Lemma total_zero (l : list A) :
  (∀ i a, l !! i = Some a → g a = 0) → total g l = 0.
Proof.
  induction l as [|a l IH]; simpl; [done|]. intros Hall.
  rewrite (Hall 0 a) by done. apply IH. intros i b Hi. by apply (Hall (S i)).
Qed.

Lemma total_le_length (l : list A) :
  (∀ a, g a ≤ 1) → total g l ≤ length l.
Proof.
  intros Hg. induction l as [|a l IH]; simpl; [lia|]. specialize (Hg a). lia.
Qed.

End Sums.

(** *** Termination: every statement uses up the measure *)

Section Termination.

Context {ValueType ErrorType ProgressType : Type}.

#[local] Abbreviation Thread := (thread ValueType ErrorType ProgressType).
#[local] Abbreviation Config := (config ValueType ErrorType ProgressType).

Implicit Types (σ : Config) (th : Thread) (t i : nat).

Lemma rank_wake_value w th : rank (wake_value w th) ≤ rank th.
Proof.
  unfold wake_value, rank. destruct th as [[] td cs rs]; simpl; try lia;
    case_decide; simpl; lia.
Qed.

Lemma rank_wake_drained w th : rank (wake_drained w th) ≤ rank th.
Proof.
  unfold wake_drained, rank. destruct th as [[] td cs rs]; simpl; try lia;
    case_decide; simpl; lia.
Qed.

Lemma measure_goto (f : Thread → Thread) t th th' (l : list Thread) :
  l !! t = Some th →
  (∀ a, rank (f a) ≤ rank a) →
  rank th' < rank th →
  total rank (<[t:=th']> (f <$> l)) < total rank l.
Proof.
  intros Ht Hf Hlt.
  pose proof (total_insert_fmap_le rank f l t th th' Ht Hf). lia.
Qed.

Lemma measure_goto_id t th th' (l : list Thread) :
  l !! t = Some th → rank th' < rank th → total rank (<[t:=th']> l) < total rank l.
Proof.
  intros Ht Hlt. rewrite <- (list_fmap_id l) at 1.
  by apply (measure_goto id t th).
Qed.

Lemma wait_access_thread th σ matched th' σ' :
  wait_access th σ = Some (matched, th', σ') →
  t_pc th' = t_pc th ∧ t_todo th' = t_todo th ∧ threads σ' = threads σ ∧
  m_writeLock σ' = m_writeLock σ ∧ trace σ' = trace σ.
Proof.
  unfold wait_access. destruct (access2 _ _ _ _) as [[m [c l]]|]; [|done].
  simpl. by intros [= <- <- <-].
Qed.

Lemma acquire_threads t σ σ' : acquire t σ = Some σ' → threads σ' = threads σ.
Proof. unfold acquire. destruct (m_writeLock σ); [done|]. by intros [= <-]. Qed.

Lemma foldl_emit (es : list event) σ :
  foldl (λ σ e, emit e σ) σ es =
  {| cell := cell σ; m_writeLock := m_writeLock σ;
     threads := threads σ; trace := trace σ ++ es |}.
Proof.
  revert σ. induction es as [|e es IH]; intros σ; simpl.
  - rewrite app_nil_r. by destruct σ.
  - rewrite IH. simpl. by rewrite <- app_assoc.
Qed.

Lemma foldl_emit_threads (es : list event) σ :
  threads (foldl (λ σ e, emit e σ) σ es) = threads σ.
Proof. revert σ. induction es as [|e es IH]; intros σ; simpl; [done|]. by rewrite IH. Qed.

(** Every statement lowers the measure, so no schedule runs for ever. *)
Lemma measure_step t σ σ' : step t σ = Some σ' → measure σ' < measure σ.
Proof.
  unfold step, measure. destruct (threads σ !! t) as [th|] eqn:Ht; [|done]. simpl.
  unfold statement.
  destruct (t_pc th) eqn:Hpc; simpl; intros Hstep;
    repeat match type of Hstep with
    | context [match ?x with _ => _ end] => destruct x eqn:?; simpl in Hstep
    | context [wait_access ?a ?b] =>
        let H := fresh "Hacc" in
        destruct (wait_access a b) as [[[??]?]|] eqn:H; simpl in Hstep;
        [apply wait_access_thread in H as (?&?&?&?&?)|]
    | context [acquire ?a ?b] =>
        let H := fresh "Hacq" in
        destruct (acquire a b) eqn:H; simpl in Hstep;
        [apply acquire_threads in H|]
    | context [m_waiter ?c ≫= _] => destruct (m_waiter c); simpl in Hstep
    end;
    simplify_eq; simpl;
    unfold Q_ASSERT; repeat case_match; simpl;
    rewrite ?foldl_emit_threads; simpl;
    try match goal with H : threads _ = threads σ |- _ => rewrite H end;
    first
      [ eapply measure_goto_id; [done|]; unfold rank, todo_rank; simpl;
        rewrite ?Hpc; simpl;
        repeat match goal with H : t_pc _ = _ |- _ => rewrite H end;
        repeat match goal with H : t_todo _ = _ |- _ => rewrite H end;
        simpl; lia
      | eapply measure_goto;
        [done| apply rank_wake_value || apply rank_wake_drained
        | unfold rank; simpl; rewrite ?Hpc; simpl; lia] ].
Qed.

End Termination.

(** *** One setter against a pool of waiters *)

Section WaitProtocol.

Context {ValueType ErrorType ProgressType : Type}.

#[local] Abbreviation Thread := (thread ValueType ErrorType ProgressType).
#[local] Abbreviation Config := (config ValueType ErrorType ProgressType).

Implicit Types (σ : Config) (th : Thread) (t i s : nat) (x : ValueType)
  (l : list Thread) (f : Thread → Thread) (tr : list event).

Lemma keeps_roles_id : keeps_roles (id : Thread → Thread).
Proof. by intros a. Qed.

Lemma keeps_roles_wake_value w : keeps_roles (wake_value w : Thread → Thread).
Proof.
  intros [[] td cs rs]; unfold wake_value; simpl; try done; by case_decide.
Qed.

Lemma keeps_roles_wake_drained w : keeps_roles (wake_drained w : Thread → Thread).
Proof.
  intros [[] td cs rs]; unfold wake_drained; simpl; try done; by case_decide.
Qed.

(** The pool after thread [t] moved to [y] and the sleepers were mapped
    by [f]. *)
Lemma lookup_goto f l t (x0 y a : Thread) i :
  l !! t = Some x0 →
  <[t:=y]> (f <$> l) !! i = Some a ↔
  (i = t ∧ a = y) ∨ (i ≠ t ∧ ∃ a0, l !! i = Some a0 ∧ a = f a0).
Proof.
  intros Ht. destruct (decide (i = t)) as [->|Hne].
  - rewrite list_lookup_insert_eq
      by (rewrite length_fmap; by eapply lookup_lt_Some).
    split; [intros [= <-]; by left|]. intros [[_ ->]|[? _]]; done.
  - rewrite list_lookup_insert_ne, list_lookup_fmap by done.
    split.
    + destruct (l !! i) as [a0|]; simpl; [|done]. intros [= <-]. right. eauto.
    + intros [[? _]|[_ (a0 & -> & ->)]]; done.
Qed.

Lemma lookup_goto_id l t (x0 y a : Thread) i :
  l !! t = Some x0 →
  <[t:=y]> l !! i = Some a ↔ (i = t ∧ a = y) ∨ (i ≠ t ∧ l !! i = Some a).
Proof.
  intros Ht. rewrite <- (list_fmap_id l) at 1.
  rewrite (lookup_goto id l t x0 y a i Ht). split.
  - intros [?|[? (a0 & ? & ->)]]; [by left|by right].
  - intros [?|[? ?]]; [by left|right; eauto].
Qed.

Lemma sub_count_goto f l t (x0 y : Thread) :
  l !! t = Some x0 → keeps_roles f →
  sub_count (<[t:=y]> (f <$> l)) + (if is_sub (t_pc x0) then 1 else 0) =
  sub_count l + (if is_sub (t_pc y) then 1 else 0).
Proof.
  intros Ht Hf. unfold sub_count.
  pose proof (total_insert (λ th, if is_sub (t_pc th) then 1 else 0)
                (f <$> l) t (f x0) y) as Hi.
  rewrite list_lookup_fmap, Ht in Hi. specialize (Hi eq_refl). simpl in Hi.
  rewrite (total_fmap_eq _ f l) in Hi
    by (intros a; by destruct (Hf a) as (_ & _ & ->)).
  destruct (Hf x0) as (_ & _ & Hx). rewrite Hx in Hi. done.
Qed.

Lemma sub_count_zero l :
  sub_count l = 0 ↔ ∀ i th, l !! i = Some th → is_sub (t_pc th) = false.
Proof.
  unfold sub_count. split.
  - intros Hz i th Hi. destruct (is_sub (t_pc th)) eqn:Hsub; [|done].
    exfalso. clear -Hz Hi Hsub. revert i Hi.
    induction l as [|a l IH]; intros [|i] Hi; simplify_eq/=.
    + rewrite Hsub in Hz. lia.
    + apply (IH ltac:(lia) i Hi).
  - intros Hall. apply total_zero. intros i a Hi. by rewrite (Hall i a Hi).
Qed.

Lemma sub_count_pos l :
  0 < sub_count l → ∃ i th, l !! i = Some th ∧ is_sub (t_pc th) = true.
Proof.
  intros (i & th & Hi & Hpos)%total_pos. exists i, th. split; [done|].
  destruct (is_sub (t_pc th)); [done|lia].
Qed.

Lemma sub_count_lt_length l s th :
  l !! s = Some th → is_sub (t_pc th) = false → sub_count l < length l.
Proof.
  intros Hs Hth.
  pose proof (sub_count_goto id l s th (set_pc SubAtExit th) Hs keeps_roles_id) as Hc.
  rewrite list_fmap_id, Hth in Hc. simpl in Hc.
  assert (sub_count (<[s:=set_pc SubAtExit th]> l) ≤ length l).
  { rewrite <- (length_insert l s (set_pc SubAtExit th)).
    apply total_le_length. intros a. simpl. destruct (is_sub (t_pc a)); lia. }
  lia.
Qed.

(** Two threads that are not counted: the setter and the first waiter. *)
Lemma sub_count_two l s o (a b : Thread) :
  l !! s = Some a → l !! o = Some b → s ≠ o →
  is_sub (t_pc a) = false → is_sub (t_pc b) = false →
  sub_count l + 2 ≤ length l.
Proof.
  intros Hs Ho Hne Ha Hb.
  pose proof (sub_count_goto id l s a (set_pc SubAtExit a) Hs keeps_roles_id) as Hc.
  rewrite list_fmap_id, Ha in Hc. simpl in Hc.
  assert (sub_count (<[s:=set_pc SubAtExit a]> l) < length (<[s:=set_pc SubAtExit a]> l))
    as Hlt.
  { apply (sub_count_lt_length _ o b); [|done]. by rewrite list_lookup_insert_ne. }
  rewrite length_insert in Hlt. lia.
Qed.

Lemma prim_not_sub (p : pc ValueType ErrorType ProgressType) :
  is_prim p = true → is_sub p = false.
Proof. by destruct p. Qed.

(** The mutex field of the invariant across a statement of thread [t]. *)
Lemma lock_goto f l t (x0 y : Thread) (lk lk' : option nat) :
  (∀ j, lk = Some j ↔ ∃ a, l !! j = Some a ∧ holds_lock (t_pc a) = true) →
  l !! t = Some x0 → keeps_roles f →
  (holds_lock (t_pc x0) = false → holds_lock (t_pc y) = true → lk = None) →
  lk' = (if holds_lock (t_pc y) then Some t
         else if holds_lock (t_pc x0) then None else lk) →
  ∀ j, lk' = Some j ↔
       ∃ a, <[t:=y]> (f <$> l) !! j = Some a ∧ holds_lock (t_pc a) = true.
Proof.
  intros Hlock Ht Hf Hfree -> j.
  assert (Hmine : holds_lock (t_pc x0) = true → lk = Some t).
  { intros Hx. apply Hlock. eauto. }
  split.
  - intros Hj. destruct (holds_lock (t_pc y)) eqn:Hy.
    + injection Hj as <-. exists y. split; [|done].
      apply (lookup_goto f l t x0); [done|]. by left.
    + destruct (holds_lock (t_pc x0)) eqn:Hx; [done|].
      apply Hlock in Hj as (a & Ha & Hhold).
      assert (j ≠ t) by (intros ->; congruence).
      exists (f a). split.
      * apply (lookup_goto f l t x0); [done|]. right. eauto.
      * by destruct (Hf a) as (-> & _).
  - intros (a & Ha & Hhold).
    apply (lookup_goto f l t x0 y a j Ht) in Ha as [[-> ->]|[Hne (a0 & Ha0 & ->)]].
    + by rewrite Hhold.
    + destruct (Hf a0) as (Hr & _). rewrite Hr in Hhold.
      assert (lk = Some j) as Hj by (apply Hlock; eauto).
      destruct (holds_lock (t_pc y)) eqn:Hy.
      * destruct (holds_lock (t_pc x0)) eqn:Hx.
        -- rewrite Hmine in Hj by done. congruence.
        -- rewrite Hfree in Hj by done. done.
      * destruct (holds_lock (t_pc x0)) eqn:Hx; [|done].
        rewrite Hmine in Hj by done. congruence.
Qed.

(** The setter is never asleep and never registered. *)
Lemma setter_roles x tr st trc (ths : Thread) :
  setter_ok x tr st trc ths →
  is_prim (t_pc ths) = false ∧ is_sub (t_pc ths) = false ∧
  (∀ w, wake_value w ths = ths) ∧ (∀ w, wake_drained w ths = ths).
Proof.
  intros [_ Hpc]. unfold wake_value, wake_drained.
  destruct (t_pc ths); done.
Qed.

Lemma setter_pending_in_progress x tr trc (ths : Thread) :
  setter_ok x tr PROGRESS trc ths → wake_pending ths = true.
Proof.
  intros [_ Hpc]. unfold wake_pending.
  destruct (t_pc ths); try done; try (by destruct Hpc as (_ & [=] & _)).
  by destruct Hpc as [(-> & _)|(_ & [=] & _)].
Qed.

(** Assembling the invariant after thread [t] moved from [th] to [thn]
    while the sleepers were mapped by [f]. *)
Lemma inv_goto s x tr σ σ' t th thn f ths :
  wait_invariant s x tr σ →
  threads σ !! t = Some th →
  threads σ !! s = Some ths →
  keeps_roles f → f ths = ths →
  threads σ' = <[t:=thn]> (f <$> threads σ) →
  m_writeLock σ' = (if holds_lock (t_pc thn) then Some t
                    else if holds_lock (t_pc th) then None else m_writeLock σ) →
  (holds_lock (t_pc th) = false → holds_lock (t_pc thn) = true →
   m_writeLock σ = None) →
  (m_state (cell σ') = PROGRESS ∨
   (m_state (cell σ') = VALUE ∧ value (m_content (cell σ')) = Some x)) →
  match m_waiter (cell σ') with
  | None => ∀ i th, threads σ' !! i = Some th →
              is_prim (t_pc th) = false ∧ is_sub (t_pc th) = false
  | Some w => subWaiters w = Z.of_nat (sub_count (threads σ')) ∧
              ∃ th, threads σ' !! owner w = Some th ∧ is_prim (t_pc th) = true
  end →
  setter_ok x tr (m_state (cell σ')) (trace σ') (if decide (t = s) then thn else ths) →
  (t ≠ s →
   waiter_ok x (cell σ') (wake_pending (if decide (t = s) then thn else ths)) t thn) →
  (∀ i thi, threads σ !! i = Some thi → i ≠ s → i ≠ t →
     waiter_ok x (cell σ) (wake_pending ths) i thi →
     waiter_ok x (cell σ') (wake_pending (if decide (t = s) then thn else ths)) i (f thi)) →
  wait_invariant s x tr σ'.
Proof.
  intros [Hb Hlock Hcell Hwaiter (ths0 & Hs0 & Hsok0 & Hw)] Ht Hs Hf Hfs Hthreads
    Hlk Hfree Hcell' Hwaiter' Hsok' Hnew Hothers.
  assert (ths0 = ths) as -> by congruence.
  constructor.
  - by rewrite Hthreads, length_insert, length_fmap.
  - rewrite Hthreads. by eapply lock_goto.
  - done.
  - done.
  - exists (if decide (t = s) then thn else ths). split; [|split; [done|]].
    + rewrite Hthreads. apply (lookup_goto f _ t th); [done|].
      case_decide as Hts; [left; by subst|right]. split; [done|].
      exists ths. by rewrite Hfs.
    + intros i thi Hi Hne. rewrite Hthreads in Hi.
      apply (lookup_goto f _ t th _ _ _ Ht) in Hi as [[-> ->]|[Hne' (a0 & Ha0 & ->)]].
      * by apply Hnew.
      * apply Hothers; [done..|]. by apply Hw.
Qed.

(** The waiter field is kept by a statement that changes neither the
    slot nor the role of the thread. *)
Lemma waiter_field_frame σ σ' t th thn f :
  match m_waiter (cell σ) with
  | None => ∀ i th, threads σ !! i = Some th →
              is_prim (t_pc th) = false ∧ is_sub (t_pc th) = false
  | Some w => subWaiters w = Z.of_nat (sub_count (threads σ)) ∧
              ∃ th, threads σ !! owner w = Some th ∧ is_prim (t_pc th) = true
  end →
  threads σ !! t = Some th → keeps_roles f →
  threads σ' = <[t:=thn]> (f <$> threads σ) →
  m_waiter (cell σ') = m_waiter (cell σ) →
  is_prim (t_pc thn) = is_prim (t_pc th) →
  is_sub (t_pc thn) = is_sub (t_pc th) →
  match m_waiter (cell σ') with
  | None => ∀ i th, threads σ' !! i = Some th →
              is_prim (t_pc th) = false ∧ is_sub (t_pc th) = false
  | Some w => subWaiters w = Z.of_nat (sub_count (threads σ')) ∧
              ∃ th, threads σ' !! owner w = Some th ∧ is_prim (t_pc th) = true
  end.
Proof.
  intros Hwaiter Ht Hf Hthreads Hmw Hprim Hsub. rewrite Hmw, Hthreads.
  destruct (m_waiter (cell σ)) as [w|].
  - destruct Hwaiter as [Hcount (tho & Ho & Hop)]. split.
    + pose proof (sub_count_goto f _ t th thn Ht Hf) as Hc.
      rewrite Hsub in Hc. rewrite Hcount. f_equal.
      destruct (is_sub (t_pc th)); lia.
    + destruct (decide (owner w = t)) as [Heq|Hne].
      * exists thn. split.
        -- apply (lookup_goto f _ t th); [done|]. by left.
        -- rewrite Hprim. congruence.
      * exists (f tho). split.
        -- apply (lookup_goto f _ t th); [done|]. right. eauto.
        -- by destruct (Hf tho) as (_ & -> & _).
  - intros i thi Hi.
    apply (lookup_goto f _ t th _ _ _ Ht) in Hi as [[-> ->]|[Hne' (a0 & Ha0 & ->)]].
    + rewrite Hprim, Hsub. by eapply Hwaiter.
    + destruct (Hf a0) as (_ & -> & ->). by eapply Hwaiter.
Qed.

Lemma set_calls_same th : set_calls (t_calls th) th = th.
Proof. by destruct th. Qed.

Lemma wait_access_progress th σ :
  m_state (cell σ) = PROGRESS → wait_access th σ = Some (false, th, σ).
Proof.
  intros Hs. unfold wait_access, access2. rewrite Hs. simpl.
  by rewrite set_calls_same, set_cell_same.
Qed.

Lemma wait_access_value th σ x :
  m_state (cell σ) = VALUE → value (m_content (cell σ)) = Some x →
  wait_access th σ = Some (true, set_calls (t_calls th ++ [CallValue x]) th, σ).
Proof.
  intros Hs Hv. apply wait_access_settled. unfold settled_call. by rewrite Hs, Hv.
Qed.

(** A thread other than the lock holder is not inside a locked region. *)
Lemma not_holder s x tr σ t i th thi :
  wait_invariant s x tr σ →
  threads σ !! t = Some th → holds_lock (t_pc th) = true →
  threads σ !! i = Some thi → i ≠ t → holds_lock (t_pc thi) = false.
Proof.
  intros [_ Hlock _ _ _] Ht Hth Hi Hne.
  destruct (holds_lock (t_pc thi)) eqn:Hh; [|done].
  assert (m_writeLock σ = Some t) by (apply Hlock; eauto).
  assert (m_writeLock σ = Some i) by (apply Hlock; eauto). congruence.
Qed.

Local Ltac goto_pool :=
  simpl; rewrite ?list_fmap_id; reflexivity.

Local Ltac holds_mutex Hlock E :=
  simpl; rewrite ?E; simpl;
  first [ reflexivity
        | symmetry; apply Hlock; eexists; split; [eassumption|by rewrite E]
        | apply Hlock; eexists; split; [eassumption|by rewrite E] ].

Local Ltac mutex_free E Hfree :=
  simpl; rewrite ?E; simpl; first [done | intros; exact Hfree].

Local Ltac frame_waiter Hinv E f :=
  eapply (waiter_field_frame _ _ _ _ _ f);
    [ exact (inv_waiter _ _ _ _ Hinv) | eassumption
    | first [apply keeps_roles_id | apply keeps_roles_wake_value
            | apply keeps_roles_wake_drained]
    | goto_pool | reflexivity
    | simpl; rewrite ?E; reflexivity | simpl; rewrite ?E; reflexivity ].

(** The invariant is kept by every statement of the setter. *)
Lemma inv_step_setter s x tr σ σ' :
  wait_invariant s x tr σ → step s σ = Some σ' → wait_invariant s x tr σ'.
Proof.
  intros Hinv Hstep.
  pose proof Hinv as [Hb Hlock Hcell Hwaiter (ths & Hs & Hsok & Hw)].
  rewrite (step_lookup _ _ ths Hs) in Hstep.
  pose proof (setter_roles _ _ _ _ _ Hsok) as (Hnp & Hns & Hwv & Hwd).
  destruct Hsok as [Hcalls Hpc]. unfold statement in Hstep.
  destruct (t_pc ths) eqn:Epc; try done.
  - (* entering moveValue *)
    destruct Hpc as [(Htodo & Hst & Htr)|(Htodo & _)];
      rewrite Htodo in Hstep; [|done]. simpl in Hstep. injection Hstep as <-.
    eapply (inv_goto s x tr σ _ s ths _ id ths Hinv Hs Hs keeps_roles_id eq_refl).
    + goto_pool.
    + holds_mutex Hlock Epc.
    + mutex_free Epc I.
    + done.
    + frame_waiter Hinv Epc (id : Thread → Thread).
    + rewrite decide_True by done. done.
    + by intros [].
    + intros i thi Hi Hne _ Hok. rewrite decide_True by done. simpl.
      unfold wake_pending in *. by rewrite Epc, Htodo in Hok.
  - (* QMutexLocker *)
    destruct Hpc as (-> & Htodo & Hst & Htr).
    destruct (m_writeLock σ) eqn:Hfree; unfold acquire in Hstep;
      rewrite Hfree in Hstep; [done|].
    simpl in Hstep. injection Hstep as <-.
    eapply (inv_goto s x tr σ _ s ths _ id ths Hinv Hs Hs keeps_roles_id eq_refl).
    + goto_pool.
    + done.
    + done.
    + done.
    + frame_waiter Hinv Epc (id : Thread → Thread).
    + rewrite decide_True by done. done.
    + by intros [].
    + intros i thi Hi Hne _ Hok. rewrite decide_True by done. simpl.
      unfold wake_pending in *. by rewrite Epc in Hok.
  - (* the assignment under the content lock *)
    destruct Hpc as (-> & Htodo & Hst & Htr).
    simpl in Hstep. injection Hstep as <-.
    eapply (inv_goto s x tr σ _ s ths _ id ths Hinv Hs Hs keeps_roles_id eq_refl).
    + goto_pool.
    + holds_mutex Hlock Epc.
    + mutex_free Epc I.
    + simpl. by right.
    + frame_waiter Hinv Epc (id : Thread → Thread).
    + rewrite decide_True by done. done.
    + by intros [].
    + intros i thi Hi Hne _ Hok. rewrite decide_True by done.
      assert (holds_lock (t_pc thi) = false) as Hnh.
      { eapply (not_holder s x tr σ s i ths thi); try done. by rewrite Epc. }
      unfold wake_pending in *. rewrite Epc in Hok. simpl.
      unfold waiter_ok in *. simpl.
      destruct (t_pc thi); try done; rewrite Hst in Hok;
        intuition discriminate.
  - (* emitStateChanged *)
    destruct Hpc as (Htodo & Hst & Htr).
    simpl in Hstep. injection Hstep as <-.
    eapply (inv_goto s x tr σ _ s ths _ id ths Hinv Hs Hs keeps_roles_id eq_refl).
    + goto_pool.
    + holds_mutex Hlock Epc.
    + mutex_free Epc I.
    + done.
    + frame_waiter Hinv Epc (id : Thread → Thread).
    + rewrite decide_True by done. split; [done|]. simpl.
      unfold emitStateChanged. rewrite Hst, Htr. done.
    + by intros [].
    + intros i thi Hi Hne _ Hok. rewrite decide_True by done. simpl.
      unfold wake_pending in *. by rewrite Epc in Hok.
  - (* wakeAll *)
    destruct Hpc as (Htodo & Hst & Htr).
    destruct (m_waiter (cell σ)) as [w|] eqn:Hmw; simpl in Hstep;
      injection Hstep as <-.
    + eapply (inv_goto s x tr σ _ s ths _ (wake_value (owner w)) ths Hinv Hs Hs
                (keeps_roles_wake_value _) (Hwv _)).
      * reflexivity.
      * holds_mutex Hlock Epc.
      * mutex_free Epc I.
      * done.
      * frame_waiter Hinv Epc (wake_value (owner w) : Thread → Thread).
      * rewrite decide_True by done. done.
      * by intros [].
      * intros i thi Hi Hne _ Hok. rewrite decide_True by done. simpl.
        unfold wake_pending in Hok. rewrite Epc in Hok.
        unfold waiter_ok, wake_value in *. rewrite Hmw in *. simpl in *.
        destruct (t_pc thi) eqn:Ei; try done; rewrite ?Ei; try done.
        -- destruct Hok as (? & ? & _ & -> & [= ->]).
           rewrite decide_True by done. simpl. done.
        -- destruct Hok as (? & ? & _ & [= ->]).
           rewrite decide_True by done. simpl. done.
    + eapply (inv_goto s x tr σ _ s ths _ id ths Hinv Hs Hs keeps_roles_id eq_refl).
      * goto_pool.
      * holds_mutex Hlock Epc.
      * mutex_free Epc I.
      * done.
      * frame_waiter Hinv Epc (id : Thread → Thread).
      * rewrite decide_True by done. done.
      * by intros [].
      * intros i thi Hi Hne _ Hok. rewrite decide_True by done. simpl.
        unfold waiter_ok in *. rewrite Hmw in *. simpl in *.
        destruct (t_pc thi) eqn:Ei; try done.
        -- by destruct Hok as (_ & _ & _ & _ & [=]).
        -- by destruct Hok as (_ & _ & _ & [=]).
  - (* the locker leaves scope *)
    destruct Hpc as (Htodo & Hst & Htr).
    simpl in Hstep. injection Hstep as <-.
    eapply (inv_goto s x tr σ _ s ths _ id ths Hinv Hs Hs keeps_roles_id eq_refl).
    + goto_pool.
    + holds_mutex Hlock Epc.
    + mutex_free Epc I.
    + done.
    + frame_waiter Hinv Epc (id : Thread → Thread).
    + rewrite decide_True by done. split; [done|]. simpl. right. done.
    + by intros [].
    + intros i thi Hi Hne _ Hok. rewrite decide_True by done.
      unfold wake_pending in *. rewrite Epc in Hok. simpl. by rewrite Htodo.
Qed.

(** A registered first waiter is the owner of the [Waiter] in the slot. *)
Lemma prim_owner x c pending i th :
  waiter_ok x c pending i th → is_prim (t_pc th) = true →
  owner <$> m_waiter c = Some i.
Proof.
  unfold waiter_ok. destruct (t_pc th); try done.
  - by intros (_ & _ & _ & ?).
  - by intros (_ & _ & _ & _ & ?).
  - by intros (_ & _ & _ & ?).
  - by intros (_ & _ & _ & ?).
  - by intros (_ & _ & _ & ?).
  - intros (_ & _ & _ & _ & wt & -> & <- & _) _. done.
  - intros (_ & _ & _ & ->) _. done.
  - intros (_ & _ & _ & ->) _. done.
Qed.

Lemma quint16_small (z : Z) : (0 ≤ z < 65536)%Z → quint16 z = z.
Proof. intros Hz. unfold quint16. by apply Z.mod_small. Qed.

(** A statement of a waiter that touches neither the cell nor the
    sleepers: only the clause of the thread itself is left to check. *)
Local Ltac local_step Hinv Hlock Hcell Hsok Ht Hs E Hfree :=
  eapply (inv_goto _ _ _ _ _ _ _ _ id _ Hinv Ht Hs keeps_roles_id eq_refl);
    [ goto_pool
    | holds_mutex Hlock E
    | mutex_free E Hfree
    | simpl; exact Hcell
    | frame_waiter Hinv E (id : Thread → Thread)
    | rewrite decide_False by done; simpl; exact Hsok
    | intros _; rewrite decide_False by done; unfold waiter_ok; simpl
    | let Hok' := fresh "Hok'" in
      intros ? ? ? ? ? Hok'; rewrite decide_False by done; exact Hok' ].

(** The invariant is kept by every statement of a waiter. *)
Lemma inv_step_waiter s x tr σ σ' t :
  t ≠ s → wait_invariant s x tr σ → step t σ = Some σ' → wait_invariant s x tr σ'.
Proof.
  intros Hts Hinv Hstep.
  pose proof Hinv as [Hb Hlock Hcell Hwaiter (ths & Hs & Hsok & Hw)].
  destruct (threads σ !! t) as [th|] eqn:Ht;
    [|by unfold step in Hstep; rewrite Ht in Hstep].
  rewrite (step_lookup _ _ th Ht) in Hstep.
  pose proof (Hw t th Ht Hts) as Hok. unfold waiter_ok in Hok.
  unfold statement in Hstep.
  destruct (t_pc th) eqn:Epc; try done.
  - (* entering wait *)
    destruct Hok as [(Htodo & Hcalls)|(Htodo & _)];
      rewrite Htodo in Hstep; [|done]. simpl in Hstep. injection Hstep as <-.
    local_step Hinv Hlock Hcell Hsok Ht Hs Epc I. done.
  - (* the first access *)
    destruct Hok as (Htodo & Hcalls). destruct Hcell as [Hst|(Hst & Hv)].
    + rewrite wait_access_progress in Hstep by done. simpl in Hstep.
      injection Hstep as <-.
      local_step Hinv Hlock (inv_cell _ _ _ _ Hinv) Hsok Ht Hs Epc I. done.
    + rewrite (wait_access_value _ _ x) in Hstep by done. simpl in Hstep.
      injection Hstep as <-.
      local_step Hinv Hlock (inv_cell _ _ _ _ Hinv) Hsok Ht Hs Epc I.
      right. by rewrite Hcalls.
  - (* QMutexLocker *)
    destruct Hok as (Htodo & Hcalls).
    destruct (m_writeLock σ) eqn:Hfree; unfold acquire in Hstep;
      rewrite Hfree in Hstep; [done|].
    simpl in Hstep. injection Hstep as <-.
    local_step Hinv Hlock Hcell Hsok Ht Hs Epc Hfree. done.
  - (* the second access *)
    destruct Hok as (Htodo & Hcalls). destruct Hcell as [Hst|(Hst & Hv)].
    + rewrite wait_access_progress in Hstep by done. simpl in Hstep.
      injection Hstep as <-.
      local_step Hinv Hlock (inv_cell _ _ _ _ Hinv) Hsok Ht Hs Epc I. done.
    + rewrite (wait_access_value _ _ x) in Hstep by done. simpl in Hstep.
      injection Hstep as <-.
      local_step Hinv Hlock (inv_cell _ _ _ _ Hinv) Hsok Ht Hs Epc I.
      right. by rewrite Hcalls.
  - (* registering *)
    destruct Hok as (Htodo & Hcalls & Hst).
    pose proof (setter_roles _ _ _ _ _ Hsok) as (Hsnp & Hsns & Hwv & Hwd).
    destruct (m_waiter (cell σ)) as [w|] eqn:Hmw; simpl in Hstep;
      injection Hstep as <-.
    + (* as a later waiter *)
      destruct Hwaiter as [Hcount (tho & Ho & Hop)].
      assert (owner w ≠ t) as Hne.
      { intros Heq. rewrite Heq, Ht in Ho. injection Ho as <-.
        by rewrite Epc in Hop. }
      pose proof (sub_count_goto id _ t th (set_pc SubWait th) Ht keeps_roles_id)
        as Hc. rewrite list_fmap_id, Epc in Hc. simpl in Hc.
      assert (s ≠ owner w) as Hso.
      { intros Heq. rewrite <- Heq, Hs in Ho. injection Ho as <-. congruence. }
      assert (sub_count (<[t:=set_pc SubWait th]> (threads σ)) + 2
              ≤ length (<[t:=set_pc SubWait th]> (threads σ))) as Hlt.
      { apply (sub_count_two _ s (owner w) ths tho); [| |done|done|].
        - by rewrite list_lookup_insert_ne.
        - by rewrite list_lookup_insert_ne.
        - by apply prim_not_sub. }
      rewrite length_insert in Hlt.
      eapply (inv_goto _ _ _ _ _ _ _ _ id _ Hinv Ht Hs keeps_roles_id eq_refl).
      * goto_pool.
      * holds_mutex Hlock Epc.
      * mutex_free Epc I.
      * simpl. exact Hcell.
      * simpl. split.
        -- rewrite quint16_small by lia. lia.
        -- exists tho. split; [|done]. by rewrite list_lookup_insert_ne.
      * rewrite decide_False by done. simpl. exact Hsok.
      * intros _. unfold waiter_ok. simpl. done.
      * intros i thi Hi Hnes Hnet Hok'. rewrite decide_False by done.
        unfold waiter_ok in *. rewrite Hmw in Hok'. simpl in *.
        destruct (t_pc thi); try done; rewrite Hst in Hok';
          intuition discriminate.
    + (* as the first waiter *)
      eapply (inv_goto _ _ _ _ _ _ _ _ id _ Hinv Ht Hs keeps_roles_id eq_refl).
      * goto_pool.
      * holds_mutex Hlock Epc.
      * mutex_free Epc I.
      * simpl. exact Hcell.
      * simpl. split.
        -- symmetry. apply (f_equal Z.of_nat (y:=0)). apply sub_count_zero.
           intros i thi Hi.
           apply (lookup_goto_id _ t th _ _ _ Ht) in Hi
             as [[-> ->]|[Hnet Hi]]; [done|].
           by destruct (Hwaiter i thi Hi).
        -- exists (set_pc PrimWait th). split; [|done].
           apply list_lookup_insert_eq. by eapply lookup_lt_Some.
      * rewrite decide_False by done. simpl. exact Hsok.
      * intros _. unfold waiter_ok. simpl. done.
      * intros i thi Hi Hnes Hnet Hok'. rewrite decide_False by done.
        destruct (Hwaiter i thi Hi) as [Hnp Hns].
        unfold waiter_ok in *. rewrite Hmw in Hok'. simpl in *.
        destruct (t_pc thi); try done.
  - (* first waiter: waitValue.wait *)
    destruct Hok as (Htodo & Hcalls & Hst & Hown).
    destruct (m_waiter (cell σ)) as [w|] eqn:Hmw; [|done].
    simpl in Hstep, Hown. injection Hstep as <-. injection Hown as Hown.
    local_step Hinv Hlock Hcell Hsok Ht Hs Epc I.
    rewrite Hmw. simpl. rewrite Hst in Hsok.
    rewrite (setter_pending_in_progress _ _ _ _ Hsok). by rewrite Hown.
  - (* first waiter: the mutex again *)
    destruct Hok as (Htodo & Hcalls & Hst & Hown).
    destruct (m_writeLock σ) eqn:Hfree; unfold acquire in Hstep;
      rewrite Hfree in Hstep; [done|].
    simpl in Hstep. injection Hstep as <-.
    local_step Hinv Hlock Hcell Hsok Ht Hs Epc Hfree. done.
  - (* first waiter: access after the wake-up *)
    destruct Hok as (Htodo & Hcalls & Hst & Hown).
    destruct Hcell as [Hst'|(_ & Hv)]; [congruence|].
    rewrite (wait_access_value _ _ x) in Hstep by done. simpl in Hstep.
    injection Hstep as <-.
    local_step Hinv Hlock (inv_cell _ _ _ _ Hinv) Hsok Ht Hs Epc I.
    by rewrite Hcalls.
  - (* first waiter: the scope guard *)
    destruct Hok as (Htodo & Hcalls & Hst & Hown).
    destruct (m_waiter (cell σ)) as [w|] eqn:Hmw; [|done].
    simpl in Hstep, Hown. injection Hown as Hown.
    destruct (decide (0 < subWaiters w)%Z) as [Hpos|Hzero];
      injection Hstep as <-.
    + local_step Hinv Hlock Hcell Hsok Ht Hs Epc I.
      rewrite Hmw. repeat split; try done. eauto.
    + local_step Hinv Hlock Hcell Hsok Ht Hs Epc I.
      rewrite Hmw. repeat split; try done. f_equal.
      destruct Hwaiter as [Hcount _]. destruct w as [o k]; simpl in *.
      f_equal; [done|lia].
  - (* first waiter: the mutex again, after the drain *)
    destruct Hok as (Htodo & Hcalls & Hst & Hmw).
    destruct (m_writeLock σ) eqn:Hfree; unfold acquire in Hstep;
      rewrite Hfree in Hstep; [done|].
    simpl in Hstep. rewrite Hmw in Hstep. simpl in Hstep.
    injection Hstep as <-.
    local_step Hinv Hlock Hcell Hsok Ht Hs Epc Hfree. done.
  - (* first waiter: unregistering *)
    destruct Hok as (Htodo & Hcalls & Hst & Hmw).
    pose proof (setter_roles _ _ _ _ _ Hsok) as (Hsnp & Hsns & Hwv & Hwd).
    rewrite Hmw in Hwaiter. simpl in Hwaiter. destruct Hwaiter as [Hcount _].
    assert (Hnone : ∀ i thi, threads σ !! i = Some thi → i ≠ t →
              is_prim (t_pc thi) = false ∧ is_sub (t_pc thi) = false).
    { intros i thi Hi Hnet. split.
      - destruct (decide (i = s)) as [->|Hnes]; [congruence|].
        destruct (is_prim (t_pc thi)) eqn:Hp; [|done].
        pose proof (prim_owner _ _ _ _ _ (Hw i thi Hi Hnes) Hp) as Hown.
        rewrite Hmw in Hown. simpl in Hown. congruence.
      - eapply (proj1 (sub_count_zero (threads σ))); [lia|done]. }
    simpl in Hstep. injection Hstep as <-.
    eapply (inv_goto _ _ _ _ _ _ _ _ id _ Hinv Ht Hs keeps_roles_id eq_refl).
    + goto_pool.
    + holds_mutex Hlock Epc.
    + mutex_free Epc I.
    + simpl. exact Hcell.
    + simpl. intros i thi Hi.
      apply (lookup_goto_id _ t th _ _ _ Ht) in Hi as [[-> ->]|[Hnet Hi]]; [done|].
      by apply (Hnone i thi).
    + rewrite decide_False by done. simpl. exact Hsok.
    + intros _. unfold waiter_ok. simpl. by right.
    + intros i thi Hi Hnes Hnet Hok'. rewrite decide_False by done.
      destruct (Hnone i thi Hi Hnet) as [Hnp Hns].
      unfold waiter_ok in *. simpl in *.
      destruct (t_pc thi); try done.
  - (* later waiter: waitValue.wait *)
    destruct Hok as (Htodo & Hcalls & Hst).
    destruct (m_waiter (cell σ)) as [w|] eqn:Hmw.
    2:{ destruct (Hwaiter t th Ht) as [_ Hsub]. by rewrite Epc in Hsub. }
    simpl in Hstep. injection Hstep as <-.
    local_step Hinv Hlock Hcell Hsok Ht Hs Epc I.
    rewrite Hmw. simpl. rewrite Hst in Hsok.
    by rewrite (setter_pending_in_progress _ _ _ _ Hsok).
  - (* later waiter: the mutex again *)
    destruct Hok as (Htodo & Hcalls & Hst).
    destruct (m_writeLock σ) eqn:Hfree; unfold acquire in Hstep;
      rewrite Hfree in Hstep; [done|].
    simpl in Hstep. injection Hstep as <-.
    local_step Hinv Hlock Hcell Hsok Ht Hs Epc Hfree. done.
  - (* later waiter: access after the wake-up *)
    destruct Hok as (Htodo & Hcalls & Hst).
    destruct Hcell as [Hst'|(_ & Hv)]; [congruence|].
    rewrite (wait_access_value _ _ x) in Hstep by done. simpl in Hstep.
    injection Hstep as <-.
    local_step Hinv Hlock (inv_cell _ _ _ _ Hinv) Hsok Ht Hs Epc I.
    by rewrite Hcalls.
  - (* later waiter: the scope guard *)
    destruct Hok as (Htodo & Hcalls & Hst).
    pose proof (setter_roles _ _ _ _ _ Hsok) as (Hsnp & Hsns & Hwv & Hwd).
    destruct (m_waiter (cell σ)) as [w|] eqn:Hmw.
    2:{ destruct (Hwaiter t th Ht) as [_ Hsub]. by rewrite Epc in Hsub. }
    destruct Hwaiter as [Hcount (tho & Ho & Hop)].
    assert (owner w ≠ t) as Hne.
    { intros Heq. rewrite Heq, Ht in Ho. injection Ho as <-.
      by rewrite Epc in Hop. }
    assert (s ≠ owner w) as Hso.
    { intros Heq. rewrite <- Heq, Hs in Ho. injection Ho as <-. congruence. }
    assert (sub_count (threads σ) + 2 ≤ length (threads σ)) as Hlt
      by (apply (sub_count_two _ s (owner w) ths tho); [done..|by apply prim_not_sub]).
    simpl in Hstep.
    destruct (decide (quint16 (subWaiters w - 1) = 0%Z)) as [Hzero|Hmore];
      injection Hstep as <-.
    + (* the last one wakes the first waiter *)
      pose proof (sub_count_goto (wake_drained (owner w)) _ t th (set_pc Idle th) Ht
                    (keeps_roles_wake_drained _)) as Hc.
      rewrite Epc in Hc. simpl in Hc.
      rewrite quint16_small in Hzero by lia.
      eapply (inv_goto _ _ _ _ _ _ _ _ (wake_drained (owner w)) _ Hinv Ht Hs
                (keeps_roles_wake_drained _) (Hwd _)).
      * reflexivity.
      * holds_mutex Hlock Epc.
      * mutex_free Epc I.
      * simpl. exact Hcell.
      * simpl. split.
        -- rewrite quint16_small by lia. lia.
        -- exists (wake_drained (owner w) tho). split.
           ++ apply (lookup_goto _ _ t th _ _ _ Ht). right. eauto.
           ++ by destruct (keeps_roles_wake_drained (owner w) tho) as (_ & -> & _).
      * rewrite decide_False by done. simpl. exact Hsok.
      * intros _. unfold waiter_ok. simpl. by right.
      * intros i thi Hi Hnes Hnet Hok'. rewrite decide_False by done.
        unfold waiter_ok, wake_drained in *. rewrite Hmw in Hok'. simpl in *.
        rewrite quint16_small by lia.
        destruct (t_pc thi) eqn:Ei; rewrite ?Ei; try done.
        -- destruct Hok' as (? & ? & ? & -> & wt & [= <-] & Hown & _).
           rewrite decide_True by done. simpl.
           repeat split; try done. do 2 f_equal; [done|lia].
        -- destruct Hok' as (_ & _ & _ & [= Hw0]). subst w. simpl in *. lia.
        -- destruct Hok' as (_ & _ & _ & [= Hw0]). subst w. simpl in *. lia.
    + (* others are still counted *)
      pose proof (sub_count_goto id _ t th (set_pc Idle th) Ht keeps_roles_id) as Hc.
      rewrite list_fmap_id, Epc in Hc. simpl in Hc.
      rewrite quint16_small in Hmore by lia.
      eapply (inv_goto _ _ _ _ _ _ _ _ id _ Hinv Ht Hs keeps_roles_id eq_refl).
      * goto_pool.
      * holds_mutex Hlock Epc.
      * mutex_free Epc I.
      * simpl. exact Hcell.
      * simpl. split.
        -- rewrite quint16_small by lia. lia.
        -- exists tho. split; [|done]. by rewrite list_lookup_insert_ne.
      * rewrite decide_False by done. simpl. exact Hsok.
      * intros _. unfold waiter_ok. simpl. by right.
      * intros i thi Hi Hnes Hnet Hok'. rewrite decide_False by done.
        unfold waiter_ok in *. rewrite Hmw in Hok'. simpl in *.
        rewrite quint16_small by lia.
        destruct (t_pc thi) eqn:Ei; try done.
        -- destruct Hok' as (? & ? & ? & -> & wt & [= <-] & Hown & _).
           repeat split; try done. eexists. repeat split; [done|]. simpl. lia.
        -- destruct Hok' as (_ & _ & _ & [= Hw0]). subst w. simpl in *. lia.
        -- destruct Hok' as (_ & _ & _ & [= Hw0]). subst w. simpl in *. lia.
Qed.

(** The invariant is kept by every statement. *)
Lemma inv_step s x tr σ σ' :
  wait_invariant s x tr σ → steps_to σ σ' → wait_invariant s x tr σ'.
Proof.
  intros Hinv [t Hstep]. destruct (decide (t = s)) as [->|Hts].
  - by eapply inv_step_setter.
  - by eapply inv_step_waiter.
Qed.

Lemma inv_rtc s x tr σ σ' :
  wait_invariant s x tr σ → rtc steps_to σ σ' → wait_invariant s x tr σ'.
Proof. intros Hinv Hsteps. induction Hsteps; eauto using inv_step. Qed.

(** *** No deadlock *)

Lemma finished_or_not l :
  (∀ i th, l !! i = Some th → finished th = true) ∨
  (∃ i th, l !! i = Some th ∧ finished th = false).
Proof.
  induction l as [|a l [IH|(i & th & Hi & Hth)]].
  - left. intros i th. by rewrite lookup_nil.
  - destruct (finished a) eqn:Ha.
    + left. intros [|i] th Hi; simplify_eq/=; eauto.
    + right. exists 0, a. done.
  - right. exists (S i), th. done.
Qed.

(** The thread inside the locked region can take its next statement. *)
Lemma holder_enabled s x tr σ h :
  wait_invariant s x tr σ → m_writeLock σ = Some h → ∃ σ', step h σ = Some σ'.
Proof.
  intros Hinv Hh.
  pose proof Hinv as [Hb Hlock Hcell Hwaiter (ths & Hs & Hsok & Hw)].
  apply Hlock in Hh as (th & Ht & Hhold).
  rewrite (step_lookup _ _ th Ht). unfold statement.
  destruct (decide (h = s)) as [->|Hne].
  - assert (th = ths) as -> by congruence. destruct Hsok as [_ Hpc].
    destruct (t_pc ths); try done; simpl; eauto.
    destruct (m_waiter (cell σ)); eauto.
  - pose proof (Hw h th Ht Hne) as Hok. unfold waiter_ok in Hok.
    destruct (t_pc th) eqn:Epc; try done; simpl.
    + destruct Hcell as [Hst|(Hst & Hv)].
      * rewrite wait_access_progress by done. simpl. eauto.
      * rewrite (wait_access_value _ _ x) by done. simpl. eauto.
    + destruct (m_waiter (cell σ)); eauto.
    + destruct Hok as (_ & _ & _ & Hown).
      destruct (m_waiter (cell σ)); [simpl; eauto|done].
    + destruct Hok as (_ & _ & Hst & _).
      destruct Hcell as [Hst'|(_ & Hv)]; [congruence|].
      rewrite (wait_access_value _ _ x) by done. simpl. eauto.
    + destruct Hok as (_ & _ & _ & Hown).
      destruct (m_waiter (cell σ)); [simpl|done]. case_decide; eauto.
    + eauto.
    + destruct (m_waiter (cell σ)) eqn:Hmw; [simpl; eauto|].
      destruct (Hwaiter h th Ht) as [_ Hsub]. by rewrite Epc in Hsub.
    + destruct Hok as (_ & _ & Hst).
      destruct Hcell as [Hst'|(_ & Hv)]; [congruence|].
      rewrite (wait_access_value _ _ x) by done. simpl. eauto.
    + destruct (m_waiter (cell σ)) eqn:Hmw; [simpl; eauto|].
      destruct (Hwaiter h th Ht) as [_ Hsub]. by rewrite Epc in Hsub.
Qed.

(** While the mutex is free, a setter that has not woken the sleepers
    can take its next statement. *)
Lemma setter_enabled s x tr σ ths :
  wait_invariant s x tr σ → m_writeLock σ = None →
  threads σ !! s = Some ths → wake_pending ths = true →
  ∃ σ', step s σ = Some σ'.
Proof.
  intros Hinv Hfree Hs Hpending.
  pose proof Hinv as [Hb Hlock Hcell Hwaiter (ths' & Hs' & Hsok & Hw)].
  assert (ths' = ths) as -> by congruence.
  assert (holds_lock (t_pc ths) = false) as Hnh.
  { destruct (holds_lock (t_pc ths)) eqn:Hh; [|done].
    assert (m_writeLock σ = Some s) by (apply Hlock; eauto). congruence. }
  rewrite (step_lookup _ _ ths Hs). unfold statement, wake_pending in *.
  unfold acquire. rewrite Hfree.
  destruct (t_pc ths); try done; simpl; eauto.
  destruct (t_todo ths); [done|eauto].
Qed.

(** A thread that has not returned and is not inside the locked region,
    while the mutex is free: it can move, or it sleeps and somebody who
    will wake it can move. *)
Lemma inv_progress s x tr σ :
  wait_invariant s x tr σ →
  (∀ i th, threads σ !! i = Some th → finished th = true) ∨
  (∃ σ', steps_to σ σ').
Proof.
  intros Hinv.
  destruct (m_writeLock σ) as [h|] eqn:Hlk.
  { right. destruct (holder_enabled s x tr σ h Hinv Hlk) as [σ' Hstep].
    exists σ', h. done. }
  destruct (finished_or_not (threads σ)) as [Hall|(j & th & Hj & Hnf)]; [by left|].
  right.
  pose proof Hinv as [Hb Hlock Hcell Hwaiter (ths & Hs & Hsok & Hw)].
  assert (Hnh : ∀ i thi, threads σ !! i = Some thi → holds_lock (t_pc thi) = false).
  { intros i thi Hi. destruct (holds_lock (t_pc thi)) eqn:Hh; [|done].
    assert (m_writeLock σ = Some i) by (apply Hlock; eauto). congruence. }
  assert (Hsetter : wake_pending ths = true → ∃ σ', steps_to σ σ').
  { intros Hp. destruct (setter_enabled s x tr σ ths Hinv Hlk Hs Hp) as [σ' Hstep].
    exists σ', s. done. }
  assert (Hrelock : ∀ i thi,
            threads σ !! i = Some thi →
            t_pc thi = PrimRelock ∨ t_pc thi = SubRelock ∨ t_pc thi = PrimDrainRelock ∨
            t_pc thi = WaitLock →
            ∃ σ', steps_to σ σ').
  { intros i thi Hi Hpc.
    destruct Hpc as [Hpc | [Hpc | [Hpc | Hpc]]];
      eexists; exists i; rewrite (step_lookup _ _ thi Hi);
      unfold statement, acquire; rewrite Hlk, Hpc; simpl; reflexivity. }
  destruct (decide (j = s)) as [->|Hne].
  - assert (th = ths) as -> by congruence. apply Hsetter.
    pose proof (Hnh s ths Hs) as Hh. destruct Hsok as [_ Hpc].
    unfold wake_pending, finished in *.
    destruct (t_pc ths); try done.
    destruct Hpc as [(-> & _)|(Htodo & _)]; [done|]. by rewrite Htodo in Hnf.
  - pose proof (Hw j th Hj Hne) as Hok. pose proof (Hnh j th Hj) as Hh.
    unfold waiter_ok in Hok. unfold finished in Hnf.
    destruct (t_pc th) eqn:Epc; try done.
    + (* about to call wait *)
      destruct Hok as [(Htodo & _)|(Htodo & _)]; rewrite Htodo in Hnf; [|done].
      eexists. exists j. rewrite (step_lookup _ _ th Hj). unfold statement.
      rewrite Epc, Htodo. reflexivity.
    + (* the first access *)
      destruct Hcell as [Hst|(Hst & Hv)];
        eexists; exists j; rewrite (step_lookup _ _ th Hj); unfold statement;
        rewrite Epc.
      * rewrite wait_access_progress by done. reflexivity.
      * rewrite (wait_access_value _ _ x) by done. reflexivity.
    + by apply (Hrelock j th); eauto.
    + apply Hsetter. by destruct Hok as (_ & _ & ? & _).
    + by apply (Hrelock j th); eauto.
    + (* asleep until the later waiters have left *)
      destruct Hok as (_ & _ & _ & _ & wt & Hmw & _ & Hpos).
      rewrite Hmw in Hwaiter. destruct Hwaiter as [Hcount _].
      destruct (sub_count_pos (threads σ)) as (k & thk & Hk & Hsub); [lia|].
      assert (k ≠ s) as Hks.
      { intros ->. destruct (setter_roles _ _ _ _ _ Hsok) as (_ & Hns & _).
        congruence. }
      pose proof (Hw k thk Hk Hks) as Hokk. pose proof (Hnh k thk Hk) as Hhk.
      unfold waiter_ok in Hokk.
      destruct (t_pc thk) eqn:Ek; try done.
      * apply Hsetter. by destruct Hokk as (_ & _ & ? & _).
      * by apply (Hrelock k thk); eauto.
    + by apply (Hrelock j th); eauto.
    + apply Hsetter. by destruct Hok as (_ & _ & ? & _).
    + by apply (Hrelock j th); eauto.
Qed.

(** *** The outcome *)

Lemma inv_all_served s x tr σ :
  wait_invariant s x tr σ →
  (∀ i th, threads σ !! i = Some th → finished th = true) →
  halted σ ∧ all_served s x tr σ.
Proof.
  intros [Hb Hlock Hcell Hwaiter (ths & Hs & Hsok & Hw)] Hall.
  assert (Hidle : ∀ i th, threads σ !! i = Some th → t_pc th = Idle ∧ t_todo th = []).
  { intros i th Hi. specialize (Hall i th Hi). unfold finished in Hall.
    destruct (t_pc th); try done. by destruct (t_todo th). }
  split.
  { intros t. unfold step. destruct (threads σ !! t) as [th|] eqn:Ht; [|done].
    simpl. unfold statement. by destruct (Hidle t th Ht) as [-> ->]. }
  destruct (Hidle s ths Hs) as [Epc Etodo]. destruct Hsok as [_ Hpc].
  rewrite Epc, Etodo in Hpc. destruct Hpc as [([=] & _)|(_ & Hst & Htr)].
  destruct Hcell as [Hst'|(_ & Hv)]; [congruence|].
  split; [done|]. split; [done|]. split; [|split; [|split; [done|]]].
  - destruct (m_waiter (cell σ)) as [w|]; [|done].
    destruct Hwaiter as [_ (tho & Ho & Hop)].
    destruct (Hidle _ tho Ho) as [Eo _]. by rewrite Eo in Hop.
  - destruct (m_writeLock σ) as [h|] eqn:Hlk; [|done].
    destruct (proj1 (Hlock h) eq_refl) as (thh & Hh & Hhold).
    destruct (Hidle _ thh Hh) as [Eh _]. by rewrite Eh in Hhold.
  - intros i th Hi. split; [by eapply Hall|].
    intros Hne. specialize (Hw i th Hi Hne). unfold waiter_ok in Hw.
    destruct (Hidle i th Hi) as [Ei Et]. rewrite Ei, Et in Hw.
    by destruct Hw as [([=] & _)|(_ & ?)].
Qed.

Lemma inv_inevitably s x tr (n : nat) σ :
  measure σ < n → wait_invariant s x tr σ → inevitably (all_served s x tr) σ.
Proof.
  revert σ. induction n as [|n IH]; intros σ Hm Hinv; [lia|].
  destruct (inv_progress s x tr σ Hinv) as [Hall|Hsome].
  - destruct (inv_all_served s x tr σ Hinv Hall). by apply inevitably_halted.
  - apply inevitably_step; [done|]. intros σ' Hstep. apply IH.
    + destruct Hstep as [t Hstep]. apply measure_step in Hstep. lia.
    + by eapply inv_step.
Qed.

Lemma inv_drained s x tr σ :
  wait_invariant s x tr σ → drained_before_unregistered σ.
Proof.
  intros [Hb Hlock Hcell Hwaiter (ths & Hs & Hsok & Hw)] [Hnone|(i & th & Hi & Epc)].
  - rewrite Hnone in Hwaiter. apply sub_count_zero.
    intros j thj Hj. by destruct (Hwaiter j thj Hj).
  - assert (i ≠ s) as Hne.
    { intros ->. assert (th = ths) as -> by congruence.
      destruct Hsok as [_ Hpc]. by rewrite Epc in Hpc. }
    specialize (Hw i th Hi Hne). unfold waiter_ok in Hw. rewrite Epc in Hw.
    destruct Hw as (_ & _ & _ & Hmw). rewrite Hmw in Hwaiter. simpl in Hwaiter.
    lia.
Qed.

(** *** Where the pool starts *)

Lemma total_all_one {A : Type} (g : A → nat) (l : list A) :
  (∀ i a, l !! i = Some a → g a = 1) → total g l = length l.
Proof.
  induction l as [|a l IH]; simpl; [done|]. intros Hall.
  rewrite (Hall 0 a) by done. f_equal. apply IH. intros i b Hi.
  by apply (Hall (S i)).
Qed.

Lemma blocked_invariant n s x σ :
  (Z.of_nat n ≤ 65536)%Z →
  blocked_in_wait n s x σ → wait_invariant s x (trace σ) σ.
Proof.
  intros Hn16 (Hn & Hlen & Hst & Hlk & Hs & w & Hws & Hwn & Hmw & Hall).
  rewrite quint16_small in Hmw by lia.
  assert (is_Some (threads σ !! w)) as [thw Hw]
    by (apply lookup_lt_is_Some; lia).
  pose proof (Hall w thw Hw Hws) as Ew. rewrite decide_True in Ew by done.
  assert (sub_count (threads σ) + 2 = S n) as Hcount.
  { set (d := set_pc SubAtExit (spawn []) : Thread).
    pose proof (sub_count_goto id _ w thw d Hw keeps_roles_id) as H1.
    rewrite list_fmap_id in H1. rewrite Ew in H1. simpl in H1.
    assert (<[w:=d]> (threads σ) !! s = Some (spawn [MoveValue (Some x)])) as Hs'
      by by rewrite list_lookup_insert_ne.
    pose proof (sub_count_goto id _ s _ d Hs' keeps_roles_id) as H2.
    rewrite list_fmap_id in H2. simpl in H2.
    assert (sub_count (<[s:=d]> (<[w:=d]> (threads σ))) = S n) as H3.
    { rewrite <- Hlen, <- (length_insert (threads σ) w d),
        <- (length_insert (<[w:=d]> (threads σ)) s d).
      apply total_all_one. intros i a Hi.
      apply (lookup_goto_id _ s _ _ _ _ Hs') in Hi as [[-> ->]|[Hnes Hi]]; [done|].
      apply (lookup_goto_id _ w _ _ _ _ Hw) in Hi as [[-> ->]|[Hnew Hi]]; [done|].
      rewrite (Hall i a Hi Hnes). by rewrite decide_False. }
    lia. }
  constructor.
  - lia.
  - intros t. rewrite Hlk. split; [done|]. intros (th & Ht & Hhold).
    destruct (decide (t = s)) as [->|Hne].
    + rewrite Hs in Ht. by injection Ht as <-.
    + rewrite (Hall t th Ht Hne) in Hhold. by case_decide.
  - by left.
  - rewrite Hmw. simpl. split; [lia|]. exists thw. split; [done|]. by rewrite Ew.
  - exists (spawn [MoveValue (Some x)]). split; [done|]. split.
    + split; [done|]. simpl. left. done.
    + intros i th Hi Hne. rewrite (Hall i th Hi Hne). unfold waiter_ok.
      rewrite Hmw. case_decide; simpl; [by subst|done].
Qed.

Lemma about_to_wait_invariant n s x σ :
  (Z.of_nat n ≤ 65536)%Z →
  about_to_wait n s x σ → wait_invariant s x (trace σ) σ.
Proof.
  intros Hn16 (Hlen & Hst & Hmw & Hlk & Hs & Hall).
  constructor.
  - lia.
  - intros t. rewrite Hlk. split; [done|]. intros (th & Ht & Hhold).
    destruct (decide (t = s)) as [->|Hne].
    + rewrite Hs in Ht. by injection Ht as <-.
    + by rewrite (Hall t th Ht Hne) in Hhold.
  - by left.
  - rewrite Hmw. intros i th Hi. destruct (decide (i = s)) as [->|Hne].
    + rewrite Hs in Hi. by injection Hi as <-.
    + by rewrite (Hall i th Hi Hne).
  - exists (spawn [MoveValue (Some x)]). split; [done|]. split.
    + split; [done|]. simpl. left. done.
    + intros i th Hi Hne. rewrite (Hall i th Hi Hne). unfold waiter_ok.
      simpl. by left.
Qed.


(** X19.  The same from the very start, before anybody has called: the
    threads are about to call [wait] and [moveValue(x)], and may do so in
    any order, a waiter before the setter, after it, or in the middle of
    it.  Under every schedule each caller of [wait] returns, having been
    given [x] once; nobody is left asleep or on the mutex, and the
    [Waiter] is unregistered only when no later waiter is counted. *)
Lemma moveValue_serves_all_callers (n s : nat) x σ :
  (Z.of_nat n < 65536)%Z →
  about_to_wait n s x σ →
  inevitably (all_served s x (trace σ)) σ ∧
  always drained_before_unregistered σ.
Proof.
  intros Hn16 Hinv%about_to_wait_invariant; [|lia]. split.
  - by apply (inv_inevitably s x (trace σ) (S (measure σ))); [lia|].
  - intros σ' Hsteps. eapply inv_drained, inv_rtc; done.
Qed.

(** *** How the waiters get to sleep *)

Local Ltac next_statement th :=
  rewrite (step_lookup _ _ th)
    by (simpl; first [eassumption
                     | apply list_lookup_insert_eq;
                       rewrite ?length_fmap, ?length_insert; done]);
  unfold statement; simpl;
  unfold set_thread, set_threads, set_cell, set_lock, release, acquire, emit,
    wakeAll, Q_ASSERT;
  simpl; rewrite ?list_fmap_insert, ?list_insert_insert_eq.

(** The first caller of [wait] on a cell in Progress registers its
    [Waiter] and goes to sleep on it. *)
Lemma sleep_first c l tr t :
  l !! t = Some (spawn [Wait]) →
  m_state c = PROGRESS → m_waiter c = None →
  run (replicate 6 t) {| cell := c; m_writeLock := None; threads := l; trace := tr |} =
    Some {| cell := set_waiter (Some {| owner := t; subWaiters := 0 |}) c;
            m_writeLock := None;
            threads := <[t:=asleep (PrimBlocked t)]> l;
            trace := tr |}.
Proof.
  intros Ht Hst Hmw. pose proof (lookup_lt_Some _ _ _ Ht) as Hlt.
  assert (Hlen : ∀ a, t < length (<[t:=a]> l)) by (intros; by rewrite length_insert).
  simpl.
  next_statement (spawn [Wait] : Thread).
  next_statement (set_pc WaitFast (spawn []) : Thread).
  rewrite wait_access_progress by done. simpl.
  next_statement (set_pc WaitLock (spawn []) : Thread).
  next_statement (set_pc WaitRecheck (spawn []) : Thread).
  rewrite wait_access_progress by done. simpl.
  next_statement (set_pc WaitRegister (spawn []) : Thread).
  rewrite Hmw. simpl.
  next_statement (set_pc PrimWait (spawn []) : Thread).
  done.
Qed.

(** A later caller counts itself in [subWaiters] and goes to sleep on the
    same [Waiter]. *)
Lemma sleep_later c l tr t w :
  l !! t = Some (spawn [Wait]) →
  m_state c = PROGRESS → m_waiter c = Some w →
  run (replicate 6 t) {| cell := c; m_writeLock := None; threads := l; trace := tr |} =
    Some {| cell := set_waiter (Some {| owner := owner w;
                                        subWaiters := quint16 (subWaiters w + 1) |}) c;
            m_writeLock := None;
            threads := <[t:=asleep (SubBlocked (owner w))]> l;
            trace := tr |}.
Proof.
  intros Ht Hst Hmw. pose proof (lookup_lt_Some _ _ _ Ht) as Hlt.
  assert (Hlen : ∀ a, t < length (<[t:=a]> l)) by (intros; by rewrite length_insert).
  simpl.
  next_statement (spawn [Wait] : Thread).
  next_statement (set_pc WaitFast (spawn []) : Thread).
  rewrite wait_access_progress by done. simpl.
  next_statement (set_pc WaitLock (spawn []) : Thread).
  next_statement (set_pc WaitRecheck (spawn []) : Thread).
  rewrite wait_access_progress by done. simpl.
  next_statement (set_pc WaitRegister (spawn []) : Thread).
  rewrite Hmw. simpl.
  next_statement (set_pc SubWait (spawn []) : Thread).
  done.
Qed.

Lemma replicate_app_cons {A : Type} (k : nat) (a : A) (rest : list A) :
  replicate k a ++ a :: rest = a :: replicate k a ++ rest.
Proof. induction k as [|k IH]; simpl; [done|]. by rewrite IH. Qed.

Lemma sleep_schedule_S (k n : nat) :
  sleep_schedule k (S n) = replicate 6 k ++ sleep_schedule (S k) n.
Proof. reflexivity. Qed.

Lemma sleep_schedule_later (c : AsyncValueTemplate ValueType ErrorType ProgressType) x (n k : nat) :
  m_state c = PROGRESS →
  (Z.of_nat (k + n) < 65536)%Z →
  run (sleep_schedule (S k) n) (sleeping_pool k n c x) = Some (sleeping_pool (k + n) 0 c x).
Proof.
  intros Hst. revert k. induction n as [|n IH]; intros k Hk.
  - simpl. by rewrite Nat.add_0_r.
  - rewrite sleep_schedule_S, run_app.
    unfold sleeping_pool at 1.
    rewrite (sleep_later _ _ _ _ {| owner := 0; subWaiters := Z.of_nat k |});
      [|simpl|done|done].
    2:{ rewrite lookup_app_r by (rewrite length_replicate; lia).
        by rewrite length_replicate, Nat.sub_diag. }
    simpl. rewrite quint16_small by lia.
    replace (k + S n) with (S k + n) by lia.
    rewrite <- IH by lia. f_equal. unfold sleeping_pool. f_equal.
    + unfold set_waiter. simpl. do 3 f_equal. lia.
    + f_equal. rewrite insert_app_r_alt by (rewrite length_replicate; lia).
      rewrite length_replicate, Nat.sub_diag. simpl.
      apply replicate_app_cons.
Qed.

(** From the start, the sleep schedule puts all the [n] callers of [wait]
    to sleep, the first as first waiter, and the pool is then in the
    situation of C9. *)
Lemma sleep_schedule_blocks (c : AsyncValueTemplate ValueType ErrorType ProgressType) x (n : nat) :
  m_state c = PROGRESS → m_waiter c = None →
  1 ≤ n → (Z.of_nat n < 65536)%Z →
  ∃ σ, run (sleep_schedule 0 n) (start_pool n c x) = Some σ ∧
       blocked_in_wait n n x σ ∧ trace σ = [].
Proof.
  intros Hst Hmw Hn Hn16. destruct n as [|n]; [lia|].
  exists (sleeping_pool n 0 c x). split; [|split; [|done]].
  - rewrite sleep_schedule_S, run_app.
    unfold start_pool. rewrite sleep_first by done.
    apply (sleep_schedule_later c x n 0); [done|lia].
  - split; [lia|]. split.
    { simpl. rewrite length_app, length_replicate. simpl. lia. }
    do 2 (split; [done|]). split.
    { simpl. rewrite lookup_app_r by (rewrite length_replicate; lia).
      by rewrite length_replicate, Nat.sub_diag. }
    exists 0. split; [lia|]. split; [lia|]. split.
    { rewrite quint16_small by lia. simpl. do 3 f_equal. lia. }
    intros i th Hi Hne. destruct i as [|i]; simpl in Hi.
    + by injection Hi as <-.
    + rewrite decide_False by lia.
      destruct (decide (i < n)) as [Hlt|Hge].
      * rewrite lookup_app_l in Hi by (rewrite length_replicate; lia).
        by apply lookup_replicate in Hi as [-> _].
      * rewrite lookup_app_r in Hi by (rewrite length_replicate; lia).
        rewrite length_replicate in Hi.
        destruct (i - n) as [|j] eqn:Hj; [lia|]. by destruct j.
Qed.

(** Every sleeping pool of C9 is reached from the start, and is served. *)
Corollary sleepers_are_served (c : AsyncValueTemplate ValueType ErrorType ProgressType)
    x (n : nat) :
  m_state c = PROGRESS → m_waiter c = None →
  1 ≤ n → (Z.of_nat n < 65536)%Z →
  ∃ σ, run (sleep_schedule 0 n) (start_pool n c x) = Some σ ∧
       blocked_in_wait n n x σ ∧
       inevitably (all_served n x []) σ.
Proof.
  intros Hst Hmw Hn Hn16.
  destruct (sleep_schedule_blocks c x n Hst Hmw Hn Hn16) as (σ & Hrun & Hb & Htr).
  exists σ. split; [done|]. split; [done|]. rewrite <- Htr.
  apply (inv_inevitably n x (trace σ) (S (measure σ))); [lia|].
  apply (blocked_invariant n); [lia|done].
Qed.

(** *** The two layers agree

    A thread that runs a mutator alone, from a free mutex, leaves the cell,
    the trace and its return value as the function of the cell layer says,
    and the mutex free again. *)

Lemma insert_wake_insert (f : Thread → Thread) l t (a b : Thread) :
  <[t:=b]> (f <$> <[t:=a]> l) = <[t:=b]> (f <$> l).
Proof. by rewrite list_fmap_insert, list_insert_insert_eq. Qed.

Lemma solo_moveValue (c : AsyncValueTemplate ValueType ErrorType ProgressType)
    l tr t th v rest :
  l !! t = Some th → t_pc th = Idle → t_todo th = MoveValue v :: rest →
  run (replicate 6 t) {| cell := c; m_writeLock := None; threads := l; trace := tr |} =
    Some {| cell := (moveValue v c).1;
            m_writeLock := None;
            threads := <[t:=set_todo rest th]>
                         (match m_waiter c with
                          | Some w => wake_value (owner w) <$> l
                          | None => l
                          end);
            trace := tr ++ (moveValue v c).2 |}.
Proof.
  intros Ht Hpc Htodo. pose proof (lookup_lt_Some _ _ _ Ht) as Hlt.
  assert (Hth : set_pc Idle (set_todo rest th) = set_todo rest th)
    by (destruct th; simpl in *; by subst).
  simpl. rewrite (step_lookup _ _ th) by done. unfold statement.
  rewrite Hpc, Htodo. simpl. unfold set_thread, set_threads. simpl.
  next_statement (set_pc (MvLock v) (set_todo rest th)).
  next_statement (set_pc (MvAssign v) (set_todo rest th)).
  next_statement (set_pc MoveEmit (set_todo rest th)).
  next_statement (set_pc MoveWake (set_todo rest th)).
  destruct (m_waiter c) as [w|]; simpl.
  - unfold set_thread, set_threads, wakeAll. simpl.
    rewrite ?list_fmap_insert, ?list_insert_insert_eq.
    next_statement (set_pc MoveUnlock (set_todo rest th)).
    do 3 f_equal. apply Hth.
  - unfold set_thread, set_threads. simpl. rewrite ?list_insert_insert_eq.
    next_statement (set_pc MoveUnlock (set_todo rest th)).
    do 3 f_equal. apply Hth.
Qed.

Lemma solo_moveError (c : AsyncValueTemplate ValueType ErrorType ProgressType)
    l tr t th e rest :
  l !! t = Some th → t_pc th = Idle → t_todo th = MoveError e :: rest →
  run (replicate 6 t) {| cell := c; m_writeLock := None; threads := l; trace := tr |} =
    Some {| cell := (moveError e c).1;
            m_writeLock := None;
            threads := <[t:=set_todo rest th]>
                         (match m_waiter c with
                          | Some w => wake_value (owner w) <$> l
                          | None => l
                          end);
            trace := tr ++ (moveError e c).2 |}.
Proof.
  intros Ht Hpc Htodo. pose proof (lookup_lt_Some _ _ _ Ht) as Hlt.
  assert (Hth : set_pc Idle (set_todo rest th) = set_todo rest th)
    by (destruct th; simpl in *; by subst).
  simpl. rewrite (step_lookup _ _ th) by done. unfold statement.
  rewrite Hpc, Htodo. simpl. unfold set_thread, set_threads. simpl.
  next_statement (set_pc (MeLock e) (set_todo rest th)).
  next_statement (set_pc (MeAssign e) (set_todo rest th)).
  next_statement (set_pc MoveEmit (set_todo rest th)).
  next_statement (set_pc MoveWake (set_todo rest th)).
  destruct (m_waiter c) as [w|]; simpl.
  - unfold set_thread, set_threads, wakeAll. simpl.
    rewrite ?list_fmap_insert, ?list_insert_insert_eq.
    next_statement (set_pc MoveUnlock (set_todo rest th)).
    do 3 f_equal. apply Hth.
  - unfold set_thread, set_threads. simpl. rewrite ?list_insert_insert_eq.
    next_statement (set_pc MoveUnlock (set_todo rest th)).
    do 3 f_equal. apply Hth.
Qed.

Lemma solo_startProgressMove (c : AsyncValueTemplate ValueType ErrorType ProgressType)
    l tr t th p rest :
  l !! t = Some th → t_pc th = Idle → t_todo th = StartProgressMove p :: rest →
  run (replicate (if decide (m_state c = PROGRESS) then 3 else 6) t)
      {| cell := c; m_writeLock := None; threads := l; trace := tr |} =
    Some {| cell := (startProgressMove p c).1.2;
            m_writeLock := None;
            threads := <[t:=push_returned (RetPointer (startProgressMove p c).1.1)
                              (set_todo rest th)]> l;
            trace := tr ++ (startProgressMove p c).2 |}.
Proof.
  intros Ht Hpc Htodo. pose proof (lookup_lt_Some _ _ _ Ht) as Hlt.
  assert (Hth : ∀ r, set_pc Idle (push_returned r (set_todo rest th)) =
                     push_returned r (set_todo rest th))
    by (intros r; destruct th; simpl in *; by subst).
  unfold startProgressMove. destruct (decide (m_state c = PROGRESS)) as [Hst|Hst].
  - simpl. rewrite (step_lookup _ _ th) by done. unfold statement.
    rewrite Hpc, Htodo. simpl. unfold set_thread, set_threads. simpl.
    next_statement (set_pc (SpLock p) (set_todo rest th)).
    next_statement (set_pc (SpCheck p) (set_todo rest th)).
    rewrite decide_True by done. simpl.
    unfold set_thread, set_threads. simpl. rewrite ?list_insert_insert_eq.
    do 3 f_equal. apply Hth.
  - simpl. rewrite (step_lookup _ _ th) by done. unfold statement.
    rewrite Hpc, Htodo. simpl. unfold set_thread, set_threads. simpl.
    next_statement (set_pc (SpLock p) (set_todo rest th)).
    next_statement (set_pc (SpCheck p) (set_todo rest th)).
    rewrite decide_False by done. simpl.
    unfold set_thread, set_threads. simpl. rewrite ?list_insert_insert_eq.
    next_statement (set_pc (SpAssign p) (set_todo rest th)).
    next_statement (set_pc SpEmit (set_todo rest th)).
    next_statement (set_pc SpReturn (set_todo rest th)).
    do 3 f_equal. apply Hth.
Qed.

Lemma solo_stopProgress (c : AsyncValueTemplate ValueType ErrorType ProgressType)
    l tr t th h rest :
  l !! t = Some th → t_pc th = Idle → t_todo th = StopProgress h :: rest →
  run (replicate 3 t) {| cell := c; m_writeLock := None; threads := l; trace := tr |} =
    Some {| cell := (stopProgress h c).1.2;
            m_writeLock := None;
            threads := <[t:=push_returned (RetBool (stopProgress h c).1.1)
                              (set_todo rest th)]> l;
            trace := tr ++ (stopProgress h c).2 |}.
Proof.
  intros Ht Hpc Htodo. pose proof (lookup_lt_Some _ _ _ Ht) as Hlt.
  assert (Hth : ∀ r, set_pc Idle (push_returned r (set_todo rest th)) =
                     push_returned r (set_todo rest th))
    by (intros r; destruct th; simpl in *; by subst).
  simpl. rewrite (step_lookup _ _ th) by done. unfold statement.
  rewrite Hpc, Htodo. simpl. unfold set_thread, set_threads. simpl.
  next_statement (set_pc (StLock h) (set_todo rest th)).
  rewrite (step_lookup _ _ (set_pc (StBody h) (set_todo rest th)))
    by (simpl; apply list_lookup_insert_eq; done).
  unfold statement. simpl.
  destruct (stopProgress h c) as [[r c'] es] eqn:Hstop. simpl.
  rewrite foldl_emit. unfold set_thread, set_threads, release, set_lock. simpl.
  rewrite list_insert_insert_eq. do 3 f_equal. apply Hth.
Qed.

End WaitProtocol.

(** *** A wake-up that finds the cell in Progress again *)

(** C3.  The code waits once and re-checks once.  Thread 0 calls [wait] on
    a cell in Progress and goes to sleep as the first waiter; thread 1
    stores a value and wakes it; before thread 0 has the mutex back,
    thread 2 starts a new progress.  Thread 0 then finds the cell in
    Progress: its [access] returns false, the assertion "access should
    succeed" fails, and [wait] returns with no callable invoked. *)
Theorem wait_recheck_fails_after_restart :
  ∃ σ1 σ2 σ3 : config nat string nat,
    run (replicate 6 0) race_start = Some σ1 ∧
    t_pc <$> threads σ1 !! 0 = Some (PrimBlocked 0) ∧
    m_state (cell σ1) = PROGRESS ∧
    run (replicate 6 1) σ1 = Some σ2 ∧
    t_pc <$> threads σ2 !! 0 = Some PrimRelock ∧
    settled_call (cell σ2) = Some (CallValue 42) ∧
    run (replicate 6 2 ++ replicate 4 0) σ2 = Some σ3 ∧
    threads σ3 !! 0 = Some (spawn []) ∧
    m_state (cell σ3) = PROGRESS ∧
    trace σ3 = [StateChanged VALUE; StateChanged PROGRESS;
                AssertFailed "access should succeed"].
Proof.
  do 3 eexists.
  split; [vm_compute; reflexivity|].
  split; [reflexivity|]. split; [reflexivity|].
  split; [vm_compute; reflexivity|].
  split; [reflexivity|]. split; [reflexivity|].
  split; [vm_compute; reflexivity|].
  repeat split.
Qed.


(** *** The properties on the sample cells and pools *)

(** Against C1 as first stated: the sample cell is settled (state Value)
    and still holds the progress object of the progress that the value
    ended; [stopProgress] without a handle returns [true] there and drops
    that object. *)
Lemma stopProgress_settled_succeeds :
  m_state sample_settled = VALUE ∧
  m_progress sample_settled = Some sample_progress ∧
  stopProgress None sample_settled = (true, set_progress None sample_settled, []) ∧
  (stopProgress None sample_settled).1.2 ≠ sample_settled.
Proof. repeat split. discriminate. Qed.

Lemma stopProgress_refusal_witness :
  ∃ message,
    stopProgress (Some 100) sample_running = (false, sample_running, [AssertFailed message]).
Proof.
  apply (proj1 (stopProgress_refusal (Some 100) sample_running)). reflexivity.
Defined.

(** Against C2 as first stated: [emplaceValue] on a cell in Progress leaves
    it in state Value with the progress object still owned. *)
Lemma setValue_keeps_progress_object :
  m_state sample_running = PROGRESS ∧
  sample_settled = (emplaceValue 42 sample_running).1 ∧
  m_state sample_settled = VALUE ∧
  m_progress sample_settled = Some sample_progress.
Proof. repeat split. Qed.

Lemma progress_ownership_witness :
  reachable sample_running ∧
  m_state (mutate (SetValue 42) sample_running) ≠ PROGRESS ∧
  m_progress (mutate (SetValue 42) sample_running) = m_progress sample_running.
Proof.
  assert (Hr : reachable sample_running).
  { apply reachable_mutate, reachable_value. }
  split; [exact Hr|].
  apply (proj2 (proj2 (progress_ownership sample_running (SetValue 42) Hr))).
Defined.

Lemma moveValue_moveError_replace_witness :
  (moveValue (Some 5) sample_running).2 = [StateChanged VALUE] ∧
  (moveError (Some "failed") sample_settled).2 = [StateChanged ERROR].
Proof.
  split.
  - apply (proj1 (moveValue_moveError_replace sample_running 5 "failed")).
  - apply (proj2 (moveValue_moveError_replace sample_settled 5 "failed")).
Defined.

Lemma startProgressMove_while_in_progress_witness :
  m_state sample_running = PROGRESS ∧
  startProgressMove (Some (Object 200 1)) sample_running =
    (None, sample_running, [AssertFailed "Cannot start progress while in progress"]).
Proof.
  split; [reflexivity|].
  apply (startProgressMove_while_in_progress sample_running (Some (Object 200 1))).
  reflexivity.
Defined.

Lemma stopProgress_mismatched_handle_witness :
  m_state sample_running = PROGRESS ∧
  m_progress sample_running = Some sample_progress ∧
  200 ≠ address sample_progress ∧
  stopProgress (Some 200) sample_running =
    (false, sample_running,
     [AssertFailed "Progress was started with different progress instance"]).
Proof.
  assert (Ha : 200 ≠ address sample_progress) by (simpl; lia).
  split; [reflexivity|]. split; [reflexivity|]. split; [exact Ha|].
  apply (stopProgress_mismatched_handle sample_running sample_progress 200);
    [reflexivity | reflexivity | exact Ha].
Defined.

Lemma access_dispatch_witness :
  m_state sample_settled = VALUE ∧
  value (m_content sample_settled) = Some 42 ∧
  access2 (S:=list nat) (λ v s, (v, v :: s)) AsyncNoOp sample_settled [] =
    Some (true, (sample_settled, [42])).
Proof.
  split; [reflexivity|]. split; [reflexivity|].
  apply (proj1 (access_dispatch (S:=list nat) (λ v s, (v, v :: s)) AsyncNoOp AsyncNoOp
                  sample_settled [] 42 "" sample_progress));
    reflexivity.
Defined.

Lemma wait_settled_never_blocks_witness :
  settled_call (cell settled_pool) = Some (CallValue 42) ∧
  run (replicate 6 0) settled_pool =
    Some (set_thread 0
            (set_calls [CallValue 42; CallValue 42; CallValue 42] (spawn []))
            settled_pool).
Proof.
  split; [reflexivity|].
  apply (wait_settled_never_blocks settled_pool 0 (spawn [Wait; Wait; Wait])
           (CallValue 42) 3 []); reflexivity.
Defined.

Lemma stopProgress_settled_releases_witness :
  (m_state sample_settled = VALUE ∨ m_state sample_settled = ERROR) ∧
  ∃ c', stopProgress (Some 100) sample_settled = (true, c', []) ∧
        m_progress c' = None ∧
        m_state c' = m_state sample_settled ∧
        m_content c' = m_content sample_settled ∧
        m_waiter c' = m_waiter sample_settled.
Proof.
  assert (Hs : m_state sample_settled = VALUE ∨ m_state sample_settled = ERROR)
    by (left; reflexivity).
  split; [exact Hs|].
  apply (stopProgress_settled_releases (Some 100) sample_settled Hs).
  right; reflexivity.
Defined.

(** The three waiters of the sample pool do go to sleep, one after the
    other, and the pool is then in the situation of C9. *)
Lemma pool_blocked_reached :
  run (replicate 6 0 ++ replicate 6 1 ++ replicate 6 2) pool_start = Some pool_blocked.
Proof. vm_compute. reflexivity. Qed.



(** One schedule of the sample pool, to the end: the setter, then the
    first waiter up to its drain, then the two others, then the first
    waiter again. *)
Lemma pool_blocked_sample_run :
  ∃ σ : config nat string nat,
    run (replicate 6 3 ++ [0; 0; 0] ++ [1; 1; 1] ++ [2; 2; 2] ++ [0; 0]) pool_blocked
      = Some σ ∧
    t_calls <$> threads σ = [[CallValue 42]; [CallValue 42]; [CallValue 42]; []] ∧
    m_waiter (cell σ) = None ∧ m_writeLock σ = None ∧
    trace σ = [StateChanged VALUE].
Proof. eexists. split; [vm_compute; reflexivity|]. repeat split. Qed.

(** * Further properties of the class *)

Section LifecycleProperties.

Context {ValueType ErrorType ProgressType : Type}.

#[local] Abbreviation Cell := (AsyncValueTemplate ValueType ErrorType ProgressType).

Implicit Types (c : Cell) (h : pointer) (v : ValueType) (e : ErrorType)
  (p : instance ProgressType) (m : mutation ValueType ErrorType ProgressType).

Lemma set_progress_none_same c : m_progress c = None → set_progress None c = c.
Proof. destruct c; simpl; by intros ->. Qed.

(** X1.  A cell built by the value constructor is settled and holds the
    value alone: no error, no progress object, no registered waiter.  An
    accessor finds the value (the error and progress accessors return
    [false] and run nothing), a [wait] returns through its first [access],
    and the destructor's assertion holds.  The error constructor is the
    mirror image. *)
Theorem constructed_cell v e :
  (let c := initByValue v in
   c = {| m_state := VALUE; m_content := {| value := Some v; error := None |};
          m_progress := None; m_waiter := None |} ∧
   reachable c ∧ destroy c = [] ∧
   (∀ (S : Type) (valuePred : Pred ValueType S) (errorPred : Pred ErrorType S)
      (progressPred : Pred ProgressType S) (s : S),
      let after := (put_value (valuePred v s).1 c, (valuePred v s).2) in
      access3 valuePred errorPred progressPred c s = Some after ∧
      access2 valuePred errorPred c s = Some (true, after) ∧
      access1 valuePred c s = Some (true, after) ∧
      accessError errorPred c s = Some (false, (c, s)) ∧
      accessProgress progressPred c s = Some (false, (c, s))) ∧
   settled_call c = Some (CallValue v)) ∧
  (let c := initByError e in
   c = {| m_state := ERROR; m_content := {| value := None; error := Some e |};
          m_progress := None; m_waiter := None |} ∧
   reachable c ∧ destroy c = [] ∧
   (∀ (S : Type) (valuePred : Pred ValueType S) (errorPred : Pred ErrorType S)
      (progressPred : Pred ProgressType S) (s : S),
      let after := (put_error (errorPred e s).1 c, (errorPred e s).2) in
      access3 valuePred errorPred progressPred c s = Some after ∧
      access2 valuePred errorPred c s = Some (true, after) ∧
      access1 valuePred c s = Some (false, (c, s)) ∧
      accessError errorPred c s = Some (true, after) ∧
      accessProgress progressPred c s = Some (false, (c, s))) ∧
   settled_call c = Some (CallError e)).
Proof.
  split.
  - split; [reflexivity|]. split; [apply reachable_value|]. split; [reflexivity|].
    split; [|reflexivity]. intros S valuePred errorPred progressPred s.
    by apply access_on_value.
  - split; [reflexivity|]. split; [apply reachable_error|]. split; [reflexivity|].
    split; [|reflexivity]. intros S valuePred errorPred progressPred s.
    by apply access_on_error.
Qed.

(** X2.  On a cell that is not in Progress, [startProgressMove] of an
    object succeeds: it returns the object's address, emits the one state
    change, and leaves the cell in Progress holding that object, with the
    previous value or error dropped and the waiter slot as before.  The
    accessors then find the progress object only, and the destructor's
    assertion would fail. *)
Theorem startProgressMove_starts c p :
  m_state c ≠ PROGRESS →
  let c' := {| m_state := PROGRESS; m_content := moved_from;
               m_progress := Some p; m_waiter := m_waiter c |} in
  startProgressMove (Some p) c = (Some (address p), c', [StateChanged PROGRESS]) ∧
  startProgressEmplace (address p) (object p) c =
    (Some (address p), c', [StateChanged PROGRESS]) ∧
  destroy c' = [AssertFailed "m_state != ASYNC_VALUE_STATE::PROGRESS"] ∧
  ∀ (S : Type) (valuePred : Pred ValueType S) (errorPred : Pred ErrorType S)
    (progressPred : Pred ProgressType S) (s : S),
    let after := (put_progress (address p) (progressPred (object p) s).1 c',
                  (progressPred (object p) s).2) in
    access3 valuePred errorPred progressPred c' s = Some after ∧
    access2 valuePred errorPred c' s = Some (false, (c', s)) ∧
    access1 valuePred c' s = Some (false, (c', s)) ∧
    accessError errorPred c' s = Some (false, (c', s)) ∧
    accessProgress progressPred c' s = Some (true, after).
Proof.
  intros Hs c'.
  assert (startProgressMove (Some p) c = (Some (address p), c', [StateChanged PROGRESS]))
    as Hstart.
  { unfold startProgressMove. destruct (decide _); [done|reflexivity]. }
  split; [done|]. split.
  { unfold startProgressEmplace. by destruct p. }
  split; [reflexivity|].
  intros S valuePred errorPred progressPred s. by apply access_on_progress.
Qed.

(** X3.  A whole cycle: start a progress with an object, settle with a
    value (or an error), release with the handle that the start returned.
    Every step succeeds, the events are the two state changes and nothing
    else, and the cell ends settled on the new payload, owning no progress
    object, its waiter slot untouched; on a cell that came from a
    constructor this is the cell the constructor builds for the new
    payload.  Releasing with the handle before settling is refused. *)
Theorem progress_cycle c p v e :
  m_state c ≠ PROGRESS →
  let started := startProgressMove (Some p) c in
  let handle := started.1.1 in
  (let settled := moveValue (Some v) started.1.2 in
   let released := stopProgress handle settled.1 in
   released =
     (true,
      {| m_state := VALUE; m_content := {| value := Some v; error := None |};
         m_progress := None; m_waiter := m_waiter c |}, []) ∧
   started.2 ++ settled.2 ++ released.2 = [StateChanged PROGRESS; StateChanged VALUE] ∧
   (m_waiter c = None → released.1.2 = initByValue v)) ∧
  (let settled := moveError (Some e) started.1.2 in
   let released := stopProgress handle settled.1 in
   released =
     (true,
      {| m_state := ERROR; m_content := {| value := None; error := Some e |};
         m_progress := None; m_waiter := m_waiter c |}, []) ∧
   started.2 ++ settled.2 ++ released.2 = [StateChanged PROGRESS; StateChanged ERROR] ∧
   (m_waiter c = None → released.1.2 = initByError e)) ∧
  stopProgress handle started.1.2 =
    (false, started.1.2, [AssertFailed "No value or error assigned"]).
Proof.
  intros Hs. unfold startProgressMove. destruct (decide _); [done|]. simpl.
  unfold stopProgress. simpl.
  rewrite !bool_decide_eq_false_2 by (by intros Hne). simpl.
  split; [|split].
  - split; [reflexivity|]. split; [reflexivity|].
    intros Hw. unfold initByValue, emplaceValue, moveValue, moveValue_assign,
      startProgress_assign, set_progress, set_state, set_content, fresh.
    simpl. by rewrite Hw.
  - split; [reflexivity|]. split; [reflexivity|].
    intros Hw. unfold initByError, emplaceError, moveError, moveError_assign,
      startProgress_assign, set_progress, set_state, set_content, fresh.
    simpl. by rewrite Hw.
  - reflexivity.
Qed.

(** X4.  What a mutating call reports.  [emplaceValue], [emplaceError] and
    a [startProgressMove] that succeeds emit exactly one event, the state
    change, and it carries the state the cell is left in.  A refused
    [startProgressMove] or [stopProgress] emits exactly one event, the
    failed assertion, and leaves the cell as it was.  A [stopProgress]
    that succeeds emits nothing at all, and leaves the state tag as it
    was. *)
Theorem events_of_mutation m c :
  match events_of m c with
  | [] =>
      (∃ h, m = StopProgressOf h ∧ (stopProgress h c).1.1 = true) ∧
      m_state (mutate m c) = m_state c ∧ m_content (mutate m c) = m_content c
  | [StateChanged state] =>
      state = m_state (mutate m c) ∧
      match m with
      | SetValue _ => state = VALUE
      | SetError _ => state = ERROR
      | StartProgress _ => state = PROGRESS ∧ m_state c ≠ PROGRESS
      | StopProgressOf _ => False
      end
  | [AssertFailed _] =>
      mutate m c = c ∧
      match m with
      | StartProgress _ => m_state c = PROGRESS
      | StopProgressOf h => (stopProgress h c).1.1 = false
      | _ => False
      end
  | _ => False
  end.
Proof.
  destruct m as [v|e|p|h]; simpl.
  - done.
  - done.
  - unfold startProgressMove. destruct (decide _); simpl; done.
  - unfold stopProgress. destruct (_ && _) eqn:Hb; simpl; [done|].
    destruct (decide _); simpl; [done|].
    split; [|done]. exists h. by rewrite Hb.
Qed.

(** X5.  Null pointers are taken as they come.  [moveValue(nullptr)]
    raises no assertion and leaves the cell in state Value with no value:
    every accessor that would run the value callable then dereferences
    null, while the error and progress accessors return [false].
    [moveError(nullptr)] is the mirror image.  [startProgressMove(nullptr)]
    on a settled cell puts it in Progress, emits the state change, and
    returns [nullptr], the very value it returns when it is refused; the
    progress accessors then dereference null. *)
Theorem null_payloads c :
  (let c' := (moveValue None c).1 in
   (moveValue None c).2 = [StateChanged VALUE] ∧ m_state c' = VALUE ∧
   ∀ (S : Type) (valuePred : Pred ValueType S) (errorPred : Pred ErrorType S)
     (progressPred : Pred ProgressType S) (s : S),
     access3 valuePred errorPred progressPred c' s = None ∧
     access2 valuePred errorPred c' s = None ∧
     access1 valuePred c' s = None ∧
     accessError errorPred c' s = Some (false, (c', s)) ∧
     accessProgress progressPred c' s = Some (false, (c', s))) ∧
  (let c' := (moveError None c).1 in
   (moveError None c).2 = [StateChanged ERROR] ∧ m_state c' = ERROR ∧
   ∀ (S : Type) (valuePred : Pred ValueType S) (errorPred : Pred ErrorType S)
     (progressPred : Pred ProgressType S) (s : S),
     access3 valuePred errorPred progressPred c' s = None ∧
     access2 valuePred errorPred c' s = None ∧
     access1 valuePred c' s = Some (false, (c', s)) ∧
     accessError errorPred c' s = None ∧
     accessProgress progressPred c' s = Some (false, (c', s))) ∧
  (m_state c ≠ PROGRESS →
   let c' := (startProgressMove None c).1.2 in
   startProgressMove None c = (None, c', [StateChanged PROGRESS]) ∧
   m_state c' = PROGRESS ∧
   ∀ (S : Type) (valuePred : Pred ValueType S) (errorPred : Pred ErrorType S)
     (progressPred : Pred ProgressType S) (s : S),
     access3 valuePred errorPred progressPred c' s = None ∧
     accessProgress progressPred c' s = None ∧
     access2 valuePred errorPred c' s = Some (false, (c', s))).
Proof.
  split; [|split].
  - do 2 (split; [reflexivity|]). intros. repeat split.
  - do 2 (split; [reflexivity|]). intros. repeat split.
  - intros Hs. unfold startProgressMove. destruct (decide _); [done|].
    simpl. do 2 (split; [reflexivity|]). intros. repeat split.
Qed.

(** X6.  Once nothing is retained, the handle is dead.  On a cell that
    owns no progress object every handle that is supplied is refused, with
    the cell unchanged; and on such a cell, when settled, [stopProgress]
    without a handle succeeds and changes nothing.  So after a release a
    second release without a handle is harmless, and one with the old
    handle is refused. *)
Theorem stopProgress_nothing_retained c (a : nat) h :
  (m_progress c = None →
   stopProgress (Some a) c =
     (false, c, [AssertFailed "Progress was started with different progress instance"]) ∧
   (m_state c ≠ PROGRESS → stopProgress None c = (true, c, []))) ∧
  ((stopProgress h c).1.1 = true →
   let c' := (stopProgress h c).1.2 in
   stopProgress None c' = (true, c', []) ∧
   stopProgress (Some a) c' =
     (false, c', [AssertFailed "Progress was started with different progress instance"])).
Proof.
  assert (Hnone : ∀ c0 : Cell, m_progress c0 = None →
            stopProgress (Some a) c0 =
              (false, c0,
               [AssertFailed "Progress was started with different progress instance"]) ∧
            (m_state c0 ≠ PROGRESS → stopProgress None c0 = (true, c0, []))).
  { intros c0 Hp. unfold stopProgress. rewrite Hp. simpl. split; [done|].
    intros Hs. destruct (decide _); [done|]. by rewrite set_progress_none_same. }
  split; [apply Hnone|].
  intros Hok. simpl.
  assert (m_progress (stopProgress h c).1.2 = None ∧
          m_state (stopProgress h c).1.2 ≠ PROGRESS) as [Hp Hs].
  { revert Hok. unfold stopProgress. destruct (_ && _); [done|].
    destruct (decide _); [done|]. done. }
  destruct (Hnone _ Hp) as [H1 H2]. split; [by apply H2|done].
Qed.

(** X7.  On a cell that a program can get (a constructor, then emplace,
    start and stop calls with real objects), no accessor ever dereferences
    a null pointer: all five return, whatever the callables. *)
Theorem reachable_accessors_defined {S : Type} (valuePred : Pred ValueType S)
    (errorPred : Pred ErrorType S) (progressPred : Pred ProgressType S) c (s : S) :
  reachable c →
  is_Some (access3 valuePred errorPred progressPred c s) ∧
  is_Some (access2 valuePred errorPred c s) ∧
  is_Some (access1 valuePred c s) ∧
  is_Some (accessError errorPred c s) ∧
  is_Some (accessProgress progressPred c s).
Proof.
  intros Hwf%reachable_well_formed. revert Hwf.
  unfold well_formed, access3, access2, access1, accessError, accessProgress,
    call_value, call_error, call_progress.
  destruct (m_state c); intros [[x Hx] _]; rewrite Hx; simpl.
  - destruct (valuePred x s). repeat split; by eexists.
  - destruct (errorPred x s). repeat split; by eexists.
  - destruct (progressPred (object x) s). repeat split; by eexists.
Qed.

(** X8.  [stopAndWait], up to the first statement of its [wait].  On a
    settled cell it returns there and then with the cell untouched: the
    stop request is not made, not even to a progress object that the cell
    still retains.  On a cell in Progress the stop request is made once, to
    the progress object the cell holds, nothing else changes, and [wait]
    goes on to its slow path. *)
Theorem stopAndWait_fast_outcome (requestStop : ProgressType → ProgressType) c p :
  (m_state c ≠ PROGRESS → is_Some (settled_call c) →
   stopAndWait_fast requestStop c = Some (true, c)) ∧
  (m_state c = PROGRESS → m_progress c = Some p →
   stopAndWait_fast requestStop c =
     Some (false, put_progress (address p) (requestStop (object p)) c)).
Proof.
  unfold stopAndWait_fast, accessProgress, access2, settled_call, call_value,
    call_error, call_progress, AsyncNoOp.
  split.
  - intros Hs [k Hk]. destruct (decide _) as [_|Hn]; [|by destruct Hn].
    simpl. destruct (m_state c); [| |done].
    + destruct (value (m_content c)) as [v|] eqn:Hv; [|done]. simpl.
      by rewrite put_value_same.
    + destruct (error (m_content c)) as [e|] eqn:He; [|done]. simpl.
      by rewrite put_error_same.
  - intros Hs Hp. destruct (decide _) as [Hn|_]; [done|].
    rewrite Hp. simpl. by rewrite Hs.
Qed.

End LifecycleProperties.

(** *** The lifecycle properties on the sample cells *)

Lemma startProgressMove_starts_witness :
  m_state sample_constructed ≠ PROGRESS ∧
  startProgressMove (Some sample_progress) sample_constructed =
    (Some 100, sample_running, [StateChanged PROGRESS]).
Proof.
  assert (Hs : m_state sample_constructed ≠ PROGRESS) by (vm_compute; discriminate).
  split; [exact Hs|].
  exact (proj1 (startProgressMove_starts sample_constructed sample_progress Hs)).
Defined.

Lemma progress_cycle_witness :
  m_state sample_constructed ≠ PROGRESS ∧
  stopProgress (Some 100) sample_settled = (true, initByValue 42, []) ∧
  stopProgress (Some 100) sample_running =
    (false, sample_running, [AssertFailed "No value or error assigned"]).
Proof.
  assert (Hs : m_state sample_constructed ≠ PROGRESS) by (vm_compute; discriminate).
  split; [exact Hs|].
  pose proof (progress_cycle sample_constructed sample_progress 42 "failed" Hs) as H.
  split; [exact (proj1 (proj1 H))|exact (proj2 (proj2 H))].
Defined.

Lemma null_payloads_witness :
  m_state sample_constructed ≠ PROGRESS ∧
  accessProgress (AsyncNoOp : Pred nat unit)
    (startProgressMove None sample_constructed).1.2 tt = None.
Proof.
  assert (Hs : m_state sample_constructed ≠ PROGRESS) by (vm_compute; discriminate).
  split; [exact Hs|].
  pose proof (proj2 (proj2 (null_payloads sample_constructed)) Hs) as H.
  exact (proj1 (proj2 (proj2 (proj2 H) unit AsyncNoOp AsyncNoOp AsyncNoOp tt))).
Defined.

Lemma stopProgress_nothing_retained_witness :
  m_progress sample_constructed = None ∧
  (stopProgress (Some 100) sample_settled).1.1 = true ∧
  stopProgress (Some 100) sample_constructed =
    (false, sample_constructed,
     [AssertFailed "Progress was started with different progress instance"]) ∧
  stopProgress (Some 100) (stopProgress (Some 100) sample_settled).1.2 =
    (false, (stopProgress (Some 100) sample_settled).1.2,
     [AssertFailed "Progress was started with different progress instance"]).
Proof.
  assert (Hp : m_progress sample_constructed = None) by reflexivity.
  assert (Hok : (stopProgress (Some 100) sample_settled).1.1 = true) by reflexivity.
  split; [exact Hp|]. split; [exact Hok|]. split.
  - exact (proj1 (proj1 (stopProgress_nothing_retained sample_constructed 100 None) Hp)).
  - exact (proj2 (proj2 (stopProgress_nothing_retained sample_settled 100 (Some 100)) Hok)).
Defined.

Lemma reachable_accessors_defined_witness :
  reachable sample_settled ∧
  is_Some (access3 (AsyncNoOp : Pred nat unit) AsyncNoOp AsyncNoOp sample_settled tt) ∧
  is_Some (accessProgress (AsyncNoOp : Pred nat unit) sample_settled tt).
Proof.
  assert (Hr : reachable sample_settled).
  { apply (reachable_mutate (SetValue 42)).
    apply (reachable_mutate (StartProgress sample_progress)).
    apply (reachable_value 7). }
  split; [exact Hr|].
  pose proof (reachable_accessors_defined (AsyncNoOp : Pred nat unit)
                AsyncNoOp AsyncNoOp sample_settled tt Hr) as H.
  split; [exact (proj1 H)|exact (proj2 (proj2 (proj2 (proj2 H))))].
Defined.

Lemma stopAndWait_fast_outcome_witness :
  m_state sample_settled ≠ PROGRESS ∧ is_Some (settled_call sample_settled) ∧
  m_state sample_running = PROGRESS ∧ m_progress sample_running = Some sample_progress ∧
  stopAndWait_fast S sample_settled = Some (true, sample_settled) ∧
  m_progress sample_settled = Some sample_progress ∧
  stopAndWait_fast S sample_running = Some (false, put_progress 100 1 sample_running).
Proof.
  assert (Hs : m_state sample_settled ≠ PROGRESS) by (vm_compute; discriminate).
  assert (Hk : is_Some (settled_call sample_settled)) by (by exists (CallValue 42)).
  assert (Hr : m_state sample_running = PROGRESS) by reflexivity.
  assert (Hp : m_progress sample_running = Some sample_progress) by reflexivity.
  split; [exact Hs|]. split; [exact Hk|]. split; [exact Hr|]. split; [exact Hp|].
  split; [|split; [reflexivity|]].
  - exact (proj1 (stopAndWait_fast_outcome S sample_settled sample_progress) Hs Hk).
  - exact (proj2 (stopAndWait_fast_outcome S sample_running sample_progress) Hr Hp).
Defined.

(** * Further properties of the threads *)

Section PoolProperties.

Context {ValueType ErrorType ProgressType : Type}.

#[local] Abbreviation Cell := (AsyncValueTemplate ValueType ErrorType ProgressType).
#[local] Abbreviation Thread := (thread ValueType ErrorType ProgressType).
#[local] Abbreviation Config := (config ValueType ErrorType ProgressType).
#[local] Abbreviation Call := (call ValueType ErrorType ProgressType).

Implicit Types (c : Cell) (σ : Config) (th : Thread) (t i : nat) (k : Call).

(** *** The mutex *)

Lemma acquire_Some t σ σ' :
  acquire t σ = Some σ' → m_writeLock σ = None ∧ σ' = set_lock (Some t) σ.
Proof. unfold acquire. destruct (m_writeLock σ); [done|]. by intros [= <-]. Qed.

Lemma discipline_goto (l : list Thread) t (x0 y : Thread) (lk lk' : option nat) :
  (∀ j, lk = Some j ↔ ∃ a, l !! j = Some a ∧ holds_lock (t_pc a) = true) →
  l !! t = Some x0 →
  (holds_lock (t_pc x0) = false → holds_lock (t_pc y) = true → lk = None) →
  lk' = (if holds_lock (t_pc y) then Some t
         else if holds_lock (t_pc x0) then None else lk) →
  ∀ j, lk' = Some j ↔ ∃ a, <[t:=y]> l !! j = Some a ∧ holds_lock (t_pc a) = true.
Proof.
  intros Hl Ht Hfree Hlk. rewrite <- (list_fmap_id l).
  by apply (lock_goto id l t x0 y lk lk' Hl Ht keeps_roles_id).
Qed.

Lemma entry_outside (o : op ValueType ErrorType ProgressType) :
  holds_lock (entry o) = false.
Proof. by destruct o. Qed.

Lemma lock_discipline_step t σ σ' :
  lock_discipline σ → step t σ = Some σ' → lock_discipline σ'.
Proof.
  intros Hl. unfold step. destruct (threads σ !! t) as [th|] eqn:Ht; [|done]. simpl.
  assert (Hheld : holds_lock (t_pc th) = true → m_writeLock σ = Some t)
    by (intros Hh; apply Hl; eauto).
  unfold statement.
  destruct (t_pc th) eqn:Hpc; simpl; intros Hstep;
    repeat match type of Hstep with
    | context [match ?x with _ => _ end] => destruct x eqn:?; simpl in Hstep
    | context [wait_access ?a ?b] =>
        let H := fresh "Hacc" in
        destruct (wait_access a b) as [[[??]?]|] eqn:H; simpl in Hstep;
        [apply wait_access_thread in H as (?&?&?&?&?)|]
    | context [acquire ?a ?b] =>
        let H := fresh "Hacq" in
        destruct (acquire a b) eqn:H; simpl in Hstep;
        [apply acquire_Some in H as [? ->]|]
    | context [m_waiter ?c ≫= _] => destruct (m_waiter c); simpl in Hstep
    end;
    simplify_eq; unfold lock_discipline; simpl;
    unfold Q_ASSERT; repeat case_match; simpl;
    rewrite ?foldl_emit; simpl;
    try match goal with H : threads _ = threads σ |- _ => rewrite H end;
    try match goal with H : m_writeLock _ = m_writeLock σ |- _ => rewrite H end;
    (first
       [ eapply (lock_goto (wake_value _)); [exact Hl|exact Ht|apply keeps_roles_wake_value|..]
       | eapply (lock_goto (wake_drained _)); [exact Hl|exact Ht|apply keeps_roles_wake_drained|..]
       | eapply discipline_goto; [exact Hl|exact Ht|..] ]);
    simpl; rewrite ?Hpc, ?entry_outside;
    repeat match goal with H : t_pc _ = _ |- _ => rewrite H end;
    rewrite ?Hpc; simpl; try done;
    try (apply Hheld; reflexivity).
Qed.

Lemma lock_discipline_exclusive σ : lock_discipline σ → exclusive σ.
Proof.
  intros Hl i j a b Hi Hj Ha Hb.
  assert (m_writeLock σ = Some i) as Ei by (apply Hl; eauto).
  assert (m_writeLock σ = Some j) as Ej by (apply Hl; eauto).
  congruence.
Qed.

Lemma unlocked_discipline σ : unlocked σ → lock_discipline σ.
Proof.
  intros [Hlk Hout] t. rewrite Hlk. split; [done|].
  intros (th & Ht & Hh). rewrite (Hout t th Ht) in Hh. done.
Qed.

(** X9.  Mutual exclusion, for every program.  Start from threads that
    are all outside the guarded regions, with the mutex free, and let them
    make any calls of [wait], [moveValue], [moveError], [startProgressMove]
    and [stopProgress] under any schedule: at every moment the mutex is
    held by a thread exactly when that thread stands between a
    [QMutexLocker] and the end of its scope (a sleeper on a wait condition
    has given the mutex up), so two threads are never inside together. *)
Theorem mutual_exclusion σ :
  unlocked σ → always (λ σ', lock_discipline σ' ∧ exclusive σ') σ.
Proof.
  intros Hl%unlocked_discipline σ' Hsteps.
  assert (lock_discipline σ') as Hl'.
  { induction Hsteps as [|σ1 σ2 σ3 [t Hstep] _ IH]; [done|].
    apply IH. by eapply lock_discipline_step. }
  split; [done|]. by apply lock_discipline_exclusive.
Qed.

(** *** Runs are finite *)

Lemma run_rtc (sched : list nat) σ σ' : run sched σ = Some σ' → rtc steps_to σ σ'.
Proof.
  revert σ. induction sched as [|t sched IH]; intros σ; simpl.
  - by intros [= <-].
  - destruct (step t σ) as [σ1|] eqn:Hstep; [|done]. simpl. intros Hrun.
    apply (rtc_l _ _ σ1); [by exists t|by apply IH].
Qed.

(** X10.  No member function spins.  Each statement a thread executes
    lowers the measure of the pool, which counts, for every thread, the
    statements left in the call it is in (at most 12 after entering [wait],
    5 for [moveValue], [moveError] and [startProgressMove], 2 for
    [stopProgress]) and those of the calls it has still to make.  So a
    schedule that runs is no longer than the measure at its start, less
    the measure at its end. *)
Theorem run_bounded (sched : list nat) σ σ' :
  run sched σ = Some σ' → length sched + measure σ' ≤ measure σ.
Proof.
  revert σ. induction sched as [|t sched IH]; intros σ; simpl.
  - intros [= <-]. lia.
  - destruct (step t σ) as [σ1|] eqn:Hstep; [|done]. simpl. intros Hrun.
    apply measure_step in Hstep. apply IH in Hrun. lia.
Qed.

(** *** What the callables of [wait] are given *)

Lemma waits_ahead_wake_value w th :
  t_calls (wake_value w th) = t_calls th ∧
  waits_ahead (wake_value w th) = waits_ahead th.
Proof.
  unfold wake_value, waits_ahead.
  destruct th as [[] td cs rs]; simpl; try done; by case_decide.
Qed.

Lemma waits_ahead_wake_drained w th :
  t_calls (wake_drained w th) = t_calls th ∧
  waits_ahead (wake_drained w th) = waits_ahead th.
Proof.
  unfold wake_drained, waits_ahead.
  destruct th as [[] td cs rs]; simpl; try done; by case_decide.
Qed.

(** What [access(valuePred, errorPred)] does to the log of the caller. *)
Lemma wait_access_calls th σ matched th' σ' :
  wait_access th σ = Some (matched, th', σ') →
  t_pc th' = t_pc th ∧ t_todo th' = t_todo th ∧ threads σ' = threads σ ∧
  if matched then ∃ k, settled_call (cell σ) = Some k ∧ t_calls th' = t_calls th ++ [k]
  else t_calls th' = t_calls th.
Proof.
  unfold wait_access, access2, settled_call, call_value, call_error, logValue, logError.
  destruct (m_state (cell σ)); simpl.
  - destruct (value (m_content (cell σ))) as [v|]; [|done]. simpl.
    intros [= <- <- <-]. simpl. repeat split. by exists (CallValue v).
  - destruct (error (m_content (cell σ))) as [e|]; [|done]. simpl.
    intros [= <- <- <-]. simpl. repeat split. by exists (CallError e).
  - intros [= <- <- <-]. simpl. by destruct th.
Qed.

Lemma log_grows_goto (f : Thread → Thread) c (l : list Thread) t (x0 y : Thread)
    fresh_calls i a :
  l !! t = Some x0 →
  (∀ a, t_calls (f a) = t_calls a ∧ waits_ahead (f a) = waits_ahead a) →
  log_grows c x0 y fresh_calls →
  l !! i = Some a →
  ∃ b new, <[t:=y]> (f <$> l) !! i = Some b ∧ log_grows c a b new.
Proof.
  intros Ht Hf Hy Hi. destruct (decide (i = t)) as [->|Hne].
  - exists y, fresh_calls. split.
    + apply list_lookup_insert_eq. rewrite length_fmap. by eapply lookup_lt_Some.
    + by simplify_eq.
  - exists (f a), []. split.
    + rewrite list_lookup_insert_ne by done. by rewrite list_lookup_fmap, Hi.
    + destruct (Hf a) as [Hc Hw]. unfold log_grows. rewrite Hc, Hw, app_nil_r.
      split; [done|]. split; [simpl; lia|]. by intros k Hk%elem_of_nil.
Qed.

Lemma log_grows_goto_id c (l : list Thread) t (x0 y : Thread) fresh_calls i a :
  l !! t = Some x0 →
  log_grows c x0 y fresh_calls →
  l !! i = Some a →
  ∃ b new, <[t:=y]> l !! i = Some b ∧ log_grows c a b new.
Proof.
  intros Ht Hy Hi.
  destruct (log_grows_goto id c l t x0 y fresh_calls i a Ht) as (b & new & Hb & Hg);
    [done|done|done|].
  rewrite list_fmap_id in Hb. by exists b, new.
Qed.

Lemma log_grows_step t σ σ' i a :
  threads σ !! i = Some a →
  step t σ = Some σ' →
  ∃ b new, threads σ' !! i = Some b ∧ log_grows (cell σ) a b new.
Proof.
  intros Hi. unfold step. destruct (threads σ !! t) as [th|] eqn:Ht; [|done]. simpl.
  unfold statement.
  destruct (t_pc th) eqn:Hpc; simpl; intros Hstep;
    repeat match type of Hstep with
    | context [match ?x with _ => _ end] => destruct x eqn:?; simpl in Hstep
    | context [wait_access ?a ?b] =>
        let H := fresh "Hacc" in
        destruct (wait_access a b) as [[[??]?]|] eqn:H; simpl in Hstep;
        [apply wait_access_calls in H as (?&?&?&?)|]
    | context [acquire ?a ?b] =>
        let H := fresh "Hacq" in
        destruct (acquire a b) eqn:H; simpl in Hstep;
        [apply acquire_Some in H as [? ->]|]
    | context [m_waiter ?c ≫= _] => destruct (m_waiter c); simpl in Hstep
    end;
    simplify_eq; simpl;
    unfold Q_ASSERT; repeat case_match; simpl;
    rewrite ?foldl_emit; simpl;
    try match goal with H : threads _ = threads σ |- _ => rewrite H end;
    match goal with
    | H : ∃ k, _ |- _ =>
        destruct H as (k & Hk & Hcalls);
        eapply (log_grows_goto_id _ _ _ _ _ [k]); [exact Ht| |exact Hi]
    | _ =>
        first
          [ eapply (log_grows_goto (wake_value _) _ _ _ _ _ []);
            [exact Ht|apply waits_ahead_wake_value| |exact Hi]
          | eapply (log_grows_goto (wake_drained _) _ _ _ _ _ []);
            [exact Ht|apply waits_ahead_wake_drained| |exact Hi]
          | eapply (log_grows_goto_id _ _ _ _ _ []); [exact Ht| |exact Hi] ]
    end;
    unfold log_grows, waits_ahead; simpl; rewrite ?Hpc;
    repeat match goal with H : t_pc _ = _ |- _ => rewrite H end;
    repeat match goal with H : t_todo _ = _ |- _ => rewrite H end;
    repeat match goal with H : t_calls _ = _ |- _ => rewrite H end;
    rewrite ?Hpc, ?app_nil_r; simpl;
    (split; [done|]);
    (split;
       [first [ lia
              | case_match; simpl; lia
              | rewrite filter_cons;
                match goal with o : op _ _ _ |- _ => destruct o; simpl; lia end ]|]);
    intros k' Hk';
    first [ by apply elem_of_nil in Hk'
          | apply list_elem_of_singleton in Hk' as ->; done ].
Qed.

(** X11.  Along any run of any pool, the log of a thread only grows, by
    the invocations of the callables it passed to [wait]; there is at most
    one of them for each call of [wait] it completed or is in, so a thread
    with no call of [wait] to make or to complete gets none; and each was
    given the value or the error that the cell held, settled, at some
    moment of the run: no callable is ever run on a cell in Progress. *)
Theorem wait_invocations σ σ' :
  rtc steps_to σ σ' →
  ∀ i th, threads σ !! i = Some th →
    ∃ th' new,
      threads σ' !! i = Some th' ∧
      t_calls th' = t_calls th ++ new ∧
      length new + waits_ahead th' ≤ waits_ahead th ∧
      ∀ k, k ∈ new →
        ∃ σ1, rtc steps_to σ σ1 ∧ rtc steps_to σ1 σ' ∧ settled_call (cell σ1) = Some k.
Proof.
  induction 1 as [σ|σ σ1 σ' [t Hstep] Hrest IH]; intros i th Hi.
  - exists th, []. rewrite app_nil_r. split; [done|]. split; [done|].
    split; [simpl; lia|]. by intros k Hk%elem_of_nil.
  - destruct (log_grows_step t σ σ1 i th Hi Hstep) as (b & new1 & Hb & Hc1 & Hw1 & Hk1).
    destruct (IH i b Hb) as (th' & new2 & Hth' & Hc2 & Hw2 & Hk2).
    exists th', (new1 ++ new2). split; [done|]. split.
    { by rewrite Hc2, Hc1, app_assoc. }
    split.
    { rewrite length_app. lia. }
    intros k [Hk|Hk]%elem_of_app.
    + exists σ. split; [done|]. split; [|by apply Hk1].
      apply (rtc_l _ _ σ1); [by exists t|done].
    + destruct (Hk2 k Hk) as (σm & Hm1 & Hm2 & Hm3).
      exists σm. split; [|done]. apply (rtc_l _ _ σ1); [by exists t|done].
Qed.

End PoolProperties.
(** * Crowds of waiters, and the two layers side by side *)

Section Crowds.

Context {ValueType ErrorType ProgressType : Type}.

#[local] Abbreviation Cell := (AsyncValueTemplate ValueType ErrorType ProgressType).
#[local] Abbreviation Thread := (thread ValueType ErrorType ProgressType).
#[local] Abbreviation Config := (config ValueType ErrorType ProgressType).

Implicit Types (c : Cell) (σ : Config) (th : Thread) (t i : nat) (x : ValueType).

Lemma total_app {A : Type} (g : A → nat) (l1 l2 : list A) :
  total g (l1 ++ l2) = total g l1 + total g l2.
Proof. induction l1 as [|a l1 IH]; simpl; [done|]. rewrite IH. lia. Qed.

Lemma quint16_succ (z : Z) : quint16 (quint16 z + 1) = quint16 (z + 1).
Proof. unfold quint16. by rewrite Z.add_mod_idemp_l. Qed.

Lemma crowd_joins c x (n k : nat) :
  m_state c = PROGRESS →
  run (sleep_schedule (S k) n) (crowded_pool k n c x) = Some (crowded_pool (k + n) 0 c x).
Proof.
  intros Hst. revert k. induction n as [|n IH]; intros k.
  - simpl. by rewrite Nat.add_0_r.
  - rewrite sleep_schedule_S, run_app.
    unfold crowded_pool at 1.
    rewrite (sleep_later _ _ _ _ {| owner := 0; subWaiters := quint16 (Z.of_nat k) |});
      [|simpl|done|done].
    2:{ rewrite lookup_app_r by (rewrite length_replicate; lia).
        by rewrite length_replicate, Nat.sub_diag. }
    simpl. rewrite quint16_succ.
    replace (k + S n) with (S k + n) by lia.
    rewrite <- IH. f_equal. unfold crowded_pool. f_equal.
    + unfold set_waiter. simpl. do 4 f_equal. lia.
    + f_equal. rewrite insert_app_r_alt by (rewrite length_replicate; lia).
      rewrite length_replicate, Nat.sub_diag. simpl.
      apply replicate_app_cons.
Qed.

Lemma crowd_sleeps c x (n : nat) :
  m_state c = PROGRESS → m_waiter c = None →
  run (sleep_schedule 0 (S n)) (start_pool (S n) c x) = Some (crowded_pool n 0 c x).
Proof.
  intros Hst Hmw. rewrite sleep_schedule_S, run_app.
  unfold start_pool. rewrite sleep_first by done.
  apply (crowd_joins c x n 0 Hst).
Qed.

(** X13.  [wait] on a cell in Progress does not return.  Callers that
    arrive one after the other each execute six statements and are then
    asleep on the wait condition of the first one's [Waiter], the mutex
    released, no callable run and no event emitted: the first registered
    its own [Waiter], each later one added itself to [subWaiters], which
    holds their number modulo 65536. *)
Theorem callers_fall_asleep c x (n : nat) :
  m_state c = PROGRESS → m_waiter c = None →
  ∃ σ, run (sleep_schedule 0 (S n)) (start_pool (S n) c x) = Some σ ∧
       length (sleep_schedule 0 (S n)) = 6 * S n ∧
       m_writeLock σ = None ∧ trace σ = [] ∧
       cell σ = set_waiter (Some {| owner := 0;
                                    subWaiters := (Z.of_nat n mod 65536)%Z |}) c ∧
       sub_count (threads σ) = n ∧
       ∀ i th, threads σ !! i = Some th → i ≤ n →
         th = asleep (if decide (i = 0) then PrimBlocked 0 else SubBlocked 0).
Proof.
  intros Hst Hmw. exists (crowded_pool n 0 c x).
  split; [by apply crowd_sleeps|]. split.
  { generalize 0 at 1. induction (S n) as [|m IH]; intros k; [done|].
    rewrite sleep_schedule_S, length_app, IH, length_replicate. lia. }
  do 3 (split; [reflexivity|]). split.
  { unfold sub_count. simpl. rewrite total_app. simpl.
    rewrite (total_all_one _ (replicate n (asleep (SubBlocked 0)))).
    - rewrite length_replicate. lia.
    - by intros i th [-> _]%lookup_replicate. }
  intros i th Hi Hle. destruct i as [|i]; simpl in Hi; [by injection Hi as <-|].
  rewrite decide_False by lia.
  rewrite lookup_app_l in Hi by (rewrite length_replicate; lia).
  by apply lookup_replicate in Hi as [-> _].
Qed.









(** X14.  [moveValue] and [moveError] run by one thread without
    interruption, from a free mutex: six statements, after which the cell
    and the events are those of the function on the cell alone, the
    sleepers of the registered [Waiter], if there is one, have been woken,
    nobody else has moved, and the mutex is free again. *)
Theorem setters_agree c (l : list Thread) (tr : list event) t th rest :
  l !! t = Some th → t_pc th = Idle →
  (∀ v, t_todo th = MoveValue v :: rest →
     run (replicate 6 t) {| cell := c; m_writeLock := None; threads := l; trace := tr |} =
       Some {| cell := (moveValue v c).1;
               m_writeLock := None;
               threads := <[t:=set_todo rest th]>
                            (match m_waiter c with
                             | Some w => wake_value (owner w) <$> l
                             | None => l
                             end);
               trace := tr ++ (moveValue v c).2 |}) ∧
  (∀ e, t_todo th = MoveError e :: rest →
     run (replicate 6 t) {| cell := c; m_writeLock := None; threads := l; trace := tr |} =
       Some {| cell := (moveError e c).1;
               m_writeLock := None;
               threads := <[t:=set_todo rest th]>
                            (match m_waiter c with
                             | Some w => wake_value (owner w) <$> l
                             | None => l
                             end);
               trace := tr ++ (moveError e c).2 |}).
Proof.
  intros Ht Hpc. split.
  - intros v Htodo. by apply solo_moveValue.
  - intros e Htodo. by apply solo_moveError.
Qed.

(** X15.  [startProgressMove] and [stopProgress] run by one thread
    without interruption, from a free mutex: the cell, the events and the
    value returned to the caller are those of the function on the cell
    alone; the mutex is free again afterwards, also on the early return
    of a refused [startProgressMove] (three statements instead of six);
    and no sleeper is woken, whatever the outcome. *)
Theorem progress_calls_agree c (l : list Thread) (tr : list event) t th rest :
  l !! t = Some th → t_pc th = Idle →
  (∀ p, t_todo th = StartProgressMove p :: rest →
     run (replicate (if decide (m_state c = PROGRESS) then 3 else 6) t)
         {| cell := c; m_writeLock := None; threads := l; trace := tr |} =
       Some {| cell := (startProgressMove p c).1.2;
               m_writeLock := None;
               threads := <[t:=push_returned (RetPointer (startProgressMove p c).1.1)
                                 (set_todo rest th)]> l;
               trace := tr ++ (startProgressMove p c).2 |}) ∧
  (∀ h, t_todo th = StopProgress h :: rest →
     run (replicate 3 t) {| cell := c; m_writeLock := None; threads := l; trace := tr |} =
       Some {| cell := (stopProgress h c).1.2;
               m_writeLock := None;
               threads := <[t:=push_returned (RetBool (stopProgress h c).1.1)
                                 (set_todo rest th)]> l;
               trace := tr ++ (stopProgress h c).2 |}).
Proof.
  intros Ht Hpc. split.
  - intros p Htodo. by apply solo_startProgressMove.
  - intros h Htodo. by apply solo_stopProgress.
Qed.

End Crowds.

(** * The demo window *)

Section DemoProperties.

Context {ErrorType ProgressType : Type}.

Variable makeError : string → ErrorType.

#[local] Abbreviation Cell := (AsyncValueTemplate string ErrorType ProgressType).
#[local] Abbreviation Window := (MainWindow ErrorType ProgressType).

Implicit Types (c : Cell) (w : Window) (b : Buttons) (stop : nat → bool).

(** X16.  The buttons follow the state.  Once the slot has run on the
    signals of a mutating call, the buttons are as the slot makes them for
    the state the cell is left in, provided they were so before the call;
    after [emplaceValue] and [emplaceError] they are so in any case,
    with the error and value buttons enabled and the stop button disabled,
    and after a [startProgressMove] that succeeds the error and value
    buttons are disabled and the stop button is enabled.  A refused
    [startProgressMove] emits its failed assertion alone, and a
    [stopProgress], refused or not, emits no state change: neither changes
    a button. *)
Theorem buttons_track_state (m : mutation string ErrorType ProgressType) c b :
  (buttons_agree b c → buttons_agree (deliver (events_of m c) b) (mutate m c)) ∧
  match m with
  | SetValue _ | SetError _ =>
      deliver (events_of m c) b =
        {| errorBttn := true; valueBttn := true; stopBttn := false |} ∧
      buttons_agree (deliver (events_of m c) b) (mutate m c)
  | StartProgress _ =>
      if decide (m_state c = PROGRESS) then
        events_of m c = [AssertFailed "Cannot start progress while in progress"] ∧
        deliver (events_of m c) b = b
      else
        events_of m c = [StateChanged PROGRESS] ∧
        deliver (events_of m c) b =
          {| errorBttn := false; valueBttn := false; stopBttn := true |}
  | StopProgressOf _ =>
      (∀ state, StateChanged state ∉ events_of m c) ∧
      deliver (events_of m c) b = b
  end.
Proof.
  destruct m as [v|e|p|h]; simpl.
  - done.
  - done.
  - unfold startProgressMove, buttons_agree.
    destruct (decide (m_state c = PROGRESS)) as [Hs|Hs]; simpl; done.
  - unfold stopProgress, buttons_agree. destruct (_ && _); simpl.
    { split; [done|]. split; [|done].
      intros state Hin%list_elem_of_singleton. discriminate Hin. }
    destruct (decide _); simpl.
    + split; [done|]. split; [|done].
      intros state Hin%list_elem_of_singleton. discriminate Hin.
    + split; [done|]. split; [|done]. intros state Hin%elem_of_nil. done.
Qed.

(** X17.  The three click handlers.  The value and the error button
    settle the cell on their text whatever its state, also in the middle
    of a progress, whose object the cell then keeps; the slot has run by
    the time the handler returns, so the error and value buttons are
    enabled and the stop button is disabled.  The stop button asks the
    progress object of a cell in Progress to stop and changes nothing
    else; on a settled cell it does nothing at all. *)
Theorem click_handlers w (requestStop : ProgressType → ProgressType) :
  (let w' := on_valueBttn_clicked w in
   ui w' = {| errorBttn := true; valueBttn := true; stopBttn := false |} ∧
   m_state (m_value w') = VALUE ∧
   m_content (m_value w') = {| value := Some "A new value assigned!"; error := None |} ∧
   m_progress (m_value w') = m_progress (m_value w)) ∧
  (let w' := on_errorBttn_clicked makeError w in
   ui w' = {| errorBttn := true; valueBttn := true; stopBttn := false |} ∧
   m_state (m_value w') = ERROR ∧
   m_content (m_value w') =
     {| value := None; error := Some (makeError "Error happened!") |} ∧
   m_progress (m_value w') = m_progress (m_value w)) ∧
  (m_state (m_value w) ≠ PROGRESS → on_stopBttn_clicked requestStop w = Some w) ∧
  (∀ p, m_state (m_value w) = PROGRESS → m_progress (m_value w) = Some p →
     on_stopBttn_clicked requestStop w =
       Some {| m_value := put_progress (address p) (requestStop (object p)) (m_value w);
               ui := ui w |}).
Proof.
  split; [done|]. split; [done|].
  unfold on_stopBttn_clicked, accessProgress, call_progress. split.
  - intros Hs. destruct (decide _) as [_|Hn]; [|by destruct Hn]. simpl. by destruct w.
  - intros p Hs Hp. destruct (decide _) as [Hn|_]; [done|]. rewrite Hp. reflexivity.
Qed.

(** *** The callable of the start button *)

Lemma obtain_loop_through stop (rounds : list nat) c :
  (∀ i, i ∈ rounds → stop i = false) →
  obtain_loop makeError stop rounds c = (flat_map round rounds, None).
Proof.
  induction rounds as [|i rounds IH]; intros Hall; simpl; [done|].
  rewrite (Hall i) by apply list_elem_of_here.
  rewrite IH; [done|]. intros j Hj. apply Hall. by apply list_elem_of_further.
Qed.

Lemma obtain_loop_stopped stop (before after : list nat) (k : nat) c :
  (∀ i, i ∈ before → stop i = false) → stop k = true →
  obtain_loop makeError stop (before ++ k :: after) c =
    (flat_map round before ++ [SetProgress k; IsStopRequested true],
     Some (emplaceError (makeError "Stopped") c)).
Proof.
  induction before as [|i before IH]; intros Hall Hk; simpl.
  - by rewrite Hk.
  - rewrite (Hall i) by apply list_elem_of_here.
    rewrite IH; [done| |done]. intros j Hj. apply Hall. by apply list_elem_of_further.
Qed.

Lemma obtain_loop_result stop (rounds : list nat) c :
  (obtain_loop makeError stop rounds c).2 = None ∨
  (obtain_loop makeError stop rounds c).2 = Some (emplaceError (makeError "Stopped") c).
Proof.
  induction rounds as [|i rounds IH]; simpl; [by left|].
  destruct (stop i); simpl; [by right|].
  by destruct (obtain_loop makeError stop rounds c).
Qed.

(** X18.  The callable of the start button always settles the value, and
    emits one state change.  It polls [isStopRequested] once in each of
    five rounds, a second apart: the first poll that answers yes ends it
    with the error [Stopped], after the progress reports of the rounds so
    far; when none does, it reports completion, sets the message, sleeps
    once more and emplaces the loaded value, so a stop that is requested
    after the fifth poll goes unnoticed. *)
Theorem obtain_outcome stop c :
  ((∀ i, i < 5 → stop i = false) →
   obtain makeError stop c =
     (flat_map round [0; 1; 2; 3; 4] ++
        [SetProgress 5; SetMessage "Processing..."; SleepFor1s],
      emplaceValue "Loaded value is 42" c)) ∧
  (∀ k, k < 5 → stop k = true → (∀ i, i < k → stop i = false) →
     obtain makeError stop c =
       (flat_map round (seq 0 k) ++ [SetProgress k; IsStopRequested true],
        emplaceError (makeError "Stopped") c)) ∧
  m_state (obtain makeError stop c).2.1 ≠ PROGRESS ∧
  (obtain makeError stop c).2.2 = [StateChanged (m_state (obtain makeError stop c).2.1)].
Proof.
  split; [|split].
  - intros Hall. unfold obtain. rewrite obtain_loop_through; [done|].
    intros i Hi. apply Hall.
    change [0; 1; 2; 3; 4] with (seq 0 5) in Hi. apply elem_of_seq in Hi. lia.
  - intros k Hk Hstop Hbefore. unfold obtain.
    assert ([0; 1; 2; 3; 4] = seq 0 k ++ k :: seq (S k) (4 - k)) as ->.
    { do 5 (destruct k as [|k]; [reflexivity|]). lia. }
    rewrite obtain_loop_stopped; [done| |done].
    intros i Hi%elem_of_seq. apply Hbefore. lia.
  - unfold obtain.
    destruct (obtain_loop_result stop [0; 1; 2; 3; 4] c) as [Hr|Hr];
      destruct (obtain_loop makeError stop [0; 1; 2; 3; 4] c) as [calls r];
      simpl in Hr; subst r; simpl; done.
Qed.

End DemoProperties.

(** * The further properties on the sample pools and on the demo window *)

Lemma pool_start_unlocked : unlocked pool_start.
Proof.
  split; [reflexivity|]. intros t th Ht.
  destruct t as [|[|[|[|t]]]]; vm_compute in Ht; try discriminate;
    by injection Ht as <-.
Qed.

Lemma mutual_exclusion_witness :
  unlocked pool_start ∧
  always (λ σ', lock_discipline σ' ∧ exclusive σ') pool_start.
Proof.
  split; [exact pool_start_unlocked|].
  exact (mutual_exclusion pool_start pool_start_unlocked).
Defined.

Lemma run_bounded_witness :
  run (replicate 6 0 ++ replicate 6 1 ++ replicate 6 2) pool_start = Some pool_blocked ∧
  18 + measure pool_blocked ≤ measure pool_start.
Proof.
  split; [exact pool_blocked_reached|].
  exact (run_bounded _ pool_start pool_blocked pool_blocked_reached).
Defined.

Lemma pool_served_reached :
  run (replicate 6 3 ++ [0; 0; 0] ++ [1; 1; 1] ++ [2; 2; 2] ++ [0; 0]) pool_blocked =
    Some pool_served.
Proof. vm_compute. reflexivity. Qed.

Lemma wait_invocations_witness :
  rtc steps_to pool_blocked pool_served ∧
  threads pool_blocked !! 1 = Some (asleep (SubBlocked 0)) ∧
  ∃ th' new,
    threads pool_served !! 1 = Some th' ∧
    t_calls th' = t_calls (asleep (SubBlocked 0) : thread nat string nat) ++ new ∧
    length new + waits_ahead th' ≤
      waits_ahead (asleep (SubBlocked 0) : thread nat string nat) ∧
    ∀ k, k ∈ new →
      ∃ σ1, rtc steps_to pool_blocked σ1 ∧ rtc steps_to σ1 pool_served ∧
            settled_call (cell σ1) = Some k.
Proof.
  assert (Hrun : rtc steps_to pool_blocked pool_served)
    by exact (run_rtc _ _ _ pool_served_reached).
  assert (Hth : threads pool_blocked !! 1 = Some (asleep (SubBlocked 0)))
    by (vm_compute; reflexivity).
  split; [exact Hrun|]. split; [exact Hth|].
  exact (wait_invocations pool_blocked pool_served Hrun 1 (asleep (SubBlocked 0)) Hth).
Defined.


Lemma callers_fall_asleep_witness :
  m_state sample_running = PROGRESS ∧ m_waiter sample_running = None ∧
  ∃ σ, run (sleep_schedule 0 3) (start_pool 3 sample_running 42) = Some σ ∧
       length (sleep_schedule 0 3) = 6 * 3 ∧
       m_writeLock σ = None ∧ trace σ = [] ∧
       cell σ = set_waiter (Some {| owner := 0;
                                    subWaiters := (Z.of_nat 2 mod 65536)%Z |})
                  sample_running ∧
       sub_count (threads σ) = 2 ∧
       ∀ i th, threads σ !! i = Some th → i ≤ 2 →
         th = asleep (if decide (i = 0) then PrimBlocked 0 else SubBlocked 0).
Proof.
  assert (Hs : m_state sample_running = PROGRESS) by reflexivity.
  assert (Hw : m_waiter sample_running = None) by reflexivity.
  split; [exact Hs|]. split; [exact Hw|].
  exact (callers_fall_asleep sample_running 42 2 Hs Hw).
Defined.

Lemma setters_agree_witness :
  threads pool_blocked !! 3 = Some (spawn [MoveValue (Some 42)]) ∧
  run (replicate 6 3) pool_blocked =
    Some {| cell := (moveValue (Some 42) (cell pool_blocked)).1;
            m_writeLock := None;
            threads := <[3:=spawn []]> (wake_value 0 <$> threads pool_blocked);
            trace := [StateChanged VALUE] |}.
Proof.
  assert (Ht : threads pool_blocked !! 3 = Some (spawn [MoveValue (Some 42)]))
    by (vm_compute; reflexivity).
  split; [exact Ht|].
  exact (proj1 (setters_agree (cell pool_blocked) (threads pool_blocked) [] 3
                  (spawn [MoveValue (Some 42)]) [] Ht eq_refl)
               (Some 42) eq_refl).
Defined.

Lemma progress_calls_agree_witness :
  threads race_start !! 2 = Some (spawn [StartProgressMove (Some (Object 200 1))]) ∧
  run [2; 2; 2] race_start =
    Some {| cell := sample_running;
            m_writeLock := None;
            threads := <[2:=push_returned (RetPointer None) (spawn [])]>
                         (threads race_start);
            trace := [AssertFailed "Cannot start progress while in progress"] |}.
Proof.
  assert (Ht : threads race_start !! 2 =
               Some (spawn [StartProgressMove (Some (Object 200 1))]))
    by reflexivity.
  split; [exact Ht|].
  exact (proj1 (progress_calls_agree sample_running (threads race_start) [] 2
                  (spawn [StartProgressMove (Some (Object 200 1))]) [] Ht eq_refl)
               (Some (Object 200 1)) eq_refl).
Defined.

Lemma buttons_track_state_witness :
  buttons_agree (ui (on_valueBttn_clicked sample_window))
    (m_value (on_valueBttn_clicked sample_window)) ∧
  buttons_agree
    (deliver (events_of (StartProgress sample_progress)
                (m_value (on_valueBttn_clicked sample_window)))
       (ui (on_valueBttn_clicked sample_window)))
    (mutate (StartProgress sample_progress)
       (m_value (on_valueBttn_clicked sample_window))).
Proof.
  assert (Hb : buttons_agree (ui (on_valueBttn_clicked sample_window))
                 (m_value (on_valueBttn_clicked sample_window)))
    by reflexivity.
  split; [exact Hb|].
  exact (proj1 (buttons_track_state (StartProgress sample_progress)
                  (m_value (on_valueBttn_clicked sample_window))
                  (ui (on_valueBttn_clicked sample_window))) Hb).
Defined.

Lemma click_handlers_witness :
  m_state (m_value sample_window) ≠ PROGRESS ∧
  on_stopBttn_clicked S sample_window = Some sample_window ∧
  ui (on_errorBttn_clicked id sample_window) =
    {| errorBttn := true; valueBttn := true; stopBttn := false |}.
Proof.
  assert (Hs : m_state (m_value sample_window) ≠ PROGRESS)
    by (vm_compute; discriminate).
  split; [exact Hs|].
  pose proof (click_handlers id sample_window S) as H.
  split; [exact (proj1 (proj2 (proj2 H)) Hs)|exact (proj1 (proj1 (proj2 H)))].
Defined.

Lemma obtain_outcome_witness :
  2 < 5 ∧ stop_in_third_round 2 = true ∧
  (∀ i, i < 2 → stop_in_third_round i = false) ∧
  obtain id stop_in_third_round (m_value sample_window) =
    (round 0 ++ round 1 ++ [SetProgress 2; IsStopRequested true],
     emplaceError "Stopped" (m_value sample_window)).
Proof.
  assert (Hk : 2 < 5) by lia.
  assert (Hstop : stop_in_third_round 2 = true) by reflexivity.
  assert (Hbefore : ∀ i, i < 2 → stop_in_third_round i = false).
  { intros i Hi. destruct i as [|[|i]]; [reflexivity|reflexivity|lia]. }
  split; [exact Hk|]. split; [exact Hstop|]. split; [exact Hbefore|].
  exact (proj1 (proj2 (obtain_outcome id stop_in_third_round (m_value sample_window)))
               2 Hk Hstop Hbefore).
Defined.

Lemma pool_start_about_to_wait : about_to_wait 3 3 42 pool_start.
Proof.
  do 4 (split; [reflexivity|]). split; [reflexivity|].
  intros i th Hi Hne.
  destruct i as [|[|[|[|i]]]]; vm_compute in Hi; try discriminate;
    try (injection Hi as <-; reflexivity).
  by destruct Hne.
Qed.

Lemma moveValue_serves_all_callers_witness :
  (Z.of_nat 3 < 65536)%Z ∧
  about_to_wait 3 3 42 pool_start ∧
  inevitably (all_served 3 42 []) pool_start ∧
  always drained_before_unregistered pool_start.
Proof.
  assert (Hn : (Z.of_nat 3 < 65536)%Z) by (vm_compute; reflexivity).
  split; [exact Hn|]. split; [exact pool_start_about_to_wait|].
  exact (moveValue_serves_all_callers 3 3 42 pool_start Hn pool_start_about_to_wait).
Defined.

